(** * di: the dependency solver ([di/container/_solving.py])

    A shallow embedding of [solve] and [build_tasks], of the topological
    sorter they drive, and of the cache rules exercised by
    [tests/test_caching_rules.py], with the properties of the design
    document proved about them. *)

From Stdlib Require Import List Arith ZArith Lia Bool String Relations.
Import ListNotations.

Set Implicit Arguments.

(** ** Python containers *)

(** A [dict] keeps its items in insertion order; assigning to a key that is
    present replaces the value in place.  Keys are object references or
    cache keys, both natural numbers here. *)
Section Dict.
Context {V : Type}.

Fixpoint dict_get (k : nat) (d : list (nat * V)) : option V :=
  match d with
  | [] => None
  | (k', v) :: rest => if k =? k' then Some v else dict_get k rest
  end.

Fixpoint dict_set (k : nat) (v : V) (d : list (nat * V)) : list (nat * V) :=
  match d with
  | [] => [(k, v)]
  | (k', v') :: rest =>
      if k =? k' then (k, v) :: rest else (k', v') :: dict_set k v rest
  end.

Definition dict_mem (k : nat) (d : list (nat * V)) : bool :=
  match dict_get k d with Some _ => true | None => false end.

Definition keys (d : list (nat * V)) : list nat := map fst d.
End Dict.

(** The same for the [str]-keyed dict of keyword arguments. *)
Section StrDict.
Context {V : Type}.

Fixpoint kw_get (k : string) (d : list (string * V)) : option V :=
  match d with
  | [] => None
  | (k', v) :: rest => if String.eqb k k' then Some v else kw_get k rest
  end.

Fixpoint kw_set (k : string) (v : V) (d : list (string * V)) : list (string * V) :=
  match d with
  | [] => [(k, v)]
  | (k', v') :: rest =>
      if String.eqb k k' then (k, v) :: rest else (k', v') :: kw_set k v rest
  end.
End StrDict.

(** A [set] of references, kept in the order its members were first added. *)
Definition set_in (x : nat) (s : list nat) : bool := existsb (Nat.eqb x) s.
Definition set_add (x : nat) (s : list nat) : list nat :=
  if set_in x s then s else s ++ [x].

(** ** The data model ([di.api.dependencies]) *)

(** Dependants are Python objects compared by identity: a [Dependant] is a
    reference into the object store [Heap]. *)
Definition Dependant := nat.
Definition CacheKey := nat.
Definition Call := nat.
(** [None] is the scope of a single execution. *)
Definition Scope := option string.

Definition Scope_eqb (a b : Scope) : bool :=
  match a, b with
  | None, None => true
  | Some x, Some y => String.eqb x y
  | _, _ => false
  end.

(** The values that calls compute, as far as the tests of the container
    need them: integers, and sets of integers kept in the order of their
    first insertion. *)
Inductive Value :=
| VInt (n : nat)
| VSet (members : list nat).

Inductive ParameterKind :=
| POSITIONAL_ONLY | POSITIONAL_OR_KEYWORD | VAR_POSITIONAL | KEYWORD_ONLY | VAR_KEYWORD.

(** [inspect.Parameter]; [default = None] stands for [Parameter.empty]. *)
Record inspect_Parameter := {
  name : string;
  kind : ParameterKind;
  default : option nat
}.

Record DependencyParameter := {
  dependency : Dependant;
  parameter : option inspect_Parameter
}.

(** [truthy] is the truth value of the object, [bool(dependant)]: true
    unless the class of the object defines it otherwise. *)
Record DependantBase := {
  call : option Call;
  scope : Scope;
  use_cache : bool;
  cache_key : CacheKey;
  get_dependencies : list DependencyParameter;
  truthy : bool
}.

Definition Heap := Dependant -> DependantBase.

(** [BindHook]: called with the parameter (or [None] for the root) and the
    dependant, returns the replacement or [None]. *)
Definition BindHook := option inspect_Parameter -> Dependant -> option Dependant.

Inductive Exception :=
| WiringError (parameter_name : string) (to_call : option Call) (path : list Dependant)
| SolvingError (of_call : option Call) (dep_scope other_scope : Scope) (path : list Dependant)
| DependencyCycleError (dep : CacheKey)
| ScopeViolationError (dependant dependency : Dependant) (dependant_scope dependency_scope : Scope)
| CycleError (cycle : list nat)
| KeyError
| AssertionError
| StopIteration.

(** Modelled from the spec: [get_path] of [di/container/_utils.py], which is
    not among the sources.  The parent map is followed from [dep] upwards
    until a node without a recorded parent, and the chain is returned root
    first.  On a parent map with a cycle the walk may never reach such a
    node: then there is no path, [get_path] is [None] and its caller gets
    no result.  A walk that has not ended after as many steps as the map
    has entries never ends ([path_up_never_ends] below), so that many steps
    decide it. *)
Fixpoint path_up (fuel : nat) (parents : list (Dependant * Dependant)) (dep : Dependant)
  : option (list Dependant) :=
  match dict_get dep parents with
  | None => Some [dep]
  | Some parent =>
      match fuel with
      | 0 => None
      | S fuel' =>
          match path_up fuel' parents parent with
          | Some chain => Some (dep :: chain)
          | None => None
          end
      end
  end.

Definition get_path (dep : Dependant) (parents : list (Dependant * Dependant))
  : option (list Dependant) :=
  match path_up (List.length parents) parents dep with
  | Some chain => Some (rev chain)
  | None => None
  end.

(** ** Graph building ([solve], lines 27-95) *)

Record State := {
  dependants : list (CacheKey * Dependant);
  dep_dag : list (Dependant * list Dependant);
  param_graph : list (Dependant * list DependencyParameter);
  parents : list (Dependant * Dependant);
  q : list Dependant;            (* the head is the end of the Python list *)
  seen : list Dependant
}.

(** How the loop ends: the queue is empty, an exception is raised, the
    path of an exception is never computed ([get_path] does not return), or
    the fuel of the model is used up. *)
Inductive Outcome :=
| Finished
| Raised (e : Exception)
| Hangs
| OutOfFuel.

Section Solving.
Variable heap : Heap.
Variable binds : list BindHook.

(** Lines 28-31: the root is offered to every hook in turn; [if match:]
    takes a replacement that is true as a Python value. *)
Fixpoint bind_root (hooks : list BindHook) (dependency : Dependant) : Dependant :=
  match hooks with
  | [] => dependency
  | hook :: rest =>
      match hook None dependency with
      | Some m => if truthy (heap m) then bind_root rest m else bind_root rest dependency
      | None => bind_root rest dependency
      end
  end.

(** Lines 46-49: the inner loop of [get_params] for one parameter;
    [if match is not None:] takes every replacement. *)
Fixpoint bind_param (hooks : list BindHook) (param : DependencyParameter) : DependencyParameter :=
  match hooks with
  | [] => param
  | hook :: rest =>
      match hook (parameter param) (dependency param) with
      | Some m => bind_param rest {| dependency := m; parameter := parameter param |}
      | None => bind_param rest param
      end
  end.

(** Lines 51-55: the test that makes [get_params] raise. *)
Definition unwired (param : DependencyParameter) : option inspect_Parameter :=
  match parameter param with
  | Some p =>
      match call (heap (dependency param)), default p with
      | None, None => Some p
      | _, _ => None
      end
  | None => None
  end.

(** Lines 41-66.  The result [inl None] stands for an error whose path is
    never computed. *)
Fixpoint get_params_from (dep : Dependant) (parents : list (Dependant * Dependant))
    (params : list DependencyParameter) : option Exception + list DependencyParameter :=
  match params with
  | [] => inr []
  | param :: rest =>
      let param := bind_param binds param in
      match unwired param with
      | Some p =>
          inl (match get_path dep parents with
               | Some path => Some (WiringError (name p) (call (heap dep)) path)
               | None => None
               end)
      | None =>
          match get_params_from dep parents rest with
          | inl e => inl e
          | inr params' => inr (param :: params')
          end
      end
  end.

Definition get_params (dep : Dependant) (parents : list (Dependant * Dependant))
  : option Exception + list DependencyParameter :=
  get_params_from dep parents (get_dependencies (heap dep)).

(** Lines 90-95: the loop over the parameters of an expanded node. *)
Fixpoint expand (dep : Dependant) (params : list DependencyParameter) (st : State) : State :=
  match params with
  | [] => st
  | param :: rest =>
      let predecessor_dep := dependency param in
      let dag_dep := match dict_get dep (dep_dag st) with Some l => l | None => [] end in
      expand dep rest
        {| dependants := dependants st;
           dep_dag := dict_set dep (dag_dep ++ [predecessor_dep]) (dep_dag st);
           param_graph := param_graph st;
           parents := dict_set predecessor_dep dep (parents st);
           q := if set_in predecessor_dep (seen st) then q st else predecessor_dep :: q st;
           seen := seen st |}
  end.

(** Lines 70-95: the work-queue loop, one iteration per unit of fuel. *)
Fixpoint build_graph (fuel : nat) (st : State) : Outcome * State :=
  match q st with
  | [] => (Finished, st)
  | dep :: q' =>
      match fuel with
      | 0 => (OutOfFuel, st)
      | S fuel' =>
          let seen' := set_add dep (seen st) in
          match dict_get (cache_key (heap dep)) (dependants st) with
          | Some other =>
              let st' := {| dependants := dependants st; dep_dag := dep_dag st;
                            param_graph := param_graph st; parents := parents st;
                            q := q'; seen := seen' |} in
              if Scope_eqb (scope (heap other)) (scope (heap dep))
              then build_graph fuel' st'
              else
                match get_path dep (parents st) with
                | Some path =>
                    (Raised (SolvingError (call (heap dep)) (scope (heap dep))
                               (scope (heap other)) path), st')
                | None => (Hangs, st')
                end
          | None =>
              let dependants' := dict_set (cache_key (heap dep)) dep (dependants st) in
              match get_params dep (parents st) with
              | inl raised =>
                  (match raised with Some e => Raised e | None => Hangs end,
                   {| dependants := dependants'; dep_dag := dep_dag st;
                      param_graph := param_graph st; parents := parents st;
                      q := q'; seen := seen' |})
              | inr params =>
                  build_graph fuel'
                    (expand dep params
                       {| dependants := dependants';
                          dep_dag := dict_set dep [] (dep_dag st);
                          param_graph := dict_set dep params (param_graph st);
                          parents := parents st;
                          q := q'; seen := seen' |})
              end
          end
      end
  end.

Definition initial (dependency : Dependant) : State :=
  {| dependants := []; dep_dag := []; param_graph := []; parents := [];
     q := [dependency]; seen := [] |}.

(** Lines 98-102. *)
Definition has_call (d : Dependant) : bool :=
  match call (heap d) with Some _ => true | None => false end.

Definition computable_param_graph (param_graph : list (Dependant * list DependencyParameter))
  : list (Dependant * list DependencyParameter) :=
  map (fun '(dep, params) => (dep, filter (fun param => has_call (dependency param)) params))
      (filter (fun '(dep, _) => has_call dep) param_graph).

(** Lines 108-111: the graph handed to the first sorter. *)
Definition key_graph (computable : list (Dependant * list DependencyParameter))
  : list (CacheKey * list CacheKey) :=
  fold_left
    (fun g '(dep, params) =>
       dict_set (cache_key (heap dep)) (map (fun p => cache_key (heap (dependency p))) params) g)
    computable [].
End Solving.

(** ** The topological sorter ([graphlib2.TopologicalSorter])

    graphlib2 is a reimplementation of the standard library's [graphlib];
    the model follows the reference implementation: a table of node
    records with a predecessor counter and a successor list, a depth-first
    search for cycles in [prepare], and the [get_ready]/[done] protocol
    behind [static_order].  A sorter that has not been prepared is the
    table alone, so the calls that graphlib rejects out of sequence
    cannot be written. *)
Module TopologicalSorter.

Definition NODE_OUT : Z := (-1)%Z.
Definition NODE_DONE : Z := (-2)%Z.

Record NodeInfo := {
  npredecessors : Z;
  successors : list nat
}.

Definition t := list (nat * NodeInfo).

Record Prepared := {
  node2info : t;
  ready_nodes : list nat;
  npassedout : nat;
  nfinished : nat
}.

Definition empty : t := [].

Definition get_nodeinfo (node : nat) (n2i : t) : t :=
  match dict_get node n2i with
  | Some _ => n2i
  | None => dict_set node {| npredecessors := 0; successors := [] |} n2i
  end.

Fixpoint alter (f : NodeInfo -> NodeInfo) (node : nat) (n2i : t) : t :=
  match n2i with
  | [] => []
  | (n, info) :: rest =>
      if node =? n then (n, f info) :: rest else (n, info) :: alter f node rest
  end.

Definition push_successor (node : nat) (i : NodeInfo) : NodeInfo :=
  {| npredecessors := npredecessors i; successors := successors i ++ [node] |}.

Definition more_predecessors (n : nat) (i : NodeInfo) : NodeInfo :=
  {| npredecessors := npredecessors i + Z.of_nat n; successors := successors i |}.

Definition add_successor (node : nat) (n2i : t) (pred : nat) : t :=
  alter (push_successor node) pred (get_nodeinfo pred n2i).

Definition add (ts : t) (node : nat) (predecessors : list nat) : t :=
  fold_left (add_successor node) predecessors
    (alter (more_predecessors (List.length predecessors)) node (get_nodeinfo node ts)).

(** [TopologicalSorter(graph)]. *)
Definition of_graph (graph : list (nat * list nat)) : t :=
  fold_left (fun ts '(node, predecessors) => add ts node predecessors) graph empty.

Definition successors_of (n2i : t) (node : nat) : list nat :=
  match dict_get node n2i with
  | Some info => successors info
  | None => []
  end.

Definition counter_of (n2i : t) (node : nat) : Z :=
  match dict_get node n2i with
  | Some info => npredecessors info
  | None => 0%Z
  end.

(** [stack[node2stacki[node]:]]. *)
Fixpoint stack_from (node : nat) (stack : list nat) : list nat :=
  match stack with
  | [] => []
  | n :: rest => if node =? n then stack else stack_from node rest
  end.

(** [_find_cycle]: the search over the successor lists.  [dfs fuel stack
    seen nodes] visits [nodes] in turn below the path [stack]; the result
    is [inl seen'] when no node closes a cycle and [inr cycle] otherwise.
    The explicit iterator stack of the source is the recursion here. *)
Fixpoint dfs (n2i : t) (fuel : nat) : list nat -> list nat -> list nat -> option (list nat + list nat) :=
  fix visit (stack seen nodes : list nat) {struct nodes} :=
    match nodes with
    | [] => Some (inl seen)
    | node :: rest =>
        let r :=
          if set_in node seen then
            if set_in node stack
            then Some (inr (stack_from node stack ++ [node]))
            else Some (inl seen)
          else
            match fuel with
            | 0 => None
            | S fuel' =>
                dfs n2i fuel' (stack ++ [node]) (set_add node seen) (successors_of n2i node)
            end in
        match r with
        | Some (inl seen') => visit stack seen' rest
        | _ => r
        end
    end.

Definition find_cycle (n2i : t) : option (list nat) :=
  match dfs n2i (List.length n2i) [] [] (keys n2i) with
  | Some (inr cycle) => Some cycle
  | _ => None
  end.

Definition prepare (ts : t) : Exception + Prepared :=
  let ready := keys (filter (fun '(_, i) => (npredecessors i =? 0)%Z) ts) in
  match find_cycle ts with
  | Some cycle => inl (CycleError cycle)
  | None => inr {| node2info := ts; ready_nodes := ready; npassedout := 0; nfinished := 0 |}
  end.

Definition set_counter (c : Z) : NodeInfo -> NodeInfo :=
  fun i => {| npredecessors := c; successors := successors i |}.

Definition mark (c : Z) (nodes : list nat) (n2i : t) : t :=
  fold_left (fun n2i node => alter (set_counter c) node n2i) nodes n2i.

Definition get_ready (p : Prepared) : list nat * Prepared :=
  let result := ready_nodes p in
  (result,
   {| node2info := mark NODE_OUT result (node2info p);
      ready_nodes := [];
      npassedout := npassedout p + List.length result;
      nfinished := nfinished p |}).

Definition is_active (p : Prepared) : bool :=
  (nfinished p <? npassedout p) || negb (match ready_nodes p with [] => true | _ => false end).

(** The inner loop of [done]: one successor of a finished node. *)
Definition release (p : Prepared) (successor : nat) : Prepared :=
  let n2i := alter (fun i => set_counter (npredecessors i - 1) i) successor (node2info p) in
  {| node2info := n2i;
     ready_nodes := if (counter_of n2i successor =? 0)%Z
                    then ready_nodes p ++ [successor] else ready_nodes p;
     npassedout := npassedout p;
     nfinished := nfinished p |}.

Definition done1 (p : Prepared) (node : nat) : Prepared :=
  let succs := successors_of (node2info p) node in
  let p' := fold_left release succs
              {| node2info := alter (set_counter NODE_DONE) node (node2info p);
                 ready_nodes := ready_nodes p;
                 npassedout := npassedout p;
                 nfinished := nfinished p |} in
  {| node2info := node2info p'; ready_nodes := ready_nodes p';
     npassedout := npassedout p'; nfinished := S (nfinished p') |}.

Definition done (p : Prepared) (nodes : list nat) : Prepared :=
  fold_left done1 nodes p.

(** The loop of [static_order]; every round hands out at least one node,
    so as many rounds as there are nodes exhaust the sorter. *)
Fixpoint static_order_loop (fuel : nat) (p : Prepared) : list nat :=
  match fuel with
  | 0 => []
  | S fuel' =>
      if is_active p then
        let '(node_group, p1) := get_ready p in
        node_group ++ static_order_loop fuel' (done p1 node_group)
      else []
  end.

Definition static_order (ts : t) : Exception + list nat :=
  match prepare ts with
  | inl e => inl e
  | inr p => inr (static_order_loop (List.length ts) p)
  end.

End TopologicalSorter.

(** ** Tasks ([di._utils.task]) and the solved plan *)

(** A task holds its parameter tasks themselves.  Task objects are compared
    by identity, and [task_id] is given to one task only, so the sorter of
    tasks is keyed by [task_id]. *)
Module Task.
#[local] Unset Elimination Schemes.
Inductive t := mk {
  scope : Scope;
  call : Call;
  use_cache : bool;
  cache_key : CacheKey;
  dependant : Dependant;
  task_id : nat;
  positional_parameters : list t;
  keyword_parameters : list (string * t)
}.
End Task.

Record SolvedDependantCache := {
  root_task : Task.t;
  topological_sorter : TopologicalSorter.Prepared;
  static_order : list Task.t;
  empty_results : list (option Value)
}.

Record SolvedDependant := {
  solved_dependency : Dependant;
  dag : list (Dependant * list DependencyParameter);
  container_cache : SolvedDependantCache
}.

(** What a call gives: a value, an exception, or no answer ([Diverge]: the
    loop of the model ran out of fuel, or the path of an error is never
    computed). *)
Inductive Result (A : Type) :=
| Return (a : A)
| Raise (e : Exception)
| Diverge.
Arguments Return {A} a.
Arguments Raise {A} e.
Arguments Diverge {A}.

Definition task_with_id (tasks : list (CacheKey * Task.t)) (id : nat) : option Task.t :=
  find (fun task => Task.task_id task =? id) (map snd tasks).

Fixpoint tasks_with_ids (tasks : list (CacheKey * Task.t)) (ids : list nat) : list Task.t :=
  match ids with
  | [] => []
  | id :: rest =>
      match task_with_id tasks id with
      | Some task => task :: tasks_with_ids tasks rest
      | None => tasks_with_ids tasks rest
      end
  end.

Fixpoint index_of (s : Scope) (scopes : list Scope) : option nat :=
  match scopes with
  | [] => None
  | s' :: rest =>
      if Scope_eqb s s' then Some 0
      else match index_of s rest with Some i => Some (S i) | None => None end
  end.

Section Compiling.
Variable heap : Heap.
Variable binds : list BindHook.

(** [build_tasks], lines 157-163. *)
Fixpoint collect_parameters (tasks : list (CacheKey * Task.t)) (params : list DependencyParameter)
    (positional : list Task.t) (keyword : list (string * Task.t))
  : Exception + (list Task.t * list (string * Task.t)) :=
  match params with
  | [] => inr (positional, keyword)
  | param :: rest =>
      match parameter param with
      | Some p =>
          match dict_get (cache_key (heap (dependency param))) tasks with
          | None => inl KeyError
          | Some task =>
              match kind p with
              | KEYWORD_ONLY =>
                  collect_parameters tasks rest positional (kw_set (name p) task keyword)
              | _ => collect_parameters tasks rest (positional ++ [task]) keyword
              end
          end
      | None => collect_parameters tasks rest positional keyword
      end
  end.

(** The generator of line 180. *)
Fixpoint predecessor_tasks (tasks : list (CacheKey * Task.t)) (params : list DependencyParameter)
  : Exception + list Task.t :=
  match params with
  | [] => inr []
  | p :: rest =>
      match dict_get (cache_key (heap (dependency p))) tasks with
      | None => inl KeyError
      | Some task =>
          match predecessor_tasks tasks rest with
          | inl e => inl e
          | inr l => inr (task :: l)
          end
      end
  end.

(** Lines 154-181.  An item [None] of [topsorted] is a step of the
    generator of line 124 at which [dependants[key]] fails. *)
Fixpoint build_tasks_loop (dag : list (Dependant * list DependencyParameter))
    (topsorted : list (option Dependant)) (ts : TopologicalSorter.t)
    (tasks : list (CacheKey * Task.t)) (task_id : nat)
  : Exception + (list (CacheKey * Task.t) * TopologicalSorter.t) :=
  match topsorted with
  | [] => inr (tasks, ts)
  | None :: _ => inl KeyError
  | Some dep :: rest =>
      match dict_get dep dag with
      | None => inl KeyError
      | Some params =>
          match collect_parameters tasks params [] [] with
          | inl e => inl e
          | inr (positional, keyword) =>
              match call (heap dep) with
              | None => inl AssertionError
              | Some c =>
                  let task :=
                    Task.mk (scope (heap dep)) c (use_cache (heap dep)) (cache_key (heap dep))
                            dep task_id positional keyword in
                  let tasks' := dict_set (cache_key (heap dep)) task tasks in
                  match predecessor_tasks tasks' params with
                  | inl e => inl e
                  | inr preds =>
                      build_tasks_loop dag rest
                        (TopologicalSorter.add ts (Task.task_id task) (map Task.task_id preds))
                        tasks' (S task_id)
                  end
              end
          end
      end
  end.

Definition build_tasks (dag : list (Dependant * list DependencyParameter))
    (topsorted : list (option Dependant)) (ts : TopologicalSorter.t)
  : Exception + (list (CacheKey * Task.t) * TopologicalSorter.t) :=
  build_tasks_loop dag topsorted ts [] 0.

(** Modelled from the spec: [validate_scopes] of
    [di/container/_scope_validation.py], which is not among the sources.
    [scopes] is the declared ordering, outermost first; for every edge of
    the dependency DAG the scope index of the dependency must not exceed
    that of the dependant, and the first edge that breaks this raises.
    The spec compares the indices of declared scopes only: an edge with a
    scope that is not in the ordering has no index to compare and is passed
    over here; [plan_returned_iff] below, which tells when a plan is
    returned, is stated for graphs whose scopes are all declared. *)
Fixpoint validate_edges (scopes : list Scope) (dep : Dependant) (deps : list Dependant)
  : option Exception :=
  match deps with
  | [] => None
  | p :: rest =>
      match index_of (scope (heap dep)) scopes, index_of (scope (heap p)) scopes with
      | Some i_dep, Some i_p =>
          if i_dep <? i_p
          then Some (ScopeViolationError dep p (scope (heap dep)) (scope (heap p)))
          else validate_edges scopes dep rest
      | _, _ => validate_edges scopes dep rest
      end
  end.

Fixpoint validate_scopes (scopes : list Scope) (dep_dag : list (Dependant * list Dependant))
    (parents : list (Dependant * Dependant)) : option Exception :=
  match dep_dag with
  | [] => None
  | (dep, deps) :: rest =>
      match validate_edges scopes dep deps with
      | Some e => Some e
      | None => validate_scopes scopes rest parents
      end
  end.

(** The stages of [solve]. *)
Definition solve_graph (fuel : nat) (dependency : Dependant) : Outcome * State :=
  build_graph heap binds fuel (initial (bind_root heap binds dependency)).

Definition solve_topsort (st : State) : Exception + list CacheKey :=
  TopologicalSorter.static_order
    (TopologicalSorter.of_graph
       (key_graph heap (computable_param_graph heap (param_graph st)))).

Definition solve_tasks (st : State) (dep_topsort : list CacheKey)
  : Exception + (list (CacheKey * Task.t) * TopologicalSorter.t) :=
  build_tasks (computable_param_graph heap (param_graph st))
              (map (fun key => dict_get key (dependants st)) dep_topsort)
              TopologicalSorter.empty.

(** Lines 96-134: from the graph to the container cache. *)
Definition compile (st : State) (dependency : Dependant) : Result SolvedDependantCache :=
  match solve_topsort st with
  | inl (CycleError cycle) =>
      match rev cycle with
      | dep :: _ => Raise (DependencyCycleError dep)
      | [] => Raise StopIteration
      end
  | inl e => Raise e
  | inr dep_topsort =>
      match solve_tasks st dep_topsort with
      | inl e => Raise e
      | inr (tasks, ts) =>
          match TopologicalSorter.static_order ts with
          | inl e => Raise e
          | inr order =>
              match TopologicalSorter.prepare ts with
              | inl e => Raise e
              | inr prepared =>
                  match dict_get (cache_key (heap dependency)) tasks with
                  | None => Raise KeyError
                  | Some root =>
                      Return {| root_task := root;
                                topological_sorter := prepared;
                                static_order := tasks_with_ids tasks order;
                                empty_results := repeat None (List.length tasks) |}
                  end
              end
          end
      end
  end.

(** Lines 18-141. *)
Definition solve (fuel : nat) (dependency : Dependant) (scopes : list Scope)
  : Result SolvedDependant :=
  let dependency := bind_root heap binds dependency in
  match build_graph heap binds fuel (initial dependency) with
  | (OutOfFuel, _) => Diverge
  | (Hangs, _) => Diverge
  | (Raised e, _) => Raise e
  | (Finished, st) =>
      match compile st dependency with
      | Diverge => Diverge
      | Raise e => Raise e
      | Return cache =>
          match validate_scopes scopes (dep_dag st) (parents st) with
          | Some e => Raise e
          | None =>
              Return {| solved_dependency := dependency;
                        dag := param_graph st;
                        container_cache := cache |}
          end
      end
  end.
End Compiling.

(** ** The execution engine ([Container.enter_scope], [Container.execute_sync])

    Modelled from the spec: the container and its executors are not among
    the sources.  The scope stack is a list of open scope instances,
    innermost first, each with the cache it owns.  Entering a scope opens
    an instance with an empty cache, leaving discards the innermost
    instance.  A sequential execution walks the static order of the plan
    once: the owning cache of a task is that of the open instance of the
    task's scope; a task that takes part in caching and whose key is in its
    owning cache reuses the value, any other task invokes its call on the
    results of its parameter tasks and, if it takes part in caching, stores
    the value in the owning cache.  The result recorded for the root task is
    the result of the execution.  The computation behind a call is a
    parameter of the engine; it may read and change a world, such as the
    state of a generator. *)
Module Engine.

Inductive RuntimeError :=
| UsageError
| CallFailure.

Record ScopeInstance := {
  instance_scope : Scope;
  instance_cache : list (CacheKey * Value)
}.

Definition ScopeStack := list ScopeInstance.

Definition enter_scope (declared : list Scope) (s : Scope) (stack : ScopeStack)
  : RuntimeError + ScopeStack :=
  match index_of s declared with
  | None => inl UsageError
  | Some _ => inr ({| instance_scope := s; instance_cache := [] |} :: stack)
  end.

Definition exit_scope (stack : ScopeStack) : RuntimeError + ScopeStack :=
  match stack with
  | [] => inl UsageError
  | _ :: outer => inr outer
  end.

Fixpoint owning_cache (s : Scope) (stack : ScopeStack) : option (list (CacheKey * Value)) :=
  match stack with
  | [] => None
  | i :: outer =>
      if Scope_eqb (instance_scope i) s then Some (instance_cache i)
      else owning_cache s outer
  end.

Fixpoint store (s : Scope) (key : CacheKey) (v : Value) (stack : ScopeStack) : ScopeStack :=
  match stack with
  | [] => []
  | i :: outer =>
      if Scope_eqb (instance_scope i) s
      then {| instance_scope := instance_scope i;
              instance_cache := dict_set key v (instance_cache i) |} :: outer
      else i :: store s key v outer
  end.

(** The results buffer has one slot per task, indexed by [task_id]. *)
Fixpoint set_result (id : nat) (v : Value) (results : list (option Value))
  : list (option Value) :=
  match results, id with
  | [], _ => []
  | _ :: rest, 0 => Some v :: rest
  | r :: rest, S id' => r :: set_result id' v rest
  end.

Definition get_result (id : nat) (results : list (option Value)) : option Value :=
  nth id results None.

Fixpoint positional_results (results : list (option Value)) (tasks : list Task.t)
  : option (list Value) :=
  match tasks with
  | [] => Some []
  | task :: rest =>
      match get_result (Task.task_id task) results, positional_results results rest with
      | Some v, Some vs => Some (v :: vs)
      | _, _ => None
      end
  end.

Fixpoint keyword_results (results : list (option Value)) (tasks : list (string * Task.t))
  : option (list (string * Value)) :=
  match tasks with
  | [] => Some []
  | (keyword, task) :: rest =>
      match get_result (Task.task_id task) results, keyword_results results rest with
      | Some v, Some vs => Some ((keyword, v) :: vs)
      | _, _ => None
      end
  end.

Section Executing.

Variable World : Type.
Variable invoke :
  Call -> list Value -> list (string * Value) -> World -> option (Value * World).

Record Execution := {
  results : list (option Value);
  stack : ScopeStack;
  world : World
}.

Definition execute_task (task : Task.t) (e : Execution) : RuntimeError + Execution :=
  match owning_cache (Task.scope task) (stack e) with
  | None => inl UsageError
  | Some cache =>
      match (if Task.use_cache task then dict_get (Task.cache_key task) cache else None) with
      | Some v =>
          inr {| results := set_result (Task.task_id task) v (results e);
                 stack := stack e;
                 world := world e |}
      | None =>
          match positional_results (results e) (Task.positional_parameters task),
                keyword_results (results e) (Task.keyword_parameters task) with
          | Some args, Some kwargs =>
              match invoke (Task.call task) args kwargs (world e) with
              | None => inl CallFailure
              | Some (v, w) =>
                  inr {| results := set_result (Task.task_id task) v (results e);
                         stack := if Task.use_cache task
                                  then store (Task.scope task) (Task.cache_key task) v (stack e)
                                  else stack e;
                         world := w |}
              end
          | _, _ => inl UsageError
          end
      end
  end.

Fixpoint execute_tasks (order : list Task.t) (e : Execution) : RuntimeError + Execution :=
  match order with
  | [] => inr e
  | task :: rest =>
      match execute_task task e with
      | inl err => inl err
      | inr e' => execute_tasks rest e'
      end
  end.

Definition execute_sync (solved : SolvedDependant) (open : ScopeStack) (w : World)
  : RuntimeError + (Value * ScopeStack * World) :=
  let plan := container_cache solved in
  match execute_tasks (static_order plan)
                      {| results := empty_results plan; stack := open; world := w |} with
  | inl err => inl err
  | inr e =>
      match get_result (Task.task_id (root_task plan)) (results e) with
      | Some v => inr (v, stack e, world e)
      | None => inl UsageError
      end
  end.

End Executing.
End Engine.

(** ** The cache rules ([tests/test_caching_rules.py]) *)
Module test_caching_rules.

(** [dep] and [root_dep], the functions of the test.  The world is the state
    of the generator [value_gen]: the number it yields next. *)
Definition root_dep : Call := 0.
Definition dep : Call := 1.

Definition invoke (c : Call) (args : list Value) (kwargs : list (string * Value))
                  (counter : nat) : option (Value * nat) :=
  if c =? dep then
    match args, kwargs with
    | [], [] => Some (VInt counter, S counter)
    | _, _ => None
    end
  else if c =? root_dep then
    match args, kwargs with
    | [VInt v1; VInt v2], [] => Some (VSet (set_add v2 (set_add v1 [])), counter)
    | _, _ => None
    end
  else None.

Section multiple_deps.

Variables dep1_use_cache dep2_use_cache : bool.
Variable dep_scope : Scope.
(** Modelled from the spec: the property [cache_key] of a dependant is not
    among the sources; the keys of the three dependants of the test are
    parameters of the scenario. *)
Variables root_key dep1_key dep2_key : CacheKey.

Definition annotated (n : string) (d : Dependant) : DependencyParameter :=
  {| dependency := d;
     parameter := Some {| name := n; kind := POSITIONAL_OR_KEYWORD; default := None |} |}.

(** Object 0 is [Dependant(root_dep)], objects 1 and 2 are the markers of
    its parameters [v1] and [v2]. *)
Definition heap : Heap := fun d =>
  match d with
  | 0 => {| call := Some root_dep; scope := None; use_cache := true;
            cache_key := root_key;
            get_dependencies := [annotated "v1" 1; annotated "v2" 2]; truthy := true |}
  | 1 => {| call := Some dep; scope := dep_scope; use_cache := dep1_use_cache;
            cache_key := dep1_key; get_dependencies := []; truthy := true |}
  | _ => {| call := Some dep; scope := dep_scope; use_cache := dep2_use_cache;
            cache_key := dep2_key; get_dependencies := []; truthy := true |}
  end.

Definition scopes : list Scope := [Some "scope"%string; None].

Inductive Failure :=
| SolveFailure (r : Result SolvedDependant)
| RunFailure (e : Engine.RuntimeError).

Definition run {A : Type} (r : Engine.RuntimeError + A) : Failure + A :=
  match r with
  | inl e => inl (RunFailure e)
  | inr a => inr a
  end.

Definition bind {A B : Type} (r : Failure + A) (f : A -> Failure + B) : Failure + B :=
  match r with
  | inl e => inl e
  | inr a => f a
  end.

(** Lines 96-105: the plan is solved once and executed twice, each time in
    an execution scope of its own inside one instance of ["scope"]. *)
Definition test_cache_rules_multiple_deps : Failure + (Value * Value) :=
  match solve heap [] 4 0 scopes with
  | Return solved =>
      bind (run (Engine.enter_scope scopes (Some "scope"%string) [])) (fun outer =>
      bind (run (Engine.enter_scope scopes None outer)) (fun inner =>
      bind (run (Engine.execute_sync invoke solved inner 0)) (fun '(v1, inner, gen) =>
      bind (run (Engine.exit_scope inner)) (fun outer =>
      bind (run (Engine.enter_scope scopes None outer)) (fun inner =>
      bind (run (Engine.execute_sync invoke solved inner gen)) (fun '(v2, _, _) =>
      inr (v1, v2)))))))
  | r => inl (SolveFailure r)
  end.

End multiple_deps.
End test_caching_rules.

Unset Implicit Arguments.

(** * Properties *)

(** ** Dicts and sets *)

Ltac eqb_cases :=
  repeat match goal with
  | |- context [?a =? ?b] => destruct (Nat.eqb_spec a b); subst
  | H : context [?a =? ?b] |- _ => destruct (Nat.eqb_spec a b); subst
  end.

Section DictFacts.
Context {V : Type}.
Implicit Types (d : list (nat * V)) (k : nat) (v : V).

Lemma dict_get_set_eq d k v : dict_get k (dict_set k v d) = Some v.
Proof.
  induction d as [|[k' v'] d IH]; simpl.
  - now rewrite Nat.eqb_refl.
  - destruct (Nat.eqb_spec k k'); simpl.
    + now rewrite Nat.eqb_refl.
    + destruct (Nat.eqb_spec k k'); [contradiction | exact IH].
Qed.

Lemma dict_get_set_ne d k k' v : k <> k' -> dict_get k' (dict_set k v d) = dict_get k' d.
Proof.
  intros Hne. induction d as [|[k0 v0] d IH]; simpl.
  - destruct (Nat.eqb_spec k' k); [congruence | reflexivity].
  - destruct (Nat.eqb_spec k k0); simpl; subst.
    + destruct (Nat.eqb_spec k' k0); [congruence | reflexivity].
    + destruct (Nat.eqb_spec k' k0); [reflexivity | exact IH].
Qed.

Lemma dict_get_In d k v : dict_get k d = Some v -> In (k, v) d.
Proof.
  induction d as [|[k' v'] d IH]; simpl; [discriminate|].
  destruct (Nat.eqb_spec k k'); subst.
  - intros [= ->]. now left.
  - intros H. right. now apply IH.
Qed.

Lemma dict_get_None d k : dict_get k d = None <-> ~ In k (keys d).
Proof.
  induction d as [|[k' v'] d IH]; simpl.
  - tauto.
  - destruct (Nat.eqb_spec k k'); subst.
    + split; [discriminate | intros H; exfalso; apply H; now left].
    + rewrite IH. split; intros H; [intros [?|?]; [congruence | tauto] | tauto].
Qed.

Lemma dict_get_Some_keys d k v : dict_get k d = Some v -> In k (keys d).
Proof.
  intros H. apply dict_get_In in H. unfold keys. now apply (in_map fst) in H.
Qed.

Lemma In_keys_dict_get d k : In k (keys d) -> exists v, dict_get k d = Some v.
Proof.
  intros H. destruct (dict_get k d) eqn:E; [eauto|].
  apply dict_get_None in E. contradiction.
Qed.

Lemma In_dict_get d k v : NoDup (keys d) -> In (k, v) d -> dict_get k d = Some v.
Proof.
  induction d as [|[k' v'] d IH]; simpl; [tauto|].
  intros Hnd [H|H].
  - injection H as -> ->. now rewrite Nat.eqb_refl.
  - inversion Hnd as [|? ? Hnotin Hnd']; subst.
    destruct (Nat.eqb_spec k k'); subst.
    + exfalso. apply Hnotin. now apply (in_map fst) in H.
    + now apply IH.
Qed.

Lemma keys_dict_set d k v :
  keys (dict_set k v d) = if dict_mem k d then keys d else keys d ++ [k].
Proof.
  unfold dict_mem. induction d as [|[k' v'] d IH]; simpl; [reflexivity|].
  destruct (Nat.eqb_spec k k'); subst; simpl; [reflexivity|].
  rewrite IH. now destruct (dict_get k d).
Qed.

Lemma In_keys_dict_set d k v x : In x (keys (dict_set k v d)) <-> x = k \/ In x (keys d).
Proof.
  rewrite keys_dict_set. unfold dict_mem.
  destruct (dict_get k d) eqn:E.
  - apply dict_get_Some_keys in E. split; [tauto | intros [->|]; tauto].
  - rewrite in_app_iff. simpl. split; intros; intuition.
Qed.

Lemma NoDup_keys_dict_set d k v : NoDup (keys d) -> NoDup (keys (dict_set k v d)).
Proof.
  intros Hnd. rewrite keys_dict_set. unfold dict_mem.
  destruct (dict_get k d) eqn:E; [exact Hnd|].
  apply dict_get_None in E.
  apply NoDup_app; [exact Hnd | repeat constructor; simpl; tauto |].
  intros x Hx [<-|[]]. contradiction.
Qed.

Lemma dict_set_fresh d k v : dict_get k d = None -> dict_set k v d = d ++ [(k, v)].
Proof.
  induction d as [|[k' v'] d IH]; simpl; [reflexivity|].
  destruct (Nat.eqb_spec k k'); [discriminate|].
  intros H. now rewrite IH.
Qed.
End DictFacts.

Lemma set_in_In x s : set_in x s = true <-> In x s.
Proof.
  unfold set_in. rewrite existsb_exists. split.
  - intros (y & Hy & E). apply Nat.eqb_eq in E. now subst.
  - intros H. exists x. split; [exact H | apply Nat.eqb_refl].
Qed.

Lemma set_in_false x s : set_in x s = false <-> ~ In x s.
Proof.
  rewrite <- set_in_In. destruct (set_in x s); split; congruence.
Qed.

Lemma In_set_add x y s : In x (set_add y s) <-> x = y \/ In x s.
Proof.
  unfold set_add. destruct (set_in y s) eqn:E.
  - apply set_in_In in E. split; [tauto | intros [->|]; tauto].
  - rewrite in_app_iff. simpl. intuition.
Qed.

Lemma NoDup_set_add y s : NoDup s -> NoDup (set_add y s).
Proof.
  intros Hnd. unfold set_add. destruct (set_in y s) eqn:E; [exact Hnd|].
  apply set_in_false in E.
  apply NoDup_app; [exact Hnd | repeat constructor; simpl; tauto |].
  intros x Hx [<-|[]]. contradiction.
Qed.

(** ** The sorter: the graph it holds *)

Module TopologicalSorterFacts.
Import TopologicalSorter.

(** [edge ts x y]: [x] was given as a predecessor of [y]. *)
Definition edge (ts : t) (x y : nat) : Prop := In y (successors_of ts x).

Definition indegree (ts : t) (n : nat) : nat :=
  list_sum (map (fun e => count_occ Nat.eq_dec (successors (snd e)) n) ts).

(** The table of a sorter built by [add] alone: one record per node, the
    successors are nodes, and the counter of a node is the number of times it
    occurs in the successor lists. *)
Record wf (ts : t) : Prop := {
  wf_nodup : NoDup (keys ts);
  wf_closed : forall x y, edge ts x y -> In y (keys ts);
  wf_counter : forall n, In n (keys ts) -> counter_of ts n = Z.of_nat (indegree ts n)
}.

Lemma edge_source ts x y : edge ts x y -> In x (keys ts).
Proof.
  unfold edge, successors_of. destruct (dict_get x ts) eqn:E; [|contradiction].
  intros _. eapply dict_get_Some_keys; eauto.
Qed.

Lemma keys_alter f x ts : keys (alter f x ts) = keys ts.
Proof.
  induction ts as [|[n i] ts IH]; simpl; [reflexivity|].
  destruct (Nat.eqb_spec x n); simpl; [reflexivity | now rewrite IH].
Qed.

Lemma dict_get_alter f x ts y :
  dict_get y (alter f x ts) =
  if x =? y then option_map f (dict_get y ts) else dict_get y ts.
Proof.
  induction ts as [|[n i] ts IH]; simpl.
  - now destruct (x =? y).
  - destruct (Nat.eqb_spec x n); subst; simpl.
    + destruct (Nat.eqb_spec y n); subst.
      * now rewrite Nat.eqb_refl.
      * destruct (Nat.eqb_spec n y); [congruence | reflexivity].
    + destruct (Nat.eqb_spec y n); subst.
      * destruct (Nat.eqb_spec x n); [congruence | reflexivity].
      * exact IH.
Qed.

Lemma successors_of_alter f x ts y :
  (forall i, successors (f i) = successors i) ->
  successors_of (alter f x ts) y = successors_of ts y.
Proof.
  intros Hf. unfold successors_of. rewrite dict_get_alter.
  destruct (x =? y); [|reflexivity].
  destruct (dict_get y ts); simpl; [apply Hf | reflexivity].
Qed.

Lemma counter_of_alter f x ts y :
  counter_of (alter f x ts) y =
  if x =? y
  then match dict_get y ts with Some i => npredecessors (f i) | None => 0%Z end
  else counter_of ts y.
Proof.
  unfold counter_of. rewrite dict_get_alter.
  destruct (x =? y); [|reflexivity]. now destruct (dict_get y ts).
Qed.

Lemma indegree_alter f x ts n :
  (forall i, successors (f i) = successors i) ->
  indegree (alter f x ts) n = indegree ts n.
Proof.
  intros Hf. unfold indegree. induction ts as [|[k i] ts IH]; simpl; [reflexivity|].
  destruct (x =? k); simpl; [now rewrite Hf | now rewrite IH].
Qed.

Lemma indegree_app ts ts' n : indegree (ts ++ ts') n = indegree ts n + indegree ts' n.
Proof. unfold indegree. now rewrite map_app, list_sum_app. Qed.

Lemma count_occ_snoc (l : list nat) a n :
  count_occ Nat.eq_dec (l ++ [a]) n = count_occ Nat.eq_dec l n + (if a =? n then 1 else 0).
Proof.
  rewrite count_occ_app. simpl.
  destruct (Nat.eq_dec a n), (Nat.eqb_spec a n); congruence.
Qed.

Lemma indegree_push node x ts n :
  In x (keys ts) ->
  indegree (alter (push_successor node) x ts) n =
  indegree ts n + (if node =? n then 1 else 0).
Proof.
  unfold indegree. induction ts as [|[k i] ts IH]; simpl; [tauto|].
  destruct (Nat.eqb_spec x k); subst; simpl.
  - intros _. rewrite count_occ_snoc. lia.
  - intros [?|H]; [congruence|]. rewrite (IH H). lia.
Qed.

Lemma get_nodeinfo_keys node ts x :
  In x (keys (get_nodeinfo node ts)) <-> x = node \/ In x (keys ts).
Proof.
  unfold get_nodeinfo. destruct (dict_get node ts) eqn:E.
  - apply dict_get_Some_keys in E. split; [tauto | intros [->|]; tauto].
  - apply In_keys_dict_set.
Qed.

Lemma get_nodeinfo_eq node ts :
  get_nodeinfo node ts = ts /\ In node (keys ts) \/
  get_nodeinfo node ts = ts ++ [(node, {| npredecessors := 0; successors := [] |})] /\
  ~ In node (keys ts).
Proof.
  unfold get_nodeinfo. destruct (dict_get node ts) eqn:E.
  - left. split; [reflexivity|]. eapply dict_get_Some_keys; eauto.
  - right. split; [now apply dict_set_fresh | now apply dict_get_None].
Qed.

Lemma dict_get_app_None {V} (d d' : list (nat * V)) k :
  dict_get k (d ++ d') = match dict_get k d with Some v => Some v | None => dict_get k d' end.
Proof.
  induction d as [|[k' v'] d IH]; simpl; [reflexivity|].
  now destruct (k =? k').
Qed.

Lemma get_nodeinfo_successors node ts x :
  successors_of (get_nodeinfo node ts) x = successors_of ts x.
Proof.
  destruct (get_nodeinfo_eq node ts) as [[-> _]|[-> Hn]]; [reflexivity|].
  unfold successors_of. rewrite dict_get_app_None.
  destruct (dict_get x ts); [reflexivity|]. simpl. now destruct (x =? node).
Qed.

Lemma get_nodeinfo_counter node ts x :
  counter_of (get_nodeinfo node ts) x = counter_of ts x.
Proof.
  destruct (get_nodeinfo_eq node ts) as [[-> _]|[-> Hn]]; [reflexivity|].
  unfold counter_of. rewrite dict_get_app_None.
  destruct (dict_get x ts); [reflexivity|]. simpl. now destruct (x =? node).
Qed.

Lemma get_nodeinfo_indegree node ts n :
  indegree (get_nodeinfo node ts) n = indegree ts n.
Proof.
  destruct (get_nodeinfo_eq node ts) as [[-> _]|[-> Hn]]; [reflexivity|].
  rewrite indegree_app. unfold indegree at 2. simpl. lia.
Qed.

Lemma get_nodeinfo_nodup node ts : NoDup (keys ts) -> NoDup (keys (get_nodeinfo node ts)).
Proof.
  unfold get_nodeinfo. destruct (dict_get node ts); [tauto|]. apply NoDup_keys_dict_set.
Qed.

(** The table while [add node predecessors] still has [r] predecessors to
    record. *)
Record adding (node : nat) (r : nat) (ts : t) : Prop := {
  adding_nodup : NoDup (keys ts);
  adding_node : In node (keys ts);
  adding_closed : forall x y, edge ts x y -> In y (keys ts);
  adding_counter : forall n, In n (keys ts) ->
    counter_of ts n = Z.of_nat (indegree ts n + (if node =? n then r else 0))
}.

Lemma successors_of_push node pred ts x :
  In pred (keys ts) ->
  successors_of (alter (push_successor node) pred ts) x =
  successors_of ts x ++ (if pred =? x then [node] else []).
Proof.
  intros Hin. unfold successors_of. rewrite dict_get_alter.
  destruct (Nat.eqb_spec pred x); subst.
  - destruct (In_keys_dict_get _ _ Hin) as [i ->]. reflexivity.
  - now rewrite app_nil_r.
Qed.

Lemma add_successor_keys node ts pred x :
  In x (keys (add_successor node ts pred)) <-> x = pred \/ In x (keys ts).
Proof. unfold add_successor. rewrite keys_alter. apply get_nodeinfo_keys. Qed.

Lemma add_successor_successors node ts pred x :
  successors_of (add_successor node ts pred) x =
  successors_of ts x ++ (if pred =? x then [node] else []).
Proof.
  unfold add_successor. rewrite successors_of_push.
  - now rewrite get_nodeinfo_successors.
  - apply get_nodeinfo_keys. now left.
Qed.

Lemma counter_of_alter_same f x ts y :
  (forall i, npredecessors (f i) = npredecessors i) ->
  counter_of (alter f x ts) y = counter_of ts y.
Proof.
  intros Hf. rewrite counter_of_alter. destruct (x =? y); [|reflexivity].
  unfold counter_of. destruct (dict_get y ts); [apply Hf | reflexivity].
Qed.

Lemma indegree_outside ts n :
  NoDup (keys ts) -> (forall x y, edge ts x y -> In y (keys ts)) ->
  ~ In n (keys ts) -> indegree ts n = 0.
Proof.
  intros Hnd Hcl Hn.
  assert (H : forall k i, In (k, i) ts -> count_occ Nat.eq_dec (successors i) n = 0).
  { intros k i Hki. apply count_occ_not_In. intros Hin. apply Hn.
    apply (Hcl k). unfold edge, successors_of. now rewrite (In_dict_get _ _ _ Hnd Hki). }
  unfold indegree. clear Hnd Hcl Hn.
  induction ts as [|[k i] ts IH]; simpl; [reflexivity|].
  rewrite (H k i) by now left. apply IH. intros k' i' Hin. apply (H k' i'). now right.
Qed.

Lemma add_successor_adding node r ts pred :
  adding node (S r) ts -> adding node r (add_successor node ts pred).
Proof.
  intros [Hnd Hnode Hcl Hc]. split.
  - unfold add_successor. rewrite keys_alter. now apply get_nodeinfo_nodup.
  - apply add_successor_keys. now right.
  - intros x y. unfold edge. rewrite add_successor_successors, in_app_iff.
    intros [H|H]; apply add_successor_keys.
    + right. eapply Hcl; eauto.
    + destruct (pred =? x); [|contradiction]. destruct H as [<-|[]]. now right.
  - intros n Hn. unfold add_successor.
    rewrite counter_of_alter_same by reflexivity.
    rewrite indegree_push by (apply get_nodeinfo_keys; now left).
    rewrite get_nodeinfo_indegree, get_nodeinfo_counter.
    destruct (in_dec Nat.eq_dec n (keys ts)) as [Hin|Hout].
    + rewrite (Hc n Hin). destruct (node =? n); f_equal; lia.
    + rewrite (indegree_outside ts n Hnd Hcl Hout).
      unfold counter_of. apply dict_get_None in Hout. rewrite Hout.
      destruct (Nat.eqb_spec node n); [subst; apply dict_get_None in Hout; contradiction|].
      reflexivity.
Qed.

Lemma fold_add_successor_adding node preds ts :
  adding node (List.length preds) ts ->
  adding node 0 (fold_left (add_successor node) preds ts).
Proof.
  revert ts. induction preds as [|p preds IH]; intros ts H; simpl; [exact H|].
  apply IH. now apply add_successor_adding.
Qed.

Lemma fold_add_successor_keys node preds ts x :
  In x (keys (fold_left (add_successor node) preds ts)) <-> In x preds \/ In x (keys ts).
Proof.
  revert ts. induction preds as [|p preds IH]; intros ts; simpl; [tauto|].
  rewrite IH, add_successor_keys. intuition.
Qed.

Lemma fold_add_successor_edge node preds ts x y :
  In y (successors_of (fold_left (add_successor node) preds ts) x) <->
  In y (successors_of ts x) \/ (In x preds /\ y = node).
Proof.
  revert ts. induction preds as [|p preds IH]; intros ts; simpl; [tauto|].
  rewrite IH, add_successor_successors, in_app_iff.
  destruct (Nat.eqb_spec p x); subst; simpl; intuition.
Qed.

Lemma add_wf ts node preds : wf ts -> wf (add ts node preds).
Proof.
  intros [Hnd Hcl Hc].
  assert (Ha : adding node 0 (add ts node preds)).
  { apply fold_add_successor_adding. split.
    - rewrite keys_alter. now apply get_nodeinfo_nodup.
    - rewrite keys_alter. apply get_nodeinfo_keys. now left.
    - intros x y. unfold edge.
      rewrite successors_of_alter, get_nodeinfo_successors by reflexivity.
      intros H. rewrite keys_alter. apply get_nodeinfo_keys. right. eapply Hcl; eauto.
    - intros n Hn. rewrite keys_alter in Hn.
      rewrite indegree_alter, get_nodeinfo_indegree by reflexivity.
      rewrite counter_of_alter.
      assert (Hbase : counter_of (get_nodeinfo node ts) n = Z.of_nat (indegree ts n)).
      { rewrite get_nodeinfo_counter. apply get_nodeinfo_keys in Hn.
        destruct (in_dec Nat.eq_dec n (keys ts)) as [Hin|Hout]; [now apply Hc|].
        rewrite (indegree_outside ts n Hnd Hcl Hout).
        unfold counter_of. apply dict_get_None in Hout. now rewrite Hout. }
      destruct (Nat.eqb_spec node n); subst.
      + destruct (In_keys_dict_get _ _ Hn) as [i Hi]. rewrite Hi. simpl.
        unfold counter_of in Hbase. rewrite Hi in Hbase. rewrite Hbase. lia.
      + rewrite Hbase. f_equal. lia. }
  destruct Ha as [Hnd' _ Hcl' Hc']. split; auto.
  intros n Hn. rewrite (Hc' n Hn). f_equal. destruct (node =? n); lia.
Qed.

Lemma add_keys ts node preds x :
  In x (keys (add ts node preds)) <-> x = node \/ In x preds \/ In x (keys ts).
Proof.
  unfold add. rewrite fold_add_successor_keys, keys_alter, get_nodeinfo_keys. tauto.
Qed.

Lemma add_edge ts node preds x y :
  edge (add ts node preds) x y <-> edge ts x y \/ (In x preds /\ y = node).
Proof.
  unfold edge, add. rewrite fold_add_successor_edge.
  now rewrite successors_of_alter, get_nodeinfo_successors by reflexivity.
Qed.

Lemma empty_wf : wf empty.
Proof.
  split; simpl.
  - constructor.
  - intros x y [].
  - intros n [].
Qed.

Definition graph_nodes (graph : list (nat * list nat)) (x : nat) : Prop :=
  exists node preds, In (node, preds) graph /\ (x = node \/ In x preds).

Definition graph_edge (graph : list (nat * list nat)) (x y : nat) : Prop :=
  exists preds, In (y, preds) graph /\ In x preds.

Lemma of_graph_from graph ts :
  wf ts ->
  let ts' := fold_left (fun ts '(node, predecessors) => add ts node predecessors) graph ts in
  wf ts' /\
  (forall x, In x (keys ts') <-> In x (keys ts) \/ graph_nodes graph x) /\
  (forall x y, edge ts' x y <-> edge ts x y \/ graph_edge graph x y).
Proof.
  revert ts. induction graph as [|[node preds] graph IH]; intros ts Hwf; simpl.
  - split; [exact Hwf|]. split; intros.
    + split; [tauto | intros [H|(n & p & [] & _)]; exact H].
    + split; [tauto | intros [H|(p & [] & _)]; exact H].
  - destruct (IH (add ts node preds) (add_wf ts node preds Hwf)) as (Hwf' & Hk & He).
    split; [exact Hwf'|]. split.
    + intros x. rewrite Hk, add_keys. unfold graph_nodes. split.
      * intros [[H|[H|H]]|(n & p & Hin & H)].
        -- right. exists node, preds. split; [now left | now left].
        -- right. exists node, preds. split; [now left | now right].
        -- now left.
        -- right. exists n, p. split; [now right | exact H].
      * intros [H|(n & p & [Hin|Hin] & H)].
        -- left. tauto.
        -- injection Hin as <- <-. left. tauto.
        -- right. exists n, p. tauto.
    + intros x y. rewrite He, add_edge. unfold graph_edge. split.
      * intros [[H|[H ->]]|(p & Hin & H)].
        -- now left.
        -- right. exists preds. split; [now left | exact H].
        -- right. exists p. split; [now right | exact H].
      * intros [H|(p & [Hin|Hin] & H)].
        -- left. now left.
        -- injection Hin as <- <-. left. right. tauto.
        -- right. exists p. tauto.
Qed.

Lemma of_graph_wf graph : wf (of_graph graph).
Proof. apply (of_graph_from graph empty empty_wf). Qed.

Lemma of_graph_keys graph x : In x (keys (of_graph graph)) <-> graph_nodes graph x.
Proof.
  destruct (of_graph_from graph empty empty_wf) as (_ & H & _).
  unfold of_graph. rewrite H. simpl. tauto.
Qed.

Lemma of_graph_edge graph x y : edge (of_graph graph) x y <-> graph_edge graph x y.
Proof.
  destruct (of_graph_from graph empty empty_wf) as (_ & _ & H).
  unfold of_graph. rewrite H. unfold edge at 1. simpl. tauto.
Qed.

(** ** The sorter: the search for cycles *)

Definition acyclic (ts : t) : Prop := forall x, ~ clos_trans nat (edge ts) x x.

Lemma dfs_nil ts fuel stack seen : dfs ts fuel stack seen [] = Some (inl seen).
Proof. destruct fuel; reflexivity. Qed.

Lemma dfs_cons ts fuel stack seen node rest :
  dfs ts fuel stack seen (node :: rest) =
  let r :=
    if set_in node seen then
      if set_in node stack
      then Some (inr (stack_from node stack ++ [node]))
      else Some (inl seen)
    else
      match fuel with
      | 0 => None
      | S fuel' => dfs ts fuel' (stack ++ [node]) (set_add node seen) (successors_of ts node)
      end in
  match r with
  | Some (inl seen') => dfs ts fuel stack seen' rest
  | _ => r
  end.
Proof. destruct fuel; reflexivity. Qed.

(** [descends ts n rstack]: [rstack], read from its head, is a path of the
    search, innermost node first, and [n] is a successor of the innermost. *)
Fixpoint descends (ts : t) (n : nat) (rstack : list nat) : Prop :=
  match rstack with
  | [] => True
  | p :: rest => edge ts p n /\ descends ts p rest
  end.

Lemma descends_path ts n rstack a :
  descends ts n rstack -> In a rstack -> clos_trans nat (edge ts) a n.
Proof.
  revert n. induction rstack as [|p rest IH]; intros n; simpl; [tauto|].
  intros [He Hd] [->|Hin].
  - now apply t_step.
  - eapply t_trans; [apply (IH p Hd Hin) | now apply t_step].
Qed.

Definition unseen (ts : t) (seen : list nat) : nat :=
  List.length (filter (fun n => negb (set_in n seen)) (keys ts)).

Lemma filter_length_le {A} (f g : A -> bool) l :
  (forall x, In x l -> f x = true -> g x = true) ->
  List.length (filter f l) <= List.length (filter g l).
Proof.
  induction l as [|a l IH]; simpl; intros H; [lia|].
  assert (IH' := IH (fun x Hx => H x (or_intror Hx))).
  destruct (f a) eqn:Ef.
  - rewrite (H a (or_introl eq_refl) Ef). simpl. lia.
  - destruct (g a); simpl; lia.
Qed.

Lemma filter_length_lt {A} (f g : A -> bool) l a :
  (forall x, In x l -> f x = true -> g x = true) ->
  In a l -> f a = false -> g a = true ->
  List.length (filter f l) < List.length (filter g l).
Proof.
  induction l as [|b l IH]; simpl; intros H Hin Hf Hg; [contradiction|].
  assert (Hle := filter_length_le f g l (fun x Hx => H x (or_intror Hx))).
  destruct Hin as [->|Hin].
  - rewrite Hf, Hg. simpl. lia.
  - assert (IH' := IH (fun x Hx => H x (or_intror Hx)) Hin Hf Hg).
    destruct (f b) eqn:Ef.
    + rewrite (H b (or_introl eq_refl) Ef). simpl. lia.
    + destruct (g b); simpl; lia.
Qed.

Lemma unseen_mono ts seen seen' : incl seen seen' -> unseen ts seen' <= unseen ts seen.
Proof.
  intros Hincl. apply filter_length_le. intros x _ Hx.
  apply negb_true_iff in Hx. apply negb_true_iff.
  apply set_in_false in Hx. apply set_in_false. auto.
Qed.

Lemma unseen_add ts seen node :
  In node (keys ts) -> ~ In node seen -> unseen ts (set_add node seen) < unseen ts seen.
Proof.
  intros Hk Hn. apply filter_length_lt with (a := node); auto.
  - intros x _ Hx. apply negb_true_iff in Hx. apply negb_true_iff.
    apply set_in_false in Hx. apply set_in_false. rewrite In_set_add in Hx. tauto.
  - apply negb_false_iff. apply set_in_In. apply In_set_add. now left.
  - apply negb_true_iff. now apply set_in_false.
Qed.

Definition finished (stack seen : list nat) (f : nat) : Prop := In f seen /\ ~ In f stack.

(** Every node the search has left behind leads to such nodes only and lies
    on no cycle. *)
Definition settled (ts : t) (stack seen : list nat) : Prop :=
  forall f, finished stack seen f ->
    (forall y, edge ts f y -> finished stack seen y) /\ ~ clos_trans nat (edge ts) f f.

Lemma settled_reach ts stack seen f z :
  settled ts stack seen -> finished stack seen f ->
  clos_refl_trans nat (edge ts) f z -> finished stack seen z.
Proof.
  intros Hs Hf Hr. apply clos_rt_rt1n in Hr.
  induction Hr as [|x y z He _ IH]; [exact Hf|].
  apply IH. now apply (proj1 (Hs x Hf)).
Qed.

Lemma clos_trans_first {A} (R : relation A) x z :
  clos_trans A R x z -> exists y, R x y /\ clos_refl_trans A R y z.
Proof.
  intros H. apply clos_trans_t1n in H. destruct H as [y H|y z H Ht].
  - exists y. split; [exact H | apply rt_refl].
  - exists y. split; [exact H|]. apply clos_t1n_trans in Ht. now apply clos_t_clos_rt.
Qed.

Lemma dfs_spec ts : wf ts -> forall fuel stack seen nodes,
  unseen ts seen <= fuel ->
  incl stack seen ->
  (forall n, In n nodes -> In n (keys ts) /\ descends ts n (rev stack)) ->
  settled ts stack seen ->
  match dfs ts fuel stack seen nodes with
  | None => False
  | Some (inl seen') =>
      incl seen seen' /\ (forall n, In n nodes -> finished stack seen' n) /\
      settled ts stack seen'
  | Some (inr cycle) =>
      exists x l, cycle = l ++ [x] /\ clos_trans nat (edge ts) x x
  end.
Proof.
  intros Hwf fuel. induction fuel as [fuel IHf] using lt_wf_ind.
  intros stack seen nodes. revert seen.
  induction nodes as [|node rest IHn]; intros seen Hfuel Hstack Hnodes Hset.
  - rewrite dfs_nil. split; [apply incl_refl|]. split; [intros n []|exact Hset].
  - rewrite dfs_cons.
    destruct (Hnodes node (or_introl eq_refl)) as [Hkey Hdesc].
    assert (Hrest : forall n, In n rest -> In n (keys ts) /\ descends ts n (rev stack)).
    { intros n Hn. apply Hnodes. now right. }
    cbv zeta. destruct (set_in node seen) eqn:Eseen.
    + apply set_in_In in Eseen. destruct (set_in node stack) eqn:Estack.
      * apply set_in_In in Estack. exists node, (stack_from node stack).
        split; [reflexivity|]. apply (descends_path _ _ _ _ Hdesc). now apply in_rev in Estack.
      * apply set_in_false in Estack.
        specialize (IHn seen Hfuel Hstack Hrest Hset).
        destruct (dfs ts fuel stack seen rest) as [[seen'|cycle]|]; [|exact IHn|exact IHn].
        destruct IHn as (Hincl & Hfin & Hset'). split; [exact Hincl|]. split; [|exact Hset'].
        intros n [<-|Hn]; [|now apply Hfin]. split; [now apply Hincl | exact Estack].
    + apply set_in_false in Eseen.
      assert (Hnotstack : ~ In node stack) by (intros H; apply Eseen; now apply Hstack).
      destruct fuel as [|fuel'].
      { assert (H := unseen_add ts seen node Hkey Eseen). lia. }
      assert (Hrec := IHf fuel' (Nat.lt_succ_diag_r fuel') (stack ++ [node])
                          (set_add node seen) (successors_of ts node)).
      assert (P1 : unseen ts (set_add node seen) <= fuel').
      { assert (H := unseen_add ts seen node Hkey Eseen). lia. }
      assert (P2 : incl (stack ++ [node]) (set_add node seen)).
      { intros x Hx. apply In_set_add. apply in_app_iff in Hx.
        destruct Hx as [Hx|[<-|[]]]; [right; now apply Hstack | now left]. }
      assert (P3 : forall n, In n (successors_of ts node) ->
                   In n (keys ts) /\ descends ts n (rev (stack ++ [node]))).
      { intros n Hn. split; [now apply (wf_closed ts Hwf node)|].
        rewrite rev_app_distr. simpl. split; [exact Hn | exact Hdesc]. }
      assert (P4 : settled ts (stack ++ [node]) (set_add node seen)).
      { intros f [Hf1 Hf2]. rewrite in_app_iff in Hf2. simpl in Hf2.
        apply In_set_add in Hf1.
        assert (Hf : finished stack seen f).
        { split; [destruct Hf1 as [->|]; tauto | tauto]. }
        destruct (Hset f Hf) as [He Hc]. split; [|exact Hc].
        intros y Hy. destruct (He y Hy) as [Hy1 Hy2]. split.
        - apply In_set_add. now right.
        - rewrite in_app_iff. simpl. intros [H|[H|[]]]; [tauto | congruence]. }
      specialize (Hrec P1 P2 P3 P4). clear P1 P2 P3 P4.
      destruct (dfs ts fuel' (stack ++ [node]) (set_add node seen) (successors_of ts node))
        as [[seen2|cycle]|]; [|exact Hrec|exact Hrec].
      destruct Hrec as (Hincl2 & Hfin2 & Hset2).
      assert (Hnode_in : In node seen2).
      { apply Hincl2, In_set_add. now left. }
      assert (Hseen2 : incl seen seen2).
      { intros x Hx. apply Hincl2, In_set_add. now right. }
      assert (Hweak : forall f, finished (stack ++ [node]) seen2 f -> finished stack seen2 f).
      { intros f [Hf1 Hf2]. split; [exact Hf1|]. rewrite in_app_iff in Hf2. tauto. }
      assert (Hset' : settled ts stack seen2).
      { intros f [Hf1 Hf2]. destruct (Nat.eq_dec f node) as [->|Hne].
        - split.
          + intros y Hy. apply Hweak. now apply Hfin2.
          + intros Hc. destruct (clos_trans_first _ _ _ Hc) as (y & Hy & Hr).
            assert (Hfy : finished (stack ++ [node]) seen2 y) by now apply Hfin2.
            destruct (settled_reach _ _ _ _ _ Hset2 Hfy Hr) as [_ Hbad].
            apply Hbad. apply in_app_iff. right. now left.
        - assert (Hf : finished (stack ++ [node]) seen2 f).
          { split; [exact Hf1|]. rewrite in_app_iff. simpl. intros [H|[H|[]]]; [tauto | congruence]. }
          destruct (Hset2 f Hf) as [He Hc]. split; [|exact Hc].
          intros y Hy. apply Hweak. now apply He. }
      assert (Hfuel2 : unseen ts seen2 <= S fuel').
      { assert (H := unseen_mono ts _ _ Hseen2). lia. }
      assert (Hstack2 : incl stack seen2).
      { intros x Hx. apply Hseen2. now apply Hstack. }
      specialize (IHn seen2 Hfuel2 Hstack2 Hrest Hset').
      destruct (dfs ts (S fuel') stack seen2 rest) as [[seen3|cycle]|]; [|exact IHn|exact IHn].
      destruct IHn as (Hincl3 & Hfin3 & Hset3).
      split; [intros x Hx; apply Hincl3; now apply Hseen2|]. split; [|exact Hset3].
      intros n [<-|Hn]; [|now apply Hfin3]. split; [now apply Hincl3 | exact Hnotstack].
Qed.

Lemma unseen_nil ts : unseen ts [] = List.length ts.
Proof.
  unfold unseen, keys. rewrite <- (length_map fst ts).
  induction (map fst ts) as [|a l IH]; simpl; [reflexivity | now f_equal].
Qed.

Lemma find_cycle_spec ts :
  wf ts ->
  match find_cycle ts with
  | None => acyclic ts
  | Some cycle => exists x l, cycle = l ++ [x] /\ clos_trans nat (edge ts) x x
  end.
Proof.
  intros Hwf. unfold find_cycle.
  assert (H := dfs_spec ts Hwf (List.length ts) [] [] (keys ts)).
  destruct (dfs ts (List.length ts) [] [] (keys ts)) as [[seen|cycle]|].
  - destruct H as (_ & Hfin & Hset).
    + rewrite unseen_nil. lia.
    + apply incl_refl.
    + intros n Hn. split; [exact Hn | exact I].
    + intros f [[] _].
    + intros x Hc. destruct (clos_trans_first _ _ _ Hc) as (y & Hy & _).
      apply edge_source in Hy. now apply (proj2 (Hset x (Hfin x Hy))).
  - apply H.
    + rewrite unseen_nil. lia.
    + apply incl_refl.
    + intros n Hn. split; [exact Hn | exact I].
    + intros f [[] _].
  - exfalso. apply H.
    + rewrite unseen_nil. lia.
    + apply incl_refl.
    + intros n Hn. split; [exact Hn | exact I].
    + intros f [[] _].
Qed.

(** ** The sorter: [static_order] *)

(** [before x y l]: [y] occurs in [l] and [x] occurs ahead of that
    occurrence. *)
Definition before (x y : nat) (l : list nat) : Prop :=
  exists l1 l2, l = l1 ++ y :: l2 /\ In x l1.

Lemma before_app_r x y l l' : before x y l -> before x y (l ++ l').
Proof.
  intros (l1 & l2 & -> & Hx). exists l1, (l2 ++ l'). split; [|exact Hx].
  now rewrite <- app_assoc.
Qed.

Lemma before_app_l x y l l' : In x l -> In y l' -> before x y (l ++ l').
Proof.
  intros Hx Hy. apply in_split in Hy. destruct Hy as (l1 & l2 & ->).
  exists (l ++ l1), l2. split; [now rewrite <- app_assoc|]. apply in_app_iff. now left.
Qed.

(** The number of entries of [n] in the successor lists of the nodes that
    are not in [emitted]. *)
Definition pending (ts : t) (emitted : list nat) (n : nat) : nat :=
  list_sum (map (fun e => if set_in (fst e) emitted then 0
                          else count_occ Nat.eq_dec (successors (snd e)) n) ts).

Lemma pending_nil ts n : pending ts [] n = indegree ts n.
Proof. reflexivity. Qed.

Lemma set_in_snoc y E x : set_in y (E ++ [x]) = set_in y E || (y =? x).
Proof. unfold set_in. rewrite existsb_app. simpl. now rewrite orb_false_r. Qed.

Lemma pending_snoc_other ts E x n :
  ~ In x (keys ts) -> pending ts (E ++ [x]) n = pending ts E n.
Proof.
  unfold pending. induction ts as [|[k i] ts IH]; simpl; [reflexivity|].
  intros H. rewrite IH by tauto. rewrite set_in_snoc.
  destruct (Nat.eqb_spec k x); [subst; tauto|]. now rewrite orb_false_r.
Qed.

Lemma pending_snoc ts E x n :
  NoDup (keys ts) -> In x (keys ts) -> ~ In x E ->
  pending ts (E ++ [x]) n + count_occ Nat.eq_dec (successors_of ts x) n = pending ts E n.
Proof.
  intros Hnd Hin HE. induction ts as [|[k i] ts IH]; simpl in *; [contradiction|].
  inversion Hnd as [|? ? Hk Hnd']; subst.
  unfold pending, successors_of. simpl. fold (pending ts (E ++ [x]) n) (pending ts E n).
  rewrite set_in_snoc. destruct (Nat.eqb_spec x k); subst.
  - rewrite Nat.eqb_refl, orb_true_r.
    apply set_in_false in HE. rewrite HE.
    rewrite (pending_snoc_other ts E k n Hk). lia.
  - destruct Hin as [?|Hin]; [congruence|].
    specialize (IH Hnd' Hin). unfold successors_of in IH.
    destruct (Nat.eqb_spec k x); [congruence|]. rewrite orb_false_r.
    destruct (set_in k E); lia.
Qed.

Lemma pending_zero ts E n x :
  NoDup (keys ts) -> pending ts E n = 0 -> edge ts x n -> In x E.
Proof.
  intros Hnd Hp He. assert (Hx := edge_source _ _ _ He).
  destruct (in_dec Nat.eq_dec x E) as [|HE]; [assumption|exfalso].
  assert (H := pending_snoc ts E x n Hnd Hx HE).
  assert (count_occ Nat.eq_dec (successors_of ts x) n > 0); [|lia].
  now apply count_occ_In.
Qed.

Lemma pending_positive ts E n :
  NoDup (keys ts) -> pending ts E n <> 0 -> exists x, ~ In x E /\ edge ts x n.
Proof.
  intros Hnd. unfold pending, edge, successors_of.
  induction ts as [|[k i] ts IH]; simpl; [congruence|].
  inversion Hnd as [|? ? Hk Hnd']; subst.
  destruct (set_in k E) eqn:EkE.
  - simpl. intros H. destruct (IH Hnd' H) as (x & Hx & Hxn). exists x. split; [exact Hx|].
    destruct (Nat.eqb_spec x k); [|exact Hxn]. subst.
    destruct (dict_get k ts) eqn:Ek; [|contradiction].
    apply dict_get_Some_keys in Ek. contradiction.
  - destruct (count_occ Nat.eq_dec (successors i) n) eqn:Ec.
    + simpl. intros H. destruct (IH Hnd' H) as (x & Hx & Hxn). exists x. split; [exact Hx|].
      destruct (Nat.eqb_spec x k); [|exact Hxn]. subst.
      destruct (dict_get k ts) eqn:Ek; [|contradiction].
      apply dict_get_Some_keys in Ek. contradiction.
    + intros _. exists k. split; [now apply set_in_false|].
      rewrite Nat.eqb_refl. apply (count_occ_In Nat.eq_dec). lia.
Qed.

Lemma mark_keys c nodes n2i : keys (mark c nodes n2i) = keys n2i.
Proof.
  unfold mark. revert n2i. induction nodes as [|a l IH]; intros n2i; simpl; [reflexivity|].
  now rewrite IH, keys_alter.
Qed.

Lemma mark_successors c nodes n2i x :
  successors_of (mark c nodes n2i) x = successors_of n2i x.
Proof.
  unfold mark. revert n2i. induction nodes as [|a l IH]; intros n2i; simpl; [reflexivity|].
  now rewrite IH, successors_of_alter.
Qed.

Lemma mark_counter c nodes n2i n :
  ~ In n nodes -> counter_of (mark c nodes n2i) n = counter_of n2i n.
Proof.
  unfold mark. revert n2i. induction nodes as [|a l IH]; intros n2i; simpl; [reflexivity|].
  intros H. rewrite IH by tauto. rewrite counter_of_alter.
  destruct (Nat.eqb_spec a n); [subst; tauto | reflexivity].
Qed.

(** The state of [done] while the successors [s1] of a node have been
    released: [c] counts what was pending before, [out] are the nodes that
    were handed out. *)
Record releasing (ts : t) (c : nat -> nat) (out s1 : list nat) (p : Prepared) : Prop := {
  r_keys : keys (node2info p) = keys ts;
  r_succ : forall x, successors_of (node2info p) x = successors_of ts x;
  r_counter : forall n, In n (keys ts) -> ~ In n out ->
    counter_of (node2info p) n = Z.of_nat (c n - count_occ Nat.eq_dec s1 n);
  r_ready_nodup : NoDup (ready_nodes p);
  r_ready : forall n, In n (ready_nodes p) <->
    In n (keys ts) /\ ~ In n out /\ c n = count_occ Nat.eq_dec s1 n
}.

Lemma release_counters p s : npassedout (release p s) = npassedout p /\
  nfinished (release p s) = nfinished p.
Proof. split; reflexivity. Qed.

Lemma release_step ts c out s1 p s :
  releasing ts c out s1 p ->
  In s (keys ts) -> ~ In s out ->
  count_occ Nat.eq_dec (s1 ++ [s]) s <= c s ->
  releasing ts c out (s1 ++ [s]) (release p s).
Proof.
  intros [Hk Hs Hc Hnd Hr] Hin Hout Hle.
  rewrite count_occ_snoc, Nat.eqb_refl in Hle.
  assert (Hcs : counter_of (alter (fun i => set_counter (npredecessors i - 1) i) s (node2info p)) s
                = (counter_of (node2info p) s - 1)%Z).
  { rewrite counter_of_alter, Nat.eqb_refl. unfold counter_of.
    rewrite <- Hk in Hin. destruct (In_keys_dict_get _ _ Hin) as [i ->]. reflexivity. }
  split; simpl.
  - now rewrite keys_alter.
  - intros x. now rewrite successors_of_alter.
  - intros n Hn Ho. rewrite count_occ_snoc. destruct (Nat.eqb_spec s n); subst.
    + rewrite Hcs, (Hc n Hn Ho). lia.
    + rewrite counter_of_alter. destruct (Nat.eqb_spec s n); [congruence|].
      rewrite (Hc n Hn Ho). f_equal. lia.
  - rewrite Hcs, (Hc s Hin Hout).
    destruct (Z.eqb_spec (Z.of_nat (c s - count_occ Nat.eq_dec s1 s) - 1) 0); [|exact Hnd].
    apply NoDup_app; [exact Hnd | repeat constructor; simpl; tauto|].
    intros x Hx [<-|[]]. apply Hr in Hx. lia.
  - intros n. rewrite Hcs, (Hc s Hin Hout), count_occ_snoc.
    destruct (Z.eqb_spec (Z.of_nat (c s - count_occ Nat.eq_dec s1 s) - 1) 0) as [E|E].
    + rewrite in_app_iff, Hr. simpl. destruct (Nat.eqb_spec s n); subst.
      * split; [intros [H|[_|[]]]; [lia | repeat split; auto; lia] | intros _; right; now left].
      * split; [intros [H|[?|[]]]; [|congruence] | intros H; left];
          (destruct H as (H1 & H2 & H3); repeat split; auto; lia).
    + rewrite Hr. destruct (Nat.eqb_spec s n); subst.
      * split; intros (H1 & H2 & H3); lia.
      * split; intros (H1 & H2 & H3); repeat split; auto; lia.
Qed.

Lemma fold_release ts c out s2 : forall s1 p,
  releasing ts c out s1 p ->
  (forall s, In s s2 -> In s (keys ts) /\ ~ In s out) ->
  (forall n, count_occ Nat.eq_dec (s1 ++ s2) n <= c n) ->
  releasing ts c out (s1 ++ s2) (fold_left release s2 p) /\
  npassedout (fold_left release s2 p) = npassedout p /\
  nfinished (fold_left release s2 p) = nfinished p.
Proof.
  induction s2 as [|s s2 IH]; intros s1 p Hr Hs Hle; simpl.
  - rewrite app_nil_r. auto.
  - destruct (Hs s (or_introl eq_refl)) as [Hin Hout].
    assert (Hstep : releasing ts c out (s1 ++ [s]) (release p s)).
    { apply release_step; auto. specialize (Hle s).
      rewrite count_occ_app in Hle. rewrite count_occ_app. simpl in *.
      destruct (Nat.eq_dec s s); [lia | congruence]. }
    destruct (IH (s1 ++ [s]) (release p s) Hstep) as (H1 & H2 & H3).
    + intros x Hx. apply Hs. now right.
    + intros n. rewrite <- app_assoc. apply Hle.
    + rewrite <- app_assoc in H1. simpl in H1. auto.
Qed.

Lemma releasing_next ts E g1 out x p :
  NoDup (keys ts) -> In x (keys ts) -> ~ In x (E ++ g1) ->
  releasing ts (pending ts (E ++ g1)) out (successors_of ts x) p ->
  releasing ts (pending ts (E ++ g1 ++ [x])) out [] p.
Proof.
  intros Hnd Hx HxE [Hk Hs Hc Hrnd Hr].
  assert (Hp : forall n, pending ts (E ++ g1 ++ [x]) n +
                         count_occ Nat.eq_dec (successors_of ts x) n = pending ts (E ++ g1) n).
  { intros n. rewrite app_assoc. now apply pending_snoc. }
  split; auto.
  - intros n Hn Ho. rewrite (Hc n Hn Ho). simpl. f_equal. specialize (Hp n). lia.
  - intros n. rewrite Hr. simpl. specialize (Hp n). split; intros (H1 & H2 & H3); repeat split; auto; lia.
Qed.

Lemma done_spec ts E : NoDup (keys ts) -> forall g2 g1 p,
  NoDup (E ++ g1 ++ g2) -> incl g2 (keys ts) ->
  (forall x s, In x g2 -> edge ts x s -> In s (keys ts) /\ ~ In s (E ++ g1 ++ g2)) ->
  releasing ts (pending ts (E ++ g1)) (E ++ g1 ++ g2) [] p ->
  releasing ts (pending ts (E ++ g1 ++ g2)) (E ++ g1 ++ g2) [] (done p g2) /\
  npassedout (done p g2) = npassedout p /\
  nfinished (done p g2) = nfinished p + List.length g2.
Proof.
  intros Hnd. induction g2 as [|x g2 IH]; intros g1 p Hnodup Hincl Hedge Hr; simpl.
  - rewrite app_nil_r in *. auto.
  - set (out := E ++ g1 ++ x :: g2) in *.
    assert (Hx : In x (keys ts)) by (apply Hincl; now left).
    assert (HxE : ~ In x (E ++ g1)).
    { unfold out in Hnodup. rewrite app_assoc in Hnodup.
      apply NoDup_remove_2 in Hnodup. rewrite in_app_iff in Hnodup. tauto. }
    assert (Hxout : In x out).
    { unfold out. rewrite !in_app_iff. right. right. now left. }
    set (p0 := {| node2info := alter (set_counter NODE_DONE) x (node2info p);
                  ready_nodes := ready_nodes p;
                  npassedout := npassedout p;
                  nfinished := nfinished p |}).
    assert (Hr0 : releasing ts (pending ts (E ++ g1)) out [] p0).
    { destruct Hr as [Hk Hs Hc Hrnd Hrr]. split; simpl; auto.
      - now rewrite keys_alter.
      - intros y. now rewrite successors_of_alter.
      - intros n Hn Ho. rewrite counter_of_alter.
        destruct (Nat.eqb_spec x n); [subst; contradiction|]. now apply Hc. }
    destruct (fold_release ts (pending ts (E ++ g1)) out (successors_of ts x) [] p0 Hr0)
      as (Hr1 & Hpo & Hfi).
    { intros s Hs. apply (Hedge x s); [now left | exact Hs]. }
    { intros n. simpl. assert (H := pending_snoc ts (E ++ g1) x n Hnd Hx HxE). lia. }
    simpl in Hr1.
    unfold done1. rewrite (r_succ _ _ _ _ _ Hr x). fold p0.
    set (p1 := fold_left release (successors_of ts x) p0) in *.
    set (p2 := {| node2info := node2info p1; ready_nodes := ready_nodes p1;
                   npassedout := npassedout p1; nfinished := S (nfinished p1) |}).
    assert (Hr2 : releasing ts (pending ts (E ++ (g1 ++ [x]))) (E ++ (g1 ++ [x]) ++ g2) [] p2).
    { replace (E ++ (g1 ++ [x]) ++ g2) with out
        by (unfold out; now rewrite <- (app_assoc g1)).
      apply (releasing_next ts E g1 out x) in Hr1; auto.
      destruct Hr1. split; auto. }
    destruct (IH (g1 ++ [x]) p2) as (H1 & H2 & H3); auto.
    + unfold out in Hnodup. now rewrite <- (app_assoc g1).
    + intros y Hy. apply Hincl. now right.
    + intros y s Hy He. rewrite <- (app_assoc g1). apply (Hedge y s); [now right | exact He].
    + rewrite <- (app_assoc g1) in H1. simpl in H1. split; [exact H1|].
      unfold done in *. rewrite H2, H3. simpl. rewrite Hpo, Hfi. simpl. split; [reflexivity | lia].
Qed.

(** The state of the loop of [static_order] when the nodes [emitted] have
    been yielded. *)
Record sorting (ts : t) (emitted : list nat) (p : Prepared) : Prop := {
  s_rel : releasing ts (pending ts emitted) emitted [] p;
  s_nodup : NoDup emitted;
  s_incl : incl emitted (keys ts);
  s_count : nfinished p = npassedout p;
  s_order : forall x y, edge ts x y -> In y emitted -> before x y emitted
}.

Lemma sorting_ready ts E p n :
  sorting ts E p ->
  (In n (ready_nodes p) <-> In n (keys ts) /\ ~ In n E /\ pending ts E n = 0).
Proof. intros H. apply (r_ready _ _ _ _ _ (s_rel _ _ _ H)). Qed.

Lemma sorting_step ts E p :
  wf ts -> sorting ts E p ->
  sorting ts (E ++ ready_nodes p) (done (snd (get_ready p)) (ready_nodes p)).
Proof.
  intros Hwf Hs. destruct Hwf as [Hnd Hcl Hcnt].
  assert (Hready := fun n => sorting_ready ts E p n Hs).
  destruct Hs as [[Hk Hsu Hc Hrnd Hr] HndE Hincl Hcount Horder].
  set (group := ready_nodes p) in *.
  assert (HndEg : NoDup (E ++ [] ++ group)).
  { simpl. apply NoDup_app; auto. intros x Hx Hg. apply Hready in Hg. tauto. }
  assert (Hedge : forall x s, In x group -> edge ts x s ->
                    In s (keys ts) /\ ~ In s (E ++ [] ++ group)).
  { intros x s Hx He. split; [eapply Hcl; eauto|]. simpl. rewrite in_app_iff.
    apply Hready in Hx. destruct Hx as (_ & HxE & _). intros [HsE|Hsg].
    - destruct (Horder x s He HsE) as (l1 & l2 & -> & Hxl). apply HxE.
      apply in_app_iff. now left.
    - apply Hready in Hsg. destruct Hsg as (_ & _ & Hp).
      apply HxE. eapply pending_zero; eauto. }
  assert (Hr1 : releasing ts (pending ts (E ++ [])) (E ++ [] ++ group) []
                  (snd (get_ready p))).
  { rewrite app_nil_r. simpl. split; cbn [snd get_ready node2info ready_nodes].
    - now rewrite mark_keys.
    - intros x. now rewrite mark_successors.
    - intros n Hn Ho. rewrite in_app_iff in Ho.
      rewrite mark_counter by tauto.
      rewrite Hc by tauto. reflexivity.
    - constructor.
    - intros n. split; [intros []|]. rewrite in_app_iff. intros (H1 & H2 & H3).
      apply H2. right. apply Hready. tauto. }
  destruct (done_spec ts E Hnd group [] (snd (get_ready p)) HndEg) as (H1 & H2 & H3); auto.
  { intros x Hx. apply Hready in Hx. tauto. }
  simpl in H1. split; auto.
  - intros x Hx. apply in_app_iff in Hx. destruct Hx as [Hx|Hx]; [now apply Hincl|].
    apply Hready in Hx. tauto.
  - rewrite H2, H3. simpl. fold group. lia.
  - intros x y He Hy. apply in_app_iff in Hy. destruct Hy as [Hy|Hy].
    + apply before_app_r. now apply Horder.
    + apply before_app_l; [|exact Hy]. apply Hready in Hy.
      eapply pending_zero; eauto. tauto.
Qed.

Lemma descends_nodup ts n rs : acyclic ts -> descends ts n rs -> NoDup rs.
Proof.
  intros Hac. revert n. induction rs as [|p rs IH]; intros n; simpl; [constructor|].
  intros [_ Hd]. constructor; [|eapply IH; eauto].
  intros Hin. apply (Hac p). eapply descends_path; eauto.
Qed.

Lemma sorting_stuck ts E p :
  wf ts -> acyclic ts -> sorting ts E p -> ready_nodes p = [] -> incl (keys ts) E.
Proof.
  intros Hwf Hac Hs Hempty.
  assert (Hlong : forall k n, In n (keys ts) -> ~ In n E ->
            exists rs, List.length rs = k /\ descends ts n rs /\ incl rs (keys ts)).
  { induction k as [|k IH]; intros n Hn HnE.
    - exists []. repeat split. intros x [].
    - assert (Hp : pending ts E n <> 0).
      { intros Hp. assert (Hin : In n (ready_nodes p)) by (apply (sorting_ready ts E p n Hs); tauto).
        rewrite Hempty in Hin. exact Hin. }
      destruct (pending_positive ts E n (wf_nodup ts Hwf) Hp) as (x & HxE & He).
      destruct (IH x (edge_source _ _ _ He) HxE) as (rs & Hlen & Hd & Hi).
      exists (x :: rs). simpl. repeat split; auto.
      intros y [<-|Hy]; [eapply edge_source; eauto | now apply Hi]. }
  intros n Hn. destruct (in_dec Nat.eq_dec n E) as [|HnE]; [assumption|exfalso].
  destruct (Hlong (S (List.length (keys ts))) n Hn HnE) as (rs & Hlen & Hd & Hi).
  assert (H := NoDup_incl_length (descends_nodup ts n rs Hac Hd) Hi). lia.
Qed.

Lemma static_order_loop_spec ts :
  wf ts -> acyclic ts -> forall fuel E p,
  sorting ts E p -> List.length (keys ts) <= List.length E + fuel ->
  NoDup (E ++ static_order_loop fuel p) /\
  (forall n, In n (E ++ static_order_loop fuel p) <-> In n (keys ts)) /\
  (forall x y, edge ts x y -> before x y (E ++ static_order_loop fuel p)).
Proof.
  intros Hwf Hac.
  assert (Hall : forall E p, sorting ts E p -> incl (keys ts) E ->
            NoDup (E ++ []) /\ (forall n, In n (E ++ []) <-> In n (keys ts)) /\
            (forall x y, edge ts x y -> before x y (E ++ []))).
  { intros E p Hs Hi. rewrite app_nil_r. split; [apply (s_nodup _ _ _ Hs)|]. split.
    - intros n. split; [apply (s_incl _ _ _ Hs) | apply Hi].
    - intros x y He. apply (s_order _ _ _ Hs x y He). apply Hi.
      eapply (wf_closed ts Hwf); eauto. }
  induction fuel as [|fuel IH]; intros E p Hs Hlen; simpl.
  - apply (Hall E p Hs). apply NoDup_length_incl.
    + apply (s_nodup _ _ _ Hs).
    + lia.
    + apply (s_incl _ _ _ Hs).
  - destruct (is_active p) eqn:Eact.
    + assert (Hne : ready_nodes p <> []).
      { unfold is_active in Eact. rewrite (s_count _ _ _ Hs), Nat.ltb_irrefl in Eact.
        simpl in Eact. destruct (ready_nodes p); [discriminate | congruence]. }
      assert (Hstep := sorting_step ts E p Hwf Hs).
      change (get_ready p) with (ready_nodes p, snd (get_ready p)). cbv iota beta.
      rewrite app_assoc. apply IH; [exact Hstep|].
      rewrite length_app. destruct (ready_nodes p); [congruence | simpl; lia].
    + apply (Hall E p Hs). apply (sorting_stuck ts E p Hwf Hac Hs).
      unfold is_active in Eact. apply orb_false_iff in Eact. destruct Eact as [_ Eact].
      destruct (ready_nodes p); [reflexivity | discriminate].
Qed.

Lemma NoDup_keys_filter {V} (f : nat * V -> bool) (d : list (nat * V)) :
  NoDup (keys d) -> NoDup (keys (filter f d)).
Proof.
  induction d as [|e d IH]; simpl; [constructor|].
  intros H. inversion H as [|? ? Hn Hnd]; subst.
  destruct (f e); simpl; [constructor|]; auto.
  intros Hin. apply Hn. unfold keys in *. apply in_map_iff in Hin.
  destruct Hin as (e' & He' & Hin). apply filter_In in Hin. rewrite <- He'.
  apply in_map. tauto.
Qed.

Lemma prepare_sorting ts p :
  wf ts -> prepare ts = inr p -> acyclic ts /\ sorting ts [] p.
Proof.
  intros Hwf. unfold prepare. assert (Hc := find_cycle_spec ts Hwf).
  destruct (find_cycle ts); [discriminate|]. intros [= <-].
  split; [exact Hc|]. destruct Hwf as [Hnd Hcl Hcnt].
  split; [split; cbn [node2info ready_nodes]| constructor | intros x [] | reflexivity
         | intros x y _ []].
  - reflexivity.
  - reflexivity.
  - intros n Hn _. rewrite (Hcnt n Hn), pending_nil. f_equal. simpl. lia.
  - now apply NoDup_keys_filter.
  - intros n. rewrite pending_nil. unfold keys at 1. rewrite in_map_iff. split.
    + intros ([k i] & <- & Hin). apply filter_In in Hin. destruct Hin as [Hin Hz].
      simpl. assert (Hk : In k (keys ts)) by (apply (in_map fst) in Hin; exact Hin).
      repeat split; auto.
      assert (H := Hcnt k Hk). unfold counter_of in H.
      rewrite (In_dict_get _ _ _ Hnd Hin) in H. apply Z.eqb_eq in Hz. lia.
    + intros (Hn & _ & Hz). destruct (In_keys_dict_get _ _ Hn) as [i Hi].
      exists (n, i). split; [reflexivity|]. apply filter_In.
      split; [now apply dict_get_In|].
      assert (H := Hcnt n Hn). unfold counter_of in H. rewrite Hi in H.
      apply Z.eqb_eq. simpl in Hz. lia.
Qed.

(** [static_order] of an acyclic table: every node once, each after all its
    predecessors. *)
Theorem static_order_sorted ts order :
  wf ts -> static_order ts = inr order ->
  acyclic ts /\ NoDup order /\ (forall n, In n order <-> In n (keys ts)) /\
  (forall x y, edge ts x y -> before x y order).
Proof.
  intros Hwf. unfold static_order. destruct (prepare ts) as [e|p] eqn:Ep; [discriminate|].
  intros [= <-]. destruct (prepare_sorting ts p Hwf Ep) as [Hac Hs].
  split; [exact Hac|].
  apply (static_order_loop_spec ts Hwf Hac (List.length ts) [] p Hs).
  unfold keys. rewrite length_map. simpl. lia.
Qed.

(** [static_order] raises only [CycleError], and the last node of the
    reported list lies on a cycle. *)
Theorem static_order_cycle ts e :
  wf ts -> static_order ts = inl e ->
  exists x l, e = CycleError (l ++ [x]) /\ clos_trans nat (edge ts) x x.
Proof.
  intros Hwf. unfold static_order, prepare. assert (Hc := find_cycle_spec ts Hwf).
  destruct (find_cycle ts) as [cycle|]; [|discriminate].
  intros [= <-]. destruct Hc as (x & l & -> & Hx). eauto.
Qed.

Lemma static_order_acyclic ts :
  wf ts -> acyclic ts -> exists order, static_order ts = inr order.
Proof.
  intros Hwf Hac. destruct (static_order ts) as [e|order] eqn:E; [|eauto].
  destruct (static_order_cycle ts e Hwf E) as (x & _ & _ & Hx). destruct (Hac x Hx).
Qed.

End TopologicalSorterFacts.

(** ** Graph building *)

Lemma Scope_eqb_eq a b : Scope_eqb a b = true <-> a = b.
Proof.
  destruct a as [x|], b as [y|]; simpl; try (split; congruence).
  rewrite String.eqb_eq. split; congruence.
Qed.

Lemma Scope_eqb_neq a b : Scope_eqb a b = false <-> a <> b.
Proof.
  rewrite <- Scope_eqb_eq. destruct (Scope_eqb a b); split; congruence.
Qed.

Section Building.
Variable heap : Heap.
Variable binds : list BindHook.

(** The parameters of a node after bind substitution. *)
Definition post_bind (d : Dependant) : list DependencyParameter :=
  map (bind_param binds) (get_dependencies (heap d)).

Lemma bind_param_parameter hooks p : parameter (bind_param hooks p) = parameter p.
Proof.
  revert p. induction hooks as [|h hooks IH]; intros p; simpl; [reflexivity|].
  destruct (h (parameter p) (dependency p)); rewrite IH; reflexivity.
Qed.

Lemma get_params_from_ok dep parents ps ps' :
  get_params_from heap binds dep parents ps = inr ps' ->
  ps' = map (bind_param binds) ps /\ forall p, In p ps' -> unwired heap p = None.
Proof.
  revert ps'. induction ps as [|p ps IH]; intros ps'; simpl.
  - intros [= <-]. split; [reflexivity | intros p []].
  - destruct (unwired heap (bind_param binds p)) eqn:Eu; [discriminate|].
    destruct (get_params_from heap binds dep parents ps) as [e|l]; [discriminate|].
    intros [= <-]. destruct (IH l eq_refl) as [-> Hall].
    split; [reflexivity|]. intros p' [<-|Hp']; auto.
Qed.

Lemma get_params_from_raise dep parents ps e :
  get_params_from heap binds dep parents ps = inl e ->
  exists l1 p l2 prm,
    map (bind_param binds) ps = l1 ++ p :: l2 /\
    (forall p', In p' l1 -> unwired heap p' = None) /\
    unwired heap p = Some prm /\
    e = match get_path dep parents with
        | Some path => Some (WiringError (name prm) (call (heap dep)) path)
        | None => None
        end.
Proof.
  induction ps as [|p ps IH]; simpl; [discriminate|].
  destruct (unwired heap (bind_param binds p)) as [prm|] eqn:Eu.
  - intros [= <-]. exists [], (bind_param binds p), (map (bind_param binds) ps), prm.
    simpl. repeat split; auto. intros p' [].
  - destruct (get_params_from heap binds dep parents ps) as [e'|l]; [|discriminate].
    intros [= <-]. destruct (IH eq_refl) as (l1 & p0 & l2 & prm & Hmap & Hl1 & Hp0 & He).
    exists (bind_param binds p :: l1), p0, l2, prm. simpl. rewrite Hmap.
    repeat split; auto. intros p' [<-|Hp']; auto.
Qed.

Lemma get_params_from_wired dep parents ps :
  (forall p, In p (map (bind_param binds) ps) -> unwired heap p = None) ->
  get_params_from heap binds dep parents ps = inr (map (bind_param binds) ps).
Proof.
  induction ps as [|p ps IH]; simpl; intros H; [reflexivity|].
  rewrite (H _ (or_introl eq_refl)). rewrite IH; auto.
Qed.


(** The effect of the loop of lines 90-95. *)
Lemma expand_fixed dep ps st :
  dependants (expand dep ps st) = dependants st /\
  param_graph (expand dep ps st) = param_graph st /\
  seen (expand dep ps st) = seen st.
Proof.
  revert st. induction ps as [|p ps IH]; intros st; simpl; [auto|].
  destruct (IH {| dependants := dependants st;
             dep_dag := dict_set dep ((match dict_get dep (dep_dag st) with Some l => l | None => [] end) ++ [dependency p]) (dep_dag st);
             param_graph := param_graph st;
             parents := dict_set (dependency p) dep (parents st);
             q := if set_in (dependency p) (seen st) then q st else dependency p :: q st;
             seen := seen st |}) as (H1 & H2 & H3).
  rewrite H1, H2, H3. auto.
Qed.

Lemma expand_dep_dag dep ps st l0 :
  dict_get dep (dep_dag st) = Some l0 ->
  dict_get dep (dep_dag (expand dep ps st)) = Some (l0 ++ map dependency ps) /\
  (forall d, d <> dep -> dict_get d (dep_dag (expand dep ps st)) = dict_get d (dep_dag st)) /\
  keys (dep_dag (expand dep ps st)) = keys (dep_dag st).
Proof.
  revert st l0. induction ps as [|p ps IH]; intros st l0 H0; simpl.
  - rewrite app_nil_r. auto.
  - rewrite H0. cbv iota.
    destruct (IH {| dependants := dependants st;
             dep_dag := dict_set dep (l0 ++ [dependency p]) (dep_dag st);
             param_graph := param_graph st;
             parents := dict_set (dependency p) dep (parents st);
             q := if set_in (dependency p) (seen st) then q st else dependency p :: q st;
             seen := seen st |} (l0 ++ [dependency p])) as (H1 & H2 & H3).
    { simpl. apply dict_get_set_eq. }
    split; [|split].
    + etransitivity; [apply H1|]. now rewrite <- app_assoc.
    + intros d Hd. etransitivity; [apply (H2 d Hd)|]. simpl.
      apply dict_get_set_ne. congruence.
    + etransitivity; [apply H3|]. simpl. rewrite keys_dict_set.
      unfold dict_mem. now rewrite H0.
Qed.

Lemma expand_parents dep ps st c :
  dict_get c (parents (expand dep ps st)) =
  if set_in c (map dependency ps) then Some dep else dict_get c (parents st).
Proof.
  revert st. induction ps as [|p ps IH]; intros st; simpl; [reflexivity|].
  rewrite IH. simpl. destruct (set_in c (map dependency ps)) eqn:E.
  - now rewrite orb_true_r.
  - rewrite orb_false_r. destruct (Nat.eqb_spec c (dependency p)) as [->|Hne].
    + apply dict_get_set_eq.
    + apply dict_get_set_ne. congruence.
Qed.

Lemma expand_q dep ps st x :
  In x (q (expand dep ps st)) <->
  In x (q st) \/ (In x (map dependency ps) /\ ~ In x (seen st)).
Proof.
  revert st. induction ps as [|p ps IH]; intros st; simpl; [tauto|].
  rewrite IH. simpl. destruct (set_in (dependency p) (seen st)) eqn:E.
  - apply set_in_In in E. split; [tauto|]. intros [H|[[<-|H] Hn]]; tauto.
  - apply set_in_false in E. simpl. split.
    + intros [[<-|H]|H]; tauto.
    + intros [H|[[<-|H] Hn]]; tauto.
Qed.

Lemma expand_q_length dep ps st :
  List.length (q (expand dep ps st)) <= List.length (q st) + List.length ps.
Proof.
  revert st. induction ps as [|p ps IH]; intros st; simpl; [lia|].
  etransitivity; [apply IH|]. simpl.
  destruct (set_in (dependency p) (seen st)); simpl; lia.
Qed.

(** The nodes that were expanded, in the order of their expansion. *)
Definition expanded (st : State) : list Dependant := map snd (dependants st).

(** What holds each time the loop of lines 70-95 tests its queue. *)
Record building (root : Dependant) (st : State) : Prop := {
  bg_key : forall k d, dict_get k (dependants st) = Some d -> cache_key (heap d) = k;
  bg_nodup : NoDup (keys (dependants st));
  bg_seen_nodup : NoDup (seen st);
  bg_seen : forall d, In d (seen st) ->
    exists f, dict_get (cache_key (heap d)) (dependants st) = Some f /\
              scope (heap f) = scope (heap d);
  bg_first : forall k f, dict_get k (dependants st) = Some f ->
    exists l1 l2, seen st = l1 ++ f :: l2 /\ forall d, In d l1 -> cache_key (heap d) <> k;
  bg_graph_keys : keys (param_graph st) = expanded st;
  bg_params : forall d params, dict_get d (param_graph st) = Some params ->
    params = post_bind d /\ forall p, In p params -> unwired heap p = None;
  bg_dag : forall d,
    dict_get d (dep_dag st) = option_map (map dependency) (dict_get d (param_graph st));
  bg_dag_keys : keys (dep_dag st) = keys (param_graph st);
  bg_frontier : forall d params p, dict_get d (param_graph st) = Some params ->
    In p params -> In (dependency p) (seen st) \/ In (dependency p) (q st);
  bg_root : dict_get (cache_key (heap root)) (dependants st) = Some root \/
            (dependants st = [] /\ q st = [root] /\ seen st = []);
  bg_parents : forall c p, dict_get c (parents st) = Some p ->
    exists params, dict_get p (param_graph st) = Some params /\
                   In c (map dependency params);
  bg_parented : forall d, In d (q st) \/ In d (seen st) ->
    d = root \/ dict_get d (parents st) <> None
}.

Lemma building_initial root : building root (initial root).
Proof.
  split; simpl.
  - discriminate.
  - constructor.
  - constructor.
  - intros d [].
  - discriminate.
  - reflexivity.
  - discriminate.
  - reflexivity.
  - reflexivity.
  - discriminate.
  - right. auto.
  - discriminate.
  - intros d [[<-|[]]|[]]. now left.
Qed.

Lemma set_add_cases x s : set_add x s = s /\ In x s \/ set_add x s = s ++ [x] /\ ~ In x s.
Proof.
  unfold set_add. destruct (set_in x s) eqn:E.
  - left. split; [reflexivity | now apply set_in_In].
  - right. split; [reflexivity | now apply set_in_false].
Qed.

Lemma building_skip root st dep q' other :
  building root st -> q st = dep :: q' ->
  dict_get (cache_key (heap dep)) (dependants st) = Some other ->
  scope (heap other) = scope (heap dep) ->
  building root {| dependants := dependants st; dep_dag := dep_dag st;
                   param_graph := param_graph st; parents := parents st;
                   q := q'; seen := set_add dep (seen st) |}.
Proof.
  intros [Hkey Hnd Hsnd Hseen Hfirst Hgk Hparams Hdag Hdk Hfr Hroot Hpar Hpd] Hq Hother Hscope.
  split; simpl; auto.
  - now apply NoDup_set_add.
  - intros d Hd. apply In_set_add in Hd. destruct Hd as [->|Hd]; [eauto | auto].
  - intros k f Hf. destruct (Hfirst k f Hf) as (l1 & l2 & Hs & Hl1).
    destruct (set_add_cases dep (seen st)) as [[-> _]|[-> _]].
    + eauto.
    + exists l1, (l2 ++ [dep]). rewrite Hs, <- app_assoc. auto.
  - intros d params p Hd Hp. rewrite In_set_add.
    destruct (Hfr d params p Hd Hp) as [H|H]; [tauto|].
    rewrite Hq in H. destruct H as [<-|H]; tauto.
  - destruct Hroot as [H|(H & _)]; [now left|]. rewrite H in Hother. discriminate.
  - intros d Hd. apply Hpd. rewrite Hq. rewrite In_set_add in Hd. simpl.
    destruct Hd as [Hd|[->|Hd]]; tauto.
Qed.

Lemma dict_mem_keys {V W} (d : list (nat * V)) (d' : list (nat * W)) k :
  keys d = keys d' -> dict_mem k d = dict_mem k d'.
Proof.
  intros H. unfold dict_mem.
  destruct (dict_get k d) eqn:E, (dict_get k d') eqn:E'; auto.
  - apply dict_get_Some_keys in E. apply dict_get_None in E'. rewrite H in E. contradiction.
  - apply dict_get_Some_keys in E'. apply dict_get_None in E. rewrite H in E. contradiction.
Qed.

Lemma building_expand root st dep q' params :
  building root st -> q st = dep :: q' ->
  dict_get (cache_key (heap dep)) (dependants st) = None ->
  get_params heap binds dep (parents st) = inr params ->
  building root
    (expand dep params
       {| dependants := dict_set (cache_key (heap dep)) dep (dependants st);
          dep_dag := dict_set dep [] (dep_dag st);
          param_graph := dict_set dep params (param_graph st);
          parents := parents st;
          q := q'; seen := set_add dep (seen st) |}).
Proof.
  intros [Hkey Hnd Hsnd Hseen Hfirst Hgk Hparams Hdag Hdk Hfr Hroot Hpar Hpd] Hq Hnone Hget.
  set (st1 := {| dependants := dict_set (cache_key (heap dep)) dep (dependants st);
          dep_dag := dict_set dep [] (dep_dag st);
          param_graph := dict_set dep params (param_graph st);
          parents := parents st;
          q := q'; seen := set_add dep (seen st) |}).
  destruct (expand_fixed dep params st1) as (E1 & E2 & E3).
  destruct (expand_dep_dag dep params st1 []) as (D1 & D2 & D3).
  { simpl. apply dict_get_set_eq. }
  assert (P := expand_parents dep params st1).
  assert (Q := expand_q dep params st1).
  simpl in *.
  destruct (get_params_from_ok dep (parents st) _ _ Hget) as [Hpb Hwired].
  fold (post_bind dep) in Hpb.
  assert (Hother : forall k f, dict_get k (dependants st) = Some f -> k <> cache_key (heap dep)).
  { intros k f Hf ->. congruence. }
  assert (Hdep_new : ~ In dep (seen st)).
  { intros H. destruct (Hseen dep H) as (f & Hf & _). congruence. }
  assert (Hdep_pg : dict_get dep (param_graph st) = None).
  { apply dict_get_None. rewrite Hgk. unfold expanded. intros H.
    apply in_map_iff in H. destruct H as ([k d] & Hd & Hin). simpl in Hd. subst d.
    apply In_dict_get in Hin; auto. assert (Hk := Hkey _ _ Hin). subst k. congruence. }
  split; rewrite ?E1, ?E2, ?E3; simpl.
  - intros k d. destruct (Nat.eq_dec (cache_key (heap dep)) k) as [<-|Hne].
    + rewrite dict_get_set_eq. now intros [= <-].
    + rewrite dict_get_set_ne by auto. apply Hkey.
  - now apply NoDup_keys_dict_set.
  - now apply NoDup_set_add.
  - intros d Hd. apply In_set_add in Hd. destruct Hd as [->|Hd].
    + exists dep. split; [apply dict_get_set_eq | reflexivity].
    + destruct (Hseen d Hd) as (f & Hf & Hs). exists f. split; [|exact Hs].
      rewrite dict_get_set_ne; auto. intros H. apply (Hother _ _ Hf). auto.
  - intros k f. destruct (set_add_cases dep (seen st)) as [[_ H]|[-> _]]; [contradiction|].
    destruct (Nat.eq_dec (cache_key (heap dep)) k) as [<-|Hne].
    + rewrite dict_get_set_eq. intros [= <-]. exists (seen st), []. split; [reflexivity|].
      intros d Hd. destruct (Hseen d Hd) as (f & Hf & _). apply (Hother _ _ Hf).
    + rewrite dict_get_set_ne by auto. intros Hf.
      destruct (Hfirst k f Hf) as (l1 & l2 & Hs & Hl1).
      exists l1, (l2 ++ [dep]). rewrite Hs, <- app_assoc. auto.
  - unfold expanded. rewrite E1.
    rewrite (dict_set_fresh _ _ _ Hnone), (dict_set_fresh _ _ _ Hdep_pg).
    unfold keys. rewrite !map_app. simpl. f_equal. exact Hgk.
  - intros d ps. destruct (Nat.eq_dec dep d) as [<-|Hne].
    + rewrite dict_get_set_eq. intros [= <-]. auto.
    + rewrite dict_get_set_ne by auto. apply Hparams.
  - intros d. destruct (Nat.eq_dec dep d) as [<-|Hne].
    + rewrite D1, dict_get_set_eq. reflexivity.
    + rewrite D2 by auto. rewrite !dict_get_set_ne by auto. apply Hdag.
  - rewrite D3, !keys_dict_set, (dict_mem_keys _ _ dep Hdk), Hdk. reflexivity.
  - intros d ps p. rewrite Q, In_set_add.
    destruct (Nat.eq_dec dep d) as [<-|Hne].
    + rewrite dict_get_set_eq. intros [= <-] Hp.
      destruct (in_dec Nat.eq_dec (dependency p) (seen st)) as [|Hn]; [tauto|].
      destruct (Nat.eq_dec (dependency p) dep) as [|Hn']; [tauto|].
      right. right. split; [now apply in_map | tauto].
    + rewrite dict_get_set_ne by auto. intros Hd Hp.
      destruct (Hfr d ps p Hd Hp) as [H|H]; [tauto|].
      rewrite Hq in H. destruct H as [<-|H]; tauto.
  - destruct (Nat.eq_dec (cache_key (heap dep)) (cache_key (heap root))) as [Heq|Hne].
    + left. rewrite <- Heq, dict_get_set_eq. destruct Hroot as [H|(H1 & H2 & H3)].
      * rewrite <- Heq in H. congruence.
      * rewrite H2 in Hq. now injection Hq as -> _.
    + left. rewrite dict_get_set_ne by auto. destruct Hroot as [H|(H1 & H2 & H3)]; [exact H|].
      rewrite H2 in Hq. injection Hq as -> _. congruence.
  - intros c p. rewrite P. destruct (set_in c (map dependency params)) eqn:Ec.
    + intros [= <-]. exists params. split; [apply dict_get_set_eq | now apply set_in_In].
    + intros Hc. destruct (Hpar c p Hc) as (ps & Hps & Hin). exists ps. split; [|exact Hin].
      rewrite dict_get_set_ne; auto. intros ->. congruence.
  - intros d. rewrite P, Q, In_set_add. intros Hd.
    destruct (set_in d (map dependency params)) eqn:Ec; [right; discriminate|].
    apply set_in_false in Ec. apply Hpd. rewrite Hq. simpl.
    destruct Hd as [[Hd|[Hd _]]|[->|Hd]]; tauto.
Qed.

(** How the loop ends: with an empty queue, or by one of its two raises,
    from a state in which [building] holds; a raise whose path is never
    computed does not happen. *)
Inductive ended (root : Dependant) : Outcome -> State -> Prop :=
| ended_finished st :
    building root st -> q st = [] -> ended root Finished st
| ended_wiring st dep q' e :
    building root st -> q st = dep :: q' ->
    dict_get (cache_key (heap dep)) (dependants st) = None ->
    get_params heap binds dep (parents st) = inl (Some e) ->
    ended root (Raised e)
      {| dependants := dict_set (cache_key (heap dep)) dep (dependants st);
         dep_dag := dep_dag st; param_graph := param_graph st; parents := parents st;
         q := q'; seen := set_add dep (seen st) |}
| ended_solving st dep q' other path :
    building root st -> q st = dep :: q' ->
    dict_get (cache_key (heap dep)) (dependants st) = Some other ->
    scope (heap other) <> scope (heap dep) ->
    get_path dep (parents st) = Some path ->
    ended root
      (Raised (SolvingError (call (heap dep)) (scope (heap dep)) (scope (heap other)) path))
      {| dependants := dependants st;
         dep_dag := dep_dag st; param_graph := param_graph st; parents := parents st;
         q := q'; seen := set_add dep (seen st) |}
| ended_fuel st : building root st -> ended root OutOfFuel st
| ended_wiring_hangs st dep q' :
    building root st -> q st = dep :: q' ->
    dict_get (cache_key (heap dep)) (dependants st) = None ->
    get_params heap binds dep (parents st) = inl None ->
    ended root Hangs
      {| dependants := dict_set (cache_key (heap dep)) dep (dependants st);
         dep_dag := dep_dag st; param_graph := param_graph st; parents := parents st;
         q := q'; seen := set_add dep (seen st) |}
| ended_solving_hangs st dep q' other :
    building root st -> q st = dep :: q' ->
    dict_get (cache_key (heap dep)) (dependants st) = Some other ->
    scope (heap other) <> scope (heap dep) ->
    get_path dep (parents st) = None ->
    ended root Hangs
      {| dependants := dependants st;
         dep_dag := dep_dag st; param_graph := param_graph st; parents := parents st;
         q := q'; seen := set_add dep (seen st) |}.

Lemma build_graph_ended root fuel : forall st o st',
  building root st -> build_graph heap binds fuel st = (o, st') -> ended root o st'.
Proof.
  induction fuel as [|fuel IH]; intros st o st' Hb; simpl.
  - destruct (q st) eqn:Hq; intros [= <- <-].
    + now apply ended_finished.
    + now apply ended_fuel.
  - destruct (q st) as [|dep q'] eqn:Hq.
    + intros [= <- <-]. now apply ended_finished.
    + destruct (dict_get (cache_key (heap dep)) (dependants st)) as [other|] eqn:Hd.
      * destruct (Scope_eqb (scope (heap other)) (scope (heap dep))) eqn:Hs.
        -- apply IH. apply Scope_eqb_eq in Hs. eapply building_skip; eauto.
        -- apply Scope_eqb_neq in Hs.
           destruct (get_path dep (parents st)) as [path|] eqn:Hpath; intros [= <- <-].
           ++ eapply ended_solving; eauto.
           ++ eapply ended_solving_hangs; eauto.
      * destruct (get_params heap binds dep (parents st)) as [[e|]|params] eqn:Hg.
        -- intros [= <- <-]. eapply ended_wiring; eauto.
        -- intros [= <- <-]. eapply ended_wiring_hangs; eauto.
        -- apply IH. eapply building_expand; eauto.
Qed.

Lemma build_graph_more_fuel fuel : forall st o st' fuel',
  build_graph heap binds fuel st = (o, st') -> o <> OutOfFuel -> fuel <= fuel' ->
  build_graph heap binds fuel' st = (o, st').
Proof.
  induction fuel as [|fuel IH]; intros st o st' fuel'; simpl.
  - destruct (q st) eqn:Hq; intros [= <- <-] Ho Hle; [|congruence].
    destruct fuel'; simpl; now rewrite Hq.
  - destruct (q st) as [|dep q'] eqn:Hq.
    + intros [= <- <-] _ _. destruct fuel'; simpl; now rewrite Hq.
    + intros H Ho Hle. destruct fuel' as [|fuel']; [lia|]. simpl. rewrite Hq.
      destruct (dict_get (cache_key (heap dep)) (dependants st)) as [other|].
      * destruct (Scope_eqb (scope (heap other)) (scope (heap dep))); [|exact H].
        apply IH; auto. lia.
      * destruct (get_params heap binds dep (parents st)) as [e|params]; [exact H|].
        apply IH; auto. lia.
Qed.

(** *** Termination *)

(** A set of nodes that holds, with each node, the nodes its parameters are
    bound to. *)
Definition closed_universe (U : list Dependant) : Prop :=
  forall d, In d U -> forall p, In p (post_bind d) -> In (dependency p) U.

Definition weight (dependants : list (CacheKey * Dependant)) (U : list Dependant) : nat :=
  list_sum (map (fun d => if dict_mem (cache_key (heap d)) dependants then 0
                          else List.length (get_dependencies (heap d))) U).

Definition enough_fuel (U : list Dependant) : nat :=
  S (list_sum (map (fun d => List.length (get_dependencies (heap d))) U)).

Lemma list_sum_decrease {A} (f g : A -> nat) l a w :
  (forall x, In x l -> g x <= f x) -> In a l -> g a + w <= f a ->
  list_sum (map g l) + w <= list_sum (map f l).
Proof.
  induction l as [|b l IH]; simpl; intros Hle Hin Ha; [contradiction|].
  assert (Hl : list_sum (map g l) <= list_sum (map f l)).
  { clear IH Hin. induction l as [|c l IHl]; simpl; [lia|].
    assert (H1 := Hle c (or_intror (or_introl eq_refl))).
    assert (H2 : list_sum (map g l) <= list_sum (map f l)).
    { apply IHl. intros x [Hx|Hx]; apply Hle; simpl; auto. }
    lia. }
  destruct Hin as [->|Hin].
  - lia.
  - assert (H1 := Hle b (or_introl eq_refl)).
    assert (H2 := IH (fun x Hx => Hle x (or_intror Hx)) Hin Ha). lia.
Qed.

Lemma weight_expand D U dep :
  dict_get (cache_key (heap dep)) D = None -> In dep U ->
  weight (dict_set (cache_key (heap dep)) dep D) U + List.length (get_dependencies (heap dep))
  <= weight D U.
Proof.
  intros Hnone Hin. unfold weight. apply list_sum_decrease with (a := dep); auto.
  - intros x _. unfold dict_mem.
    destruct (Nat.eq_dec (cache_key (heap dep)) (cache_key (heap x))) as [<-|Hne].
    + rewrite dict_get_set_eq. lia.
    + rewrite dict_get_set_ne by auto. destruct (dict_get (cache_key (heap x)) D); lia.
  - unfold dict_mem. rewrite dict_get_set_eq, Hnone. lia.
Qed.

Lemma build_graph_terminates U :
  closed_universe U -> forall fuel st,
  incl (q st) U ->
  List.length (q st) + weight (dependants st) U <= fuel ->
  fst (build_graph heap binds fuel st) <> OutOfFuel.
Proof.
  intros HU. induction fuel as [|fuel IH]; intros st Hq Hfuel; simpl.
  - destruct (q st); simpl in *; [discriminate | lia].
  - destruct (q st) as [|dep q'] eqn:Eq; [discriminate|]. simpl in Hfuel.
    assert (Hdep : In dep U) by (apply Hq; now left).
    destruct (dict_get (cache_key (heap dep)) (dependants st)) as [other|] eqn:Hd.
    + destruct (Scope_eqb (scope (heap other)) (scope (heap dep)));
        [|destruct (get_path dep (parents st)); discriminate].
      apply IH; simpl; [|lia]. intros x Hx. apply Hq. now right.
    + destruct (get_params heap binds dep (parents st)) as [[e|]|params] eqn:Hg;
        [discriminate|discriminate|].
      destruct (get_params_from_ok dep (parents st) _ _ Hg) as [Hpb _].
      fold (post_bind dep) in Hpb.
      set (st1 := {| dependants := dict_set (cache_key (heap dep)) dep (dependants st);
                     dep_dag := dict_set dep [] (dep_dag st);
                     param_graph := dict_set dep params (param_graph st);
                     parents := parents st;
                     q := q'; seen := set_add dep (seen st) |}).
      destruct (expand_fixed dep params st1) as (E1 & _ & _).
      apply IH.
      * intros x Hx. apply expand_q in Hx. simpl in Hx. destruct Hx as [Hx|[Hx _]].
        -- apply Hq. now right.
        -- apply in_map_iff in Hx. destruct Hx as (p & <- & Hp).
           apply (HU dep Hdep). now rewrite <- Hpb.
      * rewrite E1. simpl.
        assert (H1 := expand_q_length dep params st1). simpl in H1.
        assert (H2 := weight_expand (dependants st) U dep Hd Hdep).
        assert (H3 : List.length params = List.length (get_dependencies (heap dep))).
        { rewrite Hpb. unfold post_bind. apply length_map. }
        lia.
Qed.

End Building.

(** ** Task building *)

Definition is_keyword_only (k : ParameterKind) : bool :=
  match k with KEYWORD_ONLY => true | _ => false end.

(** The edges that carry a parameter that is not keyword-only. *)
Definition positional_edge (p : DependencyParameter) : bool :=
  match parameter p with
  | Some prm => negb (is_keyword_only (kind prm))
  | None => false
  end.

(** The name under which an edge is passed by keyword, if it is. *)
Definition keyword_edge (p : DependencyParameter) : option string :=
  match parameter p with
  | Some prm => if is_keyword_only (kind prm) then Some (name prm) else None
  | None => None
  end.

Lemma kw_get_set_eq {V} (d : list (string * V)) k v : kw_get k (kw_set k v d) = Some v.
Proof.
  induction d as [|[k' v'] d IH]; simpl.
  - now rewrite String.eqb_refl.
  - destruct (String.eqb_spec k k'); simpl.
    + now rewrite String.eqb_refl.
    + destruct (String.eqb_spec k k'); [contradiction | exact IH].
Qed.

Lemma kw_get_set_ne {V} (d : list (string * V)) k k' v :
  k <> k' -> kw_get k' (kw_set k v d) = kw_get k' d.
Proof.
  intros Hne. induction d as [|[k0 v0] d IH]; simpl.
  - destruct (String.eqb_spec k' k); [congruence | reflexivity].
  - destruct (String.eqb_spec k k0); simpl; subst.
    + destruct (String.eqb_spec k' k0); [congruence | reflexivity].
    + destruct (String.eqb_spec k' k0); [reflexivity | exact IH].
Qed.

Section Tasking.
Variable heap : Heap.

Definition task_of (tasks : list (CacheKey * Task.t)) (p : DependencyParameter) : option Task.t :=
  dict_get (cache_key (heap (dependency p))) tasks.

Lemma collect_parameters_positional tasks params : forall pos0 kw0 pos kw,
  collect_parameters heap tasks params pos0 kw0 = inr (pos, kw) ->
  map Some pos = map Some pos0 ++ map (task_of tasks) (filter positional_edge params).
Proof.
  induction params as [|p params IH]; intros pos0 kw0 pos kw; simpl.
  - intros [= <- <-]. now rewrite app_nil_r.
  - unfold positional_edge at 1. destruct (parameter p) as [prm|]; [|apply IH].
    destruct (dict_get (cache_key (heap (dependency p))) tasks) as [task|] eqn:Et; [|discriminate].
    destruct (kind prm); simpl; intros H; apply IH in H; rewrite H;
      try (rewrite map_app, <- app_assoc; simpl; unfold task_of at 2; now rewrite Et).
    reflexivity.
Qed.

Lemma collect_parameters_keyword tasks params : forall pos0 kw0 pos kw,
  collect_parameters heap tasks params pos0 kw0 = inr (pos, kw) ->
  (forall n, (forall p, In p params -> keyword_edge p <> Some n) ->
             kw_get n kw = kw_get n kw0) /\
  (forall l1 p l2 n, params = l1 ++ p :: l2 -> keyword_edge p = Some n ->
     (forall p', In p' l2 -> keyword_edge p' <> Some n) ->
     kw_get n kw = task_of tasks p).
Proof.
  induction params as [|p params IH]; intros pos0 kw0 pos kw; simpl.
  - intros [= <- <-]. split; [reflexivity|]. intros [|? ?] ? ? ? H; discriminate H.
  - intros H.
    assert (Hcases :
      (keyword_edge p = None /\ exists pos1,
         collect_parameters heap tasks params pos1 kw0 = inr (pos, kw)) \/
      (exists n task, keyword_edge p = Some n /\ task_of tasks p = Some task /\
         collect_parameters heap tasks params pos0 (kw_set n task kw0) = inr (pos, kw))).
    { unfold keyword_edge, task_of. destruct (parameter p) as [prm|]; [|left; eauto].
      destruct (dict_get (cache_key (heap (dependency p))) tasks) as [task|]; [|discriminate].
      destruct (kind prm); simpl; eauto 6. }
    clear H. destruct Hcases as [[Hk (pos1 & H)]|(n0 & task & Hk & Ht & H)];
      destruct (IH _ _ _ _ H) as [IH1 IH2]; split.
    + intros n Hn. apply IH1. intros p' Hp'. apply Hn. now right.
    + intros [|p0 l1] p' l2 n Heq Hkp Hl2; simpl in Heq; injection Heq as -> ->.
      * congruence.
      * eapply IH2; eauto.
    + intros n Hn. rewrite IH1 by (intros p' Hp'; apply Hn; now right).
      apply kw_get_set_ne. intros ->. apply (Hn p); [now left | exact Hk].
    + intros [|p0 l1] p' l2 n Heq Hkp Hl2; simpl in Heq; injection Heq as -> ->.
      * rewrite IH1 by exact Hl2. rewrite Hk in Hkp. injection Hkp as ->.
        rewrite kw_get_set_eq. now rewrite Ht.
      * eapply IH2; eauto.
Qed.

(** Every task that [collect_parameters] hands to the new task is in the
    table. *)
Lemma collect_parameters_from_table tasks params : forall pos0 kw0 pos kw,
  collect_parameters heap tasks params pos0 kw0 = inr (pos, kw) ->
  forall D, In D pos \/ In D (map snd kw) ->
    In D pos0 \/ In D (map snd kw0) \/ exists p, In p params /\ task_of tasks p = Some D.
Proof.
  induction params as [|p params IH]; intros pos0 kw0 pos kw; simpl.
  - intros [= <- <-] D. tauto.
  - intros H D HD. unfold task_of in *.
    destruct (parameter p) as [prm|].
    + destruct (dict_get (cache_key (heap (dependency p))) tasks) as [task|] eqn:Et; [|discriminate].
      assert (Hkw : forall n, In D (map snd (kw_set n task kw0)) -> D = task \/ In D (map snd kw0)).
      { intros n. clear. induction kw0 as [|[k v] kw0 IHk]; simpl.
        - intros [<-|[]]. now left.
        - destruct (String.eqb n k); simpl; intros [<-|Hin]; auto.
          destruct (IHk Hin); auto. }
      destruct (kind prm); apply IH with (D := D) in H; auto;
        try (destruct H as [H|[H|(p' & Hp' & Hget)]];
             [apply in_app_iff in H; destruct H as [H|[<-|[]]]; eauto 6 | auto | eauto 6]).
      destruct H as [H|[H|(p' & Hp' & Hget)]]; [auto | | eauto 6].
      destruct (Hkw _ H) as [->|]; eauto 6.
    + apply IH with (D := D) in H; auto.
      destruct H as [H|[H|(p' & Hp' & Hget)]]; eauto 6.
Qed.

Lemma predecessor_tasks_spec tasks params preds :
  predecessor_tasks heap tasks params = inr preds ->
  map Some preds = map (task_of tasks) params.
Proof.
  unfold task_of. revert preds. induction params as [|p params IH]; intros preds; simpl.
  - now intros [= <-].
  - destruct (dict_get (cache_key (heap (dependency p))) tasks) as [task|]; [|discriminate].
    destruct (predecessor_tasks heap tasks params) as [e|l]; [discriminate|].
    intros [= <-]. simpl. now rewrite (IH l eq_refl).
Qed.

Lemma predecessor_tasks_In tasks params preds p D :
  predecessor_tasks heap tasks params = inr preds ->
  In p params -> task_of tasks p = Some D -> In D preds.
Proof.
  intros H Hp HD. apply predecessor_tasks_spec in H.
  assert (Hin : In (Some D) (map Some preds)).
  { rewrite H, <- HD. now apply in_map. }
  apply in_map_iff in Hin. destruct Hin as (D' & [= ->] & Hin). exact Hin.
Qed.

Lemma predecessor_tasks_table tasks params preds D :
  predecessor_tasks heap tasks params = inr preds -> In D preds ->
  exists p, In p params /\ task_of tasks p = Some D.
Proof.
  intros H HD. apply predecessor_tasks_spec in H.
  assert (Hin : In (Some D) (map (task_of tasks) params)).
  { rewrite <- H. now apply in_map. }
  apply in_map_iff in Hin. destruct Hin as (p & Hp & Hin). eauto.
Qed.

(** Lookups that succeed keep their result when the table grows. *)
Definition extends (tasks tasks' : list (CacheKey * Task.t)) : Prop :=
  forall k T, dict_get k tasks = Some T -> dict_get k tasks' = Some T.

Lemma collect_parameters_extends tasks tasks' params : extends tasks tasks' ->
  forall pos0 kw0 r,
  collect_parameters heap tasks params pos0 kw0 = inr r ->
  collect_parameters heap tasks' params pos0 kw0 = inr r.
Proof.
  intros Hext. induction params as [|p params IH]; intros pos0 kw0 r; simpl; [auto|].
  destruct (parameter p) as [prm|]; [|apply IH].
  destruct (dict_get (cache_key (heap (dependency p))) tasks) as [task|] eqn:Et; [|discriminate].
  rewrite (Hext _ _ Et). destruct (kind prm); apply IH.
Qed.

Lemma predecessor_tasks_extends tasks tasks' params preds : extends tasks tasks' ->
  predecessor_tasks heap tasks params = inr preds ->
  predecessor_tasks heap tasks' params = inr preds.
Proof.
  intros Hext. revert preds. induction params as [|p params IH]; intros preds; simpl; [auto|].
  destruct (dict_get (cache_key (heap (dependency p))) tasks) as [task|] eqn:Et; [|discriminate].
  rewrite (Hext _ _ Et).
  destruct (predecessor_tasks heap tasks params) as [e|l]; [discriminate|].
  intros [= <-]. now rewrite (IH l eq_refl).
Qed.

Definition task_ids (tasks : list (CacheKey * Task.t)) : list nat :=
  map (fun e => Task.task_id (snd e)) tasks.

(** What the table and the sorter record about the task [T] stored under
    [k]. *)
Definition built (dag : list (Dependant * list DependencyParameter))
    (tasks : list (CacheKey * Task.t)) (ts : TopologicalSorter.t)
    (k : CacheKey) (T : Task.t) : Prop :=
  Task.cache_key T = k /\
  cache_key (heap (Task.dependant T)) = k /\
  call (heap (Task.dependant T)) = Some (Task.call T) /\
  Task.scope T = scope (heap (Task.dependant T)) /\
  Task.use_cache T = use_cache (heap (Task.dependant T)) /\
  exists params preds,
    dict_get (Task.dependant T) dag = Some params /\
    collect_parameters heap tasks params [] [] =
      inr (Task.positional_parameters T, Task.keyword_parameters T) /\
    predecessor_tasks heap tasks params = inr preds /\
    forall D, In D preds ->
      TopologicalSorterFacts.edge ts (Task.task_id D) (Task.task_id T).

(** The state of the loop of [build_tasks] after [n] tasks. *)
Record tasked (dag : list (Dependant * list DependencyParameter))
    (tasks : list (CacheKey * Task.t)) (ts : TopologicalSorter.t) (n : nat) : Prop := {
  t_ids : task_ids tasks = seq 0 n;
  t_nodup : NoDup (keys tasks);
  t_wf : TopologicalSorterFacts.wf ts;
  t_nodes : forall i, In i (keys ts) <-> i < n;
  t_edges : forall a b, TopologicalSorterFacts.edge ts a b -> a < b;
  t_task : forall k T, dict_get k tasks = Some T -> built dag tasks ts k T
}.

(** No node of the graph has a parameter bound to a node with its own
    cache key. *)
Definition no_self (dag : list (Dependant * list DependencyParameter)) : Prop :=
  forall dep params p, dict_get dep dag = Some params -> In p params ->
    cache_key (heap (dependency p)) <> cache_key (heap dep).

Fixpoint topsorted_keys (topsorted : list (option Dependant)) : list CacheKey :=
  match topsorted with
  | [] => []
  | Some d :: rest => cache_key (heap d) :: topsorted_keys rest
  | None :: rest => topsorted_keys rest
  end.

Lemma tasked_empty dag : tasked dag [] TopologicalSorter.empty 0.
Proof.
  split; simpl.
  - reflexivity.
  - constructor.
  - apply TopologicalSorterFacts.empty_wf.
  - intros i. split; [intros [] | lia].
  - intros a b [].
  - discriminate.
Qed.

Lemma dict_get_values {V} (d : list (nat * V)) k v : dict_get k d = Some v -> In v (map snd d).
Proof. intros H. apply dict_get_In in H. now apply (in_map snd) in H. Qed.

Lemma tasked_id_bound dag tasks ts n k T :
  tasked dag tasks ts n -> dict_get k tasks = Some T -> Task.task_id T < n.
Proof.
  intros Ht Hk. apply dict_get_In in Hk.
  assert (Hin : In (Task.task_id T) (task_ids tasks)).
  { unfold task_ids. apply in_map_iff. exists (k, T). auto. }
  rewrite (t_ids _ _ _ _ Ht) in Hin. apply in_seq in Hin. lia.
Qed.

Lemma built_extends dag tasks tasks' ts ts' k T :
  extends tasks tasks' ->
  (forall x y, TopologicalSorterFacts.edge ts x y -> TopologicalSorterFacts.edge ts' x y) ->
  built dag tasks ts k T -> built dag tasks' ts' k T.
Proof.
  intros Hext Hedge (H1 & H2 & H3 & H4 & H5 & params & preds & Hd & Hc & Hp & He).
  repeat (split; [assumption|]). exists params, preds. repeat split; auto.
  - eapply collect_parameters_extends; eauto.
  - eapply predecessor_tasks_extends; eauto.
Qed.

Lemma build_tasks_loop_tasked dag : no_self dag -> forall topsorted ts tasks n tasks' ts',
  tasked dag tasks ts n ->
  NoDup (keys tasks ++ topsorted_keys topsorted) ->
  build_tasks_loop heap dag topsorted ts tasks n = inr (tasks', ts') ->
  tasked dag tasks' ts' (List.length tasks') /\
  extends tasks tasks' /\
  keys tasks' = keys tasks ++ topsorted_keys topsorted /\
  Forall (fun item => item <> None) topsorted.
Proof.
  intros Hself.
  induction topsorted as [|[dep|] topsorted IH]; intros ts tasks n tasks' ts' Ht Hnd; simpl.
  - intros [= <- <-]. rewrite app_nil_r. split; [|split; [|split]].
    + assert (Hn : n = List.length tasks).
      { assert (H := f_equal (@List.length nat) (t_ids _ _ _ _ Ht)).
        unfold task_ids in H. rewrite length_map, length_seq in H. lia. }
      now rewrite <- Hn.
    + now intros k T.
    + reflexivity.
    + constructor.
  - destruct (dict_get dep dag) as [params|] eqn:Hdag; [|discriminate].
    destruct (collect_parameters heap tasks params [] []) as [e|[pos kw]] eqn:Hcol; [discriminate|].
    destruct (call (heap dep)) as [c|] eqn:Hcall; [|discriminate].
    set (k := cache_key (heap dep)) in *.
    set (T := Task.mk (scope (heap dep)) c (use_cache (heap dep)) k dep n pos kw).
    destruct (predecessor_tasks heap (dict_set k T tasks) params) as [e|preds] eqn:Hpre;
      [discriminate|].
    simpl in Hnd.
    assert (Hfresh : dict_get k tasks = None).
    { apply dict_get_None. apply NoDup_remove_2 in Hnd. rewrite in_app_iff in Hnd. tauto. }
    assert (Hext : extends tasks (dict_set k T tasks)).
    { intros k' T' H. rewrite dict_get_set_ne; auto. intros <-. congruence. }
    assert (Hstep : tasked dag (dict_set k T tasks)
                      (TopologicalSorter.add ts n (map Task.task_id preds)) (S n)).
    { destruct Ht as [Hids Hndk Hwf Hnodes Hedges Htask].
      assert (Hids' : task_ids (dict_set k T tasks) = seq 0 (S n)).
      { rewrite (dict_set_fresh _ _ _ Hfresh). unfold task_ids in *.
        rewrite map_app, seq_S. simpl. f_equal. exact Hids. }
      split.
      - exact Hids'.
      - now apply NoDup_keys_dict_set.
      - now apply TopologicalSorterFacts.add_wf.
      - intros i. rewrite TopologicalSorterFacts.add_keys, Hnodes. split; [|lia].
        intros [->|[Hi|Hi]]; [lia | | lia].
        apply in_map_iff in Hi. destruct Hi as (D & <- & HD).
        destruct (predecessor_tasks_table _ _ _ _ Hpre HD) as (p & _ & Hp).
        apply dict_get_In in Hp.
        assert (Hin : In (Task.task_id D) (task_ids (dict_set k T tasks))).
        { unfold task_ids. apply in_map_iff. eexists; split; [|exact Hp]. reflexivity. }
        rewrite Hids' in Hin. apply in_seq in Hin. lia.
      - intros a b Hab. apply TopologicalSorterFacts.add_edge in Hab.
        destruct Hab as [Hab|[Ha ->]]; [apply Hedges in Hab; lia|].
        apply in_map_iff in Ha. destruct Ha as (D & <- & HD).
        destruct (predecessor_tasks_table _ _ _ _ Hpre HD) as (p & Hp & HpD).
        unfold task_of in HpD.
        destruct (Nat.eq_dec k (cache_key (heap (dependency p)))) as [E|Hne].
        + exfalso. apply (Hself dep params p Hdag Hp). now rewrite <- E.
        + rewrite dict_get_set_ne in HpD by auto. apply dict_get_In in HpD.
          assert (Hin : In (Task.task_id D) (task_ids tasks)).
          { unfold task_ids. apply in_map_iff. eexists; split; [|exact HpD]. reflexivity. }
          rewrite Hids in Hin. apply in_seq in Hin. lia.
      - intros k' T'. destruct (Nat.eq_dec k k') as [<-|Hne].
        + rewrite dict_get_set_eq. intros [= <-]. simpl.
          repeat (split; [reflexivity || assumption|]).
          exists params, preds. repeat split; auto.
          * eapply collect_parameters_extends; eauto.
          * intros D HD. apply TopologicalSorterFacts.add_edge. right.
            split; [now apply in_map | reflexivity].
        + rewrite dict_get_set_ne by auto. intros H.
          apply (built_extends dag tasks _ ts); auto.
          intros x y Hxy. apply TopologicalSorterFacts.add_edge. now left. }
    intros Hloop.
    assert (Hnd' : NoDup (keys (dict_set k T tasks) ++ topsorted_keys topsorted)).
    { rewrite (dict_set_fresh _ _ _ Hfresh). unfold keys. rewrite map_app. simpl.
      rewrite <- app_assoc. exact Hnd. }
    destruct (IH _ _ _ _ _ Hstep Hnd' Hloop) as (H1 & H2 & H3 & H4).
    split; [exact H1|]. split; [|split].
    + intros k' T' H. apply H2. now apply Hext.
    + rewrite H3, (dict_set_fresh _ _ _ Hfresh). unfold keys. rewrite map_app. simpl.
      now rewrite <- app_assoc.
    + constructor; [discriminate | exact H4].
  - discriminate.
Qed.

Lemma find_by_id (l : list Task.t) T :
  In T l -> NoDup (map Task.task_id l) ->
  find (fun task => Task.task_id task =? Task.task_id T) l = Some T.
Proof.
  induction l as [|T' l IH]; simpl; intros Hin Hnd; [destruct Hin|].
  inversion Hnd as [|? ? Hn Hnd']; subst.
  destruct Hin as [->|Hin]; [now rewrite Nat.eqb_refl|].
  destruct (Nat.eqb_spec (Task.task_id T') (Task.task_id T)) as [E|_]; [|now apply IH].
  exfalso. apply Hn. rewrite E. now apply in_map.
Qed.

(** Tasks are found by their [task_id]. *)
Lemma task_with_id_found dag tasks ts n k T :
  tasked dag tasks ts n -> dict_get k tasks = Some T ->
  task_with_id tasks (Task.task_id T) = Some T.
Proof.
  intros Ht Hk. apply find_by_id.
  - eapply dict_get_values; eauto.
  - rewrite map_map. assert (H := t_ids _ _ _ _ Ht). unfold task_ids in H.
    assert (E : map (fun x : CacheKey * Task.t => Task.task_id (snd x)) tasks = seq 0 n)
      by exact H.
    rewrite E. apply seq_NoDup.
Qed.

Lemma task_with_id_some tasks i T :
  task_with_id tasks i = Some T -> In T (map snd tasks) /\ Task.task_id T = i.
Proof.
  unfold task_with_id. intros H. apply find_some in H. destruct H as [H1 H2].
  apply Nat.eqb_eq in H2. auto.
Qed.

End Tasking.


(** ** From the graph to the plan *)

Lemma NoDup_map_filter {A B} (f : A -> B) (g : A -> bool) l :
  NoDup (map f l) -> NoDup (map f (filter g l)).
Proof.
  induction l as [|a l IH]; simpl; [constructor|].
  intros H. inversion H as [|? ? Hn Hnd]; subst.
  destruct (g a); simpl; [constructor|]; auto.
  intros Hin. apply Hn. apply in_map_iff in Hin. destruct Hin as (x & Hx & Hin).
  apply filter_In in Hin. rewrite <- Hx. apply in_map. tauto.
Qed.

Lemma tasks_with_ids_app tasks a b :
  tasks_with_ids tasks (a ++ b) = tasks_with_ids tasks a ++ tasks_with_ids tasks b.
Proof.
  induction a as [|i a IH]; simpl; [reflexivity|].
  destruct (task_with_id tasks i); simpl; now rewrite IH.
Qed.

Lemma tasks_with_ids_In tasks ids T :
  In T (tasks_with_ids tasks ids) <-> exists i, In i ids /\ task_with_id tasks i = Some T.
Proof.
  induction ids as [|i ids IH]; simpl.
  - split; [intros [] | intros (i & [] & _)].
  - destruct (task_with_id tasks i) as [T'|] eqn:E; simpl; rewrite IH; split.
    + intros [<-|(j & Hj & Hf)]; eauto.
    + intros (j & [<-|Hj] & Hf); [left; congruence | eauto].
    + intros (j & Hj & Hf); eauto.
    + intros (j & [<-|Hj] & Hf); [congruence | eauto].
Qed.

Section Solved.
Variable heap : Heap.
Variable binds : list BindHook.

(** [depends st k1 k2]: a node with a call that was expanded under the key
    [k1] has a parameter bound to a node with a call and the key [k2]. *)
Definition depends (st : State) (k1 k2 : CacheKey) : Prop :=
  exists d params p,
    dict_get d (param_graph st) = Some params /\ has_call heap d = true /\
    In p params /\ has_call heap (dependency p) = true /\
    cache_key (heap d) = k1 /\ cache_key (heap (dependency p)) = k2.

(** The cache keys the first sorter is told about. *)
Definition sorted_key (st : State) (k : CacheKey) : Prop :=
  exists d params,
    dict_get d (param_graph st) = Some params /\ has_call heap d = true /\
    (k = cache_key (heap d) \/
     exists p, In p params /\ has_call heap (dependency p) = true /\
               k = cache_key (heap (dependency p))).

Definition key_entry (e : Dependant * list DependencyParameter) : CacheKey * list CacheKey :=
  (cache_key (heap (fst e)), map (fun p => cache_key (heap (dependency p))) (snd e)).

Lemma key_graph_from computable : forall g,
  NoDup (keys g ++ map (fun e => cache_key (heap (fst e))) computable) ->
  fold_left
    (fun g '(dep, params) =>
       dict_set (cache_key (heap dep))
                (map (fun p => cache_key (heap (dependency p))) params) g)
    computable g = g ++ map key_entry computable.
Proof.
  induction computable as [|[d ps] l IH]; intros g Hnd; simpl.
  - now rewrite app_nil_r.
  - simpl in Hnd. rewrite IH.
    + rewrite dict_set_fresh.
      * rewrite <- app_assoc. reflexivity.
      * apply dict_get_None. apply NoDup_remove_2 in Hnd. rewrite in_app_iff in Hnd. tauto.
    + rewrite dict_set_fresh.
      * unfold keys. rewrite map_app. simpl. rewrite <- app_assoc. exact Hnd.
      * apply dict_get_None. apply NoDup_remove_2 in Hnd. rewrite in_app_iff in Hnd. tauto.
Qed.

Lemma computable_In pg d ps :
  In (d, ps) (computable_param_graph heap pg) <->
  exists params, In (d, params) pg /\ has_call heap d = true /\
                 ps = filter (fun p => has_call heap (dependency p)) params.
Proof.
  unfold computable_param_graph. rewrite in_map_iff. split.
  - intros ([d' params] & [= <- <-] & Hin). apply filter_In in Hin. exists params. tauto.
  - intros (params & Hin & Hc & ->). exists (d, params). split; [reflexivity|].
    apply filter_In. tauto.
Qed.

Lemma computable_keys pg :
  keys (computable_param_graph heap pg) = filter (has_call heap) (keys pg).
Proof.
  unfold computable_param_graph, keys.
  induction pg as [|[d params] pg IH]; simpl; [reflexivity|].
  destruct (has_call heap d); simpl; now rewrite IH.
Qed.

Lemma computable_get pg d :
  dict_get d (computable_param_graph heap pg) =
  if has_call heap d
  then option_map (filter (fun p => has_call heap (dependency p))) (dict_get d pg)
  else None.
Proof.
  unfold computable_param_graph.
  induction pg as [|[d' params] pg IH]; simpl.
  - now destruct (has_call heap d).
  - destruct (has_call heap d') eqn:Ec; simpl.
    + destruct (Nat.eqb_spec d d'); subst; [now rewrite Ec | exact IH].
    + destruct (Nat.eqb_spec d d'); subst; [now rewrite Ec in * | exact IH].
Qed.

Lemma expanded_keys root st :
  building heap binds root st -> map (fun d => cache_key (heap d)) (expanded st) = keys (dependants st).
Proof.
  intros Hb. unfold expanded, keys. rewrite map_map. apply map_ext_in.
  intros [k d] Hin. simpl. apply (bg_key _ _ _ _ Hb).
  apply In_dict_get; [apply (bg_nodup _ _ _ _ Hb) | exact Hin].
Qed.

Lemma map_key_fst {V} (l : list (Dependant * V)) :
  map (fun e => cache_key (heap (fst e))) l = map (fun d => cache_key (heap d)) (keys l).
Proof. unfold keys. now rewrite map_map. Qed.

Lemma key_graph_eq root st :
  building heap binds root st ->
  key_graph heap (computable_param_graph heap (param_graph st)) =
  map key_entry (computable_param_graph heap (param_graph st)).
Proof.
  intros Hb. unfold key_graph. rewrite key_graph_from; [reflexivity|]. simpl.
  rewrite map_key_fst, computable_keys, (bg_graph_keys _ _ _ _ Hb).
  apply NoDup_map_filter. pose proof (bg_nodup _ _ _ _ Hb) as Hnd.
  rewrite <- (expanded_keys root st Hb) in Hnd. exact Hnd.
Qed.

Definition key_sorter (st : State) : TopologicalSorter.t :=
  TopologicalSorter.of_graph (key_graph heap (computable_param_graph heap (param_graph st))).

Lemma pg_nodup root st : building heap binds root st -> NoDup (keys (param_graph st)).
Proof.
  intros Hb. rewrite (bg_graph_keys _ _ _ _ Hb).
  apply (NoDup_map_inv (fun d => cache_key (heap d))).
  pose proof (bg_nodup _ _ _ _ Hb) as Hnd.
  rewrite <- (expanded_keys root st Hb) in Hnd. exact Hnd.
Qed.

Lemma key_graph_In root st k preds :
  building heap binds root st ->
  (In (k, preds) (key_graph heap (computable_param_graph heap (param_graph st))) <->
   exists d params, dict_get d (param_graph st) = Some params /\ has_call heap d = true /\
     k = cache_key (heap d) /\
     preds = map (fun p => cache_key (heap (dependency p)))
                 (filter (fun p => has_call heap (dependency p)) params)).
Proof.
  intros Hb. rewrite (key_graph_eq root st Hb), in_map_iff. split.
  - intros ([d ps] & [= <- <-] & Hin). apply computable_In in Hin.
    destruct Hin as (params & Hin & Hc & ->). exists d, params. simpl.
    repeat split; auto. apply In_dict_get; [eapply pg_nodup; eauto | exact Hin].
  - intros (d & params & Hd & Hc & -> & ->).
    exists (d, filter (fun p => has_call heap (dependency p)) params).
    split; [reflexivity|]. apply computable_In. exists params. repeat split; auto.
    now apply dict_get_In.
Qed.

Lemma key_sorter_edge root st x y :
  building heap binds root st ->
  (TopologicalSorterFacts.edge (key_sorter st) x y <-> depends st y x).
Proof.
  intros Hb. unfold key_sorter. rewrite TopologicalSorterFacts.of_graph_edge.
  unfold TopologicalSorterFacts.graph_edge, depends. split.
  - intros (preds & Hin & Hx). apply (key_graph_In root st _ _ Hb) in Hin.
    destruct Hin as (d & params & Hd & Hc & -> & ->).
    apply in_map_iff in Hx. destruct Hx as (p & <- & Hp). apply filter_In in Hp.
    exists d, params, p. tauto.
  - intros (d & params & p & Hd & Hc & Hp & Hpc & <- & <-).
    exists (map (fun p => cache_key (heap (dependency p)))
                (filter (fun p => has_call heap (dependency p)) params)).
    split.
    + apply (key_graph_In root st _ _ Hb). exists d, params. auto.
    + apply in_map_iff. exists p. split; [reflexivity|]. apply filter_In. auto.
Qed.

Lemma key_sorter_keys root st k :
  building heap binds root st ->
  (In k (keys (key_sorter st)) <-> sorted_key st k).
Proof.
  intros Hb. unfold key_sorter. rewrite TopologicalSorterFacts.of_graph_keys.
  unfold TopologicalSorterFacts.graph_nodes, sorted_key. split.
  - intros (node & preds & Hin & Hk). apply (key_graph_In root st _ _ Hb) in Hin.
    destruct Hin as (d & params & Hd & Hc & -> & ->). exists d, params.
    repeat split; auto. destruct Hk as [->|Hk]; [now left|]. right.
    apply in_map_iff in Hk. destruct Hk as (p & <- & Hp). apply filter_In in Hp.
    exists p. tauto.
  - intros (d & params & Hd & Hc & Hk).
    exists (cache_key (heap d)),
           (map (fun p => cache_key (heap (dependency p)))
                (filter (fun p => has_call heap (dependency p)) params)).
    split.
    + apply (key_graph_In root st _ _ Hb). exists d, params. auto.
    + destruct Hk as [->|(p & Hp & Hpc & ->)]; [now left|]. right.
      apply in_map_iff. exists p. split; [reflexivity|]. apply filter_In. auto.
Qed.

Lemma clos_trans_converse {A} (R S : relation A) :
  (forall x y, R x y -> S y x) -> forall x y, clos_trans A R x y -> clos_trans A S y x.
Proof.
  intros H x y Hxy. induction Hxy as [x y Hxy|x y z _ IH1 _ IH2].
  - apply t_step. auto.
  - eapply t_trans; eauto.
Qed.

(** *** Paths *)

Fixpoint is_path (edge : Dependant -> Dependant -> Prop) (l : list Dependant) : Prop :=
  match l with
  | a :: (b :: _) as rest => edge a b /\ is_path edge rest
  | _ => True
  end.

(** [b] is what a parameter of [a] is bound to. *)
Definition bound_to (a b : Dependant) : Prop :=
  exists p, In p (post_bind heap binds a) /\ dependency p = b.


(** One step up the parent map. *)
Definition parent_of (parents : list (Dependant * Dependant)) (a b : Dependant) : Prop :=
  dict_get a parents = Some b.

Lemma is_path_reach (R : Dependant -> Dependant -> Prop) l : forall a b,
  is_path R (a :: l) -> In b l -> clos_trans Dependant R a b.
Proof.
  induction l as [|x l IH]; intros a b Hp Hb; [destruct Hb|].
  simpl in Hp. destruct Hp as [Hax Hp]. destruct Hb as [->|Hb].
  - now apply t_step.
  - eapply t_trans; [apply t_step; exact Hax | now apply IH].
Qed.

Lemma is_path_tail (R : Dependant -> Dependant -> Prop) a l :
  is_path R (a :: l) -> is_path R l.
Proof. destruct l; simpl; tauto. Qed.

Lemma path_repeat (R : Dependant -> Dependant -> Prop) l :
  is_path R l -> ~ NoDup l -> exists x, In x l /\ clos_trans Dependant R x x.
Proof.
  induction l as [|a l IH]; intros Hp Hnd.
  - exfalso. apply Hnd. constructor.
  - destruct (in_dec Nat.eq_dec a l) as [Hin|Hout].
    + exists a. split; [now left|]. now apply (is_path_reach R l).
    + destruct IH as (x & Hx & Hc).
      * now apply (is_path_tail R a).
      * intros H. apply Hnd. now constructor.
      * exists x. split; [now right | exact Hc].
Qed.

(** A walk that is cut short has visited one node more than its fuel, each
    with a parent. *)
Lemma path_up_None parents fuel : forall dep,
  path_up fuel parents dep = None ->
  exists l, List.length l = fuel /\ is_path (parent_of parents) (dep :: l) /\
            incl (dep :: l) (keys parents).
Proof.
  induction fuel as [|fuel IH]; intros dep; simpl;
    destruct (dict_get dep parents) as [parent|] eqn:E; try discriminate.
  - intros _. exists []. split; [reflexivity|]. split; [exact I|].
    intros x [<-|[]]. eapply dict_get_Some_keys; eauto.
  - destruct (path_up fuel parents parent) as [chain|] eqn:Ep; [discriminate|]. intros _.
    destruct (IH parent Ep) as (l & Hlen & Hpath & Hincl).
    exists (parent :: l). split; [simpl; now rewrite Hlen|]. split.
    + simpl. split; [exact E | exact Hpath].
    + intros x [<-|Hx]; [eapply dict_get_Some_keys; eauto | now apply Hincl].
Qed.

Lemma keys_length {V} (d : list (nat * V)) : List.length (keys d) = List.length d.
Proof. apply length_map. Qed.

(** When [get_path] does not return, the walk runs into a cycle of the
    parent map. *)
Lemma get_path_None parents dep :
  get_path dep parents = None ->
  exists x, (x = dep \/ clos_trans Dependant (parent_of parents) dep x) /\
            clos_trans Dependant (parent_of parents) x x.
Proof.
  unfold get_path. destruct (path_up (List.length parents) parents dep) eqn:E; [discriminate|].
  intros _. destruct (path_up_None _ _ _ E) as (l & Hlen & Hpath & Hincl).
  destruct (path_repeat (parent_of parents) (dep :: l) Hpath) as (x & Hx & Hc).
  - intros Hnd. apply (NoDup_incl_length Hnd) in Hincl.
    rewrite keys_length in Hincl. simpl in Hincl.
    apply (Nat.nle_succ_diag_l (List.length l)). etransitivity; [exact Hincl|].
    rewrite Hlen. apply Nat.le_refl.
  - exists x. split; [|exact Hc]. destruct Hx as [<-|Hx]; [now left|].
    right. now apply (is_path_reach (parent_of parents) l).
Qed.

Lemma parent_cycle_step parents x y :
  clos_trans Dependant (parent_of parents) x x -> parent_of parents x y ->
  clos_trans Dependant (parent_of parents) y y.
Proof.
  intros Hc Hxy. apply clos_trans_t1n in Hc.
  inversion Hc as [y' Hxy'|y' z Hxy' Hrest]; subst.
  - unfold parent_of in *. assert (y = x) by congruence. subst. now apply t_step.
  - unfold parent_of in Hxy, Hxy'. assert (y' = y) by congruence. subst y'.
    apply clos_t1n_trans in Hrest. eapply t_trans; [exact Hrest | now apply t_step].
Qed.

Lemma path_up_cycle parents fuel : forall x,
  clos_trans Dependant (parent_of parents) x x -> path_up fuel parents x = None.
Proof.
  induction fuel as [|fuel IH]; intros x Hc; simpl.
  - apply clos_trans_t1n in Hc. inversion Hc as [y H|y z H _]; subst;
      unfold parent_of in H; now rewrite H.
  - assert (Hy : exists y, parent_of parents x y).
    { apply clos_trans_t1n in Hc. inversion Hc; subst; eauto. }
    destruct Hy as (y & Hy). assert (Hy' := Hy). unfold parent_of in Hy'. rewrite Hy'.
    rewrite (IH y); [reflexivity|]. eapply parent_cycle_step; eauto.
Qed.

Lemma path_up_into_cycle parents x :
  clos_trans Dependant (parent_of parents) x x ->
  forall dep, clos_trans Dependant (parent_of parents) dep x ->
  forall fuel, path_up fuel parents dep = None.
Proof.
  intros Hc dep Hd. apply clos_trans_t1n in Hd.
  induction Hd as [dep x Hstep|dep y x Hstep Hrest IH]; intros fuel.
  - destruct fuel as [|fuel]; simpl; unfold parent_of in Hstep; rewrite Hstep; [reflexivity|].
    now rewrite (path_up_cycle parents fuel x Hc).
  - destruct fuel as [|fuel]; simpl; unfold parent_of in Hstep; rewrite Hstep; [reflexivity|].
    now rewrite (IH Hc fuel).
Qed.

(** As many steps as the parent map has entries decide whether the walk
    ends: a walk that has not ended by then never ends. *)
Lemma path_up_never_ends parents dep :
  path_up (List.length parents) parents dep = None ->
  forall fuel, path_up fuel parents dep = None.
Proof.
  intros E fuel. destruct (get_path_None parents dep) as (x & [->|Hx] & Hc).
  - unfold get_path. now rewrite E.
  - now apply path_up_cycle.
  - now apply (path_up_into_cycle parents x).
Qed.




Lemma parent_bound_to root st a b :
  building heap binds root st -> parent_of (parents st) b a -> bound_to a b.
Proof.
  intros Hb Hab. destruct (bg_parents _ _ _ _ Hb b a Hab) as (params & Hp & Hin).
  destruct (bg_params _ _ _ _ Hb a params Hp) as [-> _].
  apply in_map_iff in Hin. destruct Hin as (p & Hpd & Hin). exists p. auto.
Qed.

Lemma parent_seen root st a b :
  building heap binds root st -> parent_of (parents st) b a -> In a (seen st).
Proof.
  intros Hb Hab. destruct (bg_parents _ _ _ _ Hb b a Hab) as (params & Hp & _).
  assert (Hexp : In a (expanded st)).
  { rewrite <- (bg_graph_keys _ _ _ _ Hb). eapply dict_get_Some_keys; eauto. }
  unfold expanded in Hexp. apply in_map_iff in Hexp.
  destruct Hexp as ([k d] & Hd & Hin). simpl in Hd. subst d.
  apply In_dict_get in Hin; [|apply (bg_nodup _ _ _ _ Hb)].
  destruct (bg_first _ _ _ _ Hb k a Hin) as (l1 & l2 & Hs & _).
  rewrite Hs. apply in_app_iff. right. now left.
Qed.


(** When [get_path] does not return for a node, some node depends on
    itself. *)
Lemma get_path_None_cycle root st dep :
  building heap binds root st -> get_path dep (parents st) = None ->
  exists x, In x (seen st) /\ clos_trans Dependant bound_to x x.
Proof.
  intros Hb Hnone. destruct (get_path_None _ _ Hnone) as (x & _ & Hc).
  exists x. split.
  - apply clos_trans_tn1 in Hc. inversion Hc as [H|y z H _]; subst;
      eapply parent_seen; eauto.
  - apply (clos_trans_converse (parent_of (parents st)) bound_to); [|exact Hc].
    intros a b. apply (parent_bound_to root st b a Hb).
Qed.

(** *** Where graph building stops *)

Lemma solve_graph_ended fuel root o st :
  solve_graph heap binds fuel root = (o, st) ->
  ended heap binds (bind_root heap binds root) o st.
Proof.
  unfold solve_graph. apply build_graph_ended. apply building_initial.
Qed.

Lemma NoDup_split_unique {A} (l1 l2 a b : list A) x :
  NoDup (l1 ++ x :: l2) -> l1 ++ x :: l2 = a ++ x :: b -> l1 = a.
Proof.
  revert a. induction l1 as [|y l1 IH]; intros a Hnd Heq.
  - destruct a as [|z a]; [reflexivity|]. simpl in *. injection Heq as <- Heq.
    inversion Hnd as [|? ? Hn _]; subst. exfalso. apply Hn.
    apply in_app_iff. right. now left.
  - destruct a as [|z a]; simpl in *.
    + injection Heq as -> Heq. inversion Hnd as [|? ? Hn _]; subst. exfalso. apply Hn.
      apply in_app_iff. right. now left.
    + injection Heq as <- Heq. inversion Hnd as [|? ? _ Hnd']; subst.
      f_equal. now apply IH.
Qed.

(** What is known of the state in which graph building stopped, however it
    stopped. *)
Record discovering (st : State) : Prop := {
  dv_nodup : NoDup (seen st);
  dv_graph : forall d params, dict_get d (param_graph st) = Some params ->
    dict_get (cache_key (heap d)) (dependants st) = Some d /\
    params = post_bind heap binds d /\ forall p, In p params -> unwired heap p = None;
  dv_first : forall k f, dict_get k (dependants st) = Some f ->
    cache_key (heap f) = k /\
    exists l1 l2, seen st = l1 ++ f :: l2 /\ forall d, In d l1 -> cache_key (heap d) <> k;
  dv_seen : forall d, In d (seen st) ->
    exists f, dict_get (cache_key (heap d)) (dependants st) = Some f
}.

Lemma building_discovering root st : building heap binds root st -> discovering st.
Proof.
  intros Hb. split.
  - apply (bg_seen_nodup _ _ _ _ Hb).
  - intros d params Hd. destruct (bg_params _ _ _ _ Hb d params Hd) as [H1 H2].
    split; [|auto].
    assert (Hexp : In d (expanded st)).
    { rewrite <- (bg_graph_keys _ _ _ _ Hb). eapply dict_get_Some_keys; eauto. }
    unfold expanded in Hexp. apply in_map_iff in Hexp.
    destruct Hexp as ([k d'] & Hd' & Hin). simpl in Hd'. subst d'.
    apply In_dict_get in Hin; [|apply (bg_nodup _ _ _ _ Hb)].
    now rewrite (bg_key _ _ _ _ Hb k d Hin).
  - intros k f Hf. split; [apply (bg_key _ _ _ _ Hb k f Hf) | apply (bg_first _ _ _ _ Hb k f Hf)].
  - intros d Hd. destruct (bg_seen _ _ _ _ Hb d Hd) as (f & Hf & _). eauto.
Qed.

Lemma discovering_recorded root st dep q' :
  building heap binds root st ->
  dict_get (cache_key (heap dep)) (dependants st) = None ->
  discovering
    {| dependants := dict_set (cache_key (heap dep)) dep (dependants st);
       dep_dag := dep_dag st; param_graph := param_graph st; parents := parents st;
       q := q'; seen := set_add dep (seen st) |}.
Proof.
  intros Hb Hnone. destruct (building_discovering root st Hb) as [Hnd Hg Hf Hs].
  - assert (Hnew : ~ In dep (seen st)).
    { intros H. destruct (Hs dep H) as (f & Hfd). congruence. }
    split; simpl.
    + now apply NoDup_set_add.
    + intros d params Hd. destruct (Hg d params Hd) as (H1 & H2 & H3). split; [|auto].
      rewrite dict_get_set_ne; auto. intros E. rewrite E in Hnone. congruence.
    + intros k f. destruct (set_add_cases dep (seen st)) as [[_ H]|[-> _]]; [contradiction|].
      destruct (Nat.eq_dec (cache_key (heap dep)) k) as [<-|Hne].
      * rewrite dict_get_set_eq. intros [= <-]. split; [reflexivity|].
        exists (seen st), []. split; [reflexivity|].
        intros d Hd E. destruct (Hs d Hd) as (f & Hfd). rewrite E in Hfd. congruence.
      * rewrite dict_get_set_ne by auto. intros Hk. destruct (Hf k f Hk) as (H1 & l1 & l2 & H2 & H3).
        split; [exact H1|]. exists l1, (l2 ++ [dep]). rewrite H2, <- app_assoc. auto.
    + intros d Hd. apply In_set_add in Hd. destruct Hd as [->|Hd].
      * exists dep. apply dict_get_set_eq.
      * destruct (Hs d Hd) as (f & Hfd). exists f. rewrite dict_get_set_ne; auto.
        intros E. rewrite E in Hnone. congruence.
Qed.

Lemma discovering_skipped root st dep q' other :
  building heap binds root st ->
  dict_get (cache_key (heap dep)) (dependants st) = Some other ->
  discovering
    {| dependants := dependants st;
       dep_dag := dep_dag st; param_graph := param_graph st; parents := parents st;
       q := q'; seen := set_add dep (seen st) |}.
Proof.
  intros Hb Hother. destruct (building_discovering root st Hb) as [Hnd Hg Hf Hs].
  - split; simpl; auto.
    + now apply NoDup_set_add.
    + intros k f Hk. destruct (Hf k f Hk) as (H1 & l1 & l2 & H2 & H3). split; [exact H1|].
      destruct (set_add_cases dep (seen st)) as [[-> _]|[-> _]]; [eauto|].
      exists l1, (l2 ++ [dep]). rewrite H2, <- app_assoc. auto.
    + intros d Hd. apply In_set_add in Hd. destruct Hd as [->|Hd]; [eauto | auto].
Qed.

Lemma ended_discovering root o st : ended heap binds root o st -> discovering st.
Proof.
  intros He.
  destruct He as [st Hb _|st dep q' e Hb Hq Hnone _|st dep q' other path Hb Hq Hother _ _|
                  st Hb|st dep q' Hb Hq Hnone _|st dep q' other Hb Hq Hother _ _];
    try (eapply building_discovering; eassumption);
    try (eapply discovering_recorded; eassumption);
    eapply discovering_skipped; eassumption.
Qed.



Lemma expanded_get root st dep :
  building heap binds root st -> In dep (expanded st) ->
  exists params, dict_get dep (param_graph st) = Some params.
Proof.
  intros Hb H. apply In_keys_dict_get. now rewrite (bg_graph_keys _ _ _ _ Hb).
Qed.


(** *** What the traversal reaches *)

(** [d] is reached from [root] along bound parameters. *)
Definition reaches (root d : Dependant) : Prop :=
  clos_refl_trans Dependant bound_to root d.

Lemma build_graph_reaches root fuel : forall st o st',
  building heap binds root st ->
  (forall d, In d (q st) \/ In d (seen st) -> reaches root d) ->
  build_graph heap binds fuel st = (o, st') ->
  forall d, In d (q st') \/ In d (seen st') -> reaches root d.
Proof.
  induction fuel as [|fuel IH]; intros st o st' Hb Hr; simpl.
  - destruct (q st) eqn:Hq; intros [= <- <-]; rewrite Hq; exact Hr.
  - destruct (q st) as [|dep q'] eqn:Hq; [intros [= <- <-]; rewrite Hq; exact Hr|].
    assert (Hstep : forall d, In d q' \/ In d (set_add dep (seen st)) -> reaches root d).
    { intros d [Hd|Hd]; [apply Hr; left; now right|].
      apply In_set_add in Hd. destruct Hd as [->|Hd]; apply Hr; [left; now left|].
      now right. }
    destruct (dict_get (cache_key (heap dep)) (dependants st)) as [other|] eqn:Hd.
    + destruct (Scope_eqb (scope (heap other)) (scope (heap dep))) eqn:Hs.
      * apply IH; [|exact Hstep]. apply Scope_eqb_eq in Hs. eapply building_skip; eauto.
      * destruct (get_path dep (parents st)); intros [= <- <-]; exact Hstep.
    + destruct (get_params heap binds dep (parents st)) as [raised|params] eqn:Hg.
      * intros [= <- <-]. exact Hstep.
      * apply IH; [eapply building_expand; eauto|].
        destruct (get_params_from_ok heap binds dep (parents st) _ _ Hg) as [Hpb _].
        intros d [Hdq|Hds].
        -- apply expand_q in Hdq. simpl in Hdq. destruct Hdq as [Hdq|[Hdq _]]; [auto|].
           apply in_map_iff in Hdq. destruct Hdq as (p & <- & Hp).
           eapply rt_trans; [apply Hr; left; now left|].
           apply rt_step. exists p. split; [|reflexivity]. unfold post_bind. now rewrite <- Hpb.
        -- match type of Hds with
           | In d (seen (expand dep params ?s)) =>
               destruct (expand_fixed dep params s) as (_ & _ & Es)
           end.
           rewrite Es in Hds. simpl in Hds. auto.
Qed.

Lemma closed_universe_reaches U root d :
  closed_universe heap binds U -> In root U -> reaches root d -> In d U.
Proof.
  intros HU Hroot Hr. apply clos_rt_rtn1 in Hr.
  induction Hr as [|y z (p & Hp & <-) _ IH]; [exact Hroot|].
  eapply HU; eauto.
Qed.

(** What the traversal leaves behind, however it stopped: the root has been
    popped, every node popped is reached from the root, and for every node
    popped a node with its cache key is recorded, which was popped too. *)
Definition traversed_from (root : Dependant) (st : State) : Prop :=
  In root (seen st) /\
  (forall d, In d (seen st) -> reaches root d) /\
  (forall d, In d (seen st) ->
     exists f, dict_get (cache_key (heap d)) (dependants st) = Some f /\
               In f (seen st) /\ cache_key (heap f) = cache_key (heap d)).

(** What a traversal that finished has done: the nodes recorded are
    expanded, and whatever a parameter of an expanded node is bound to has
    been popped. *)
Definition traversal_complete (st : State) : Prop :=
  (forall f, In f (expanded st) -> dict_get f (param_graph st) = Some (post_bind heap binds f)) /\
  (forall f p, In f (expanded st) -> In p (post_bind heap binds f) ->
     In (dependency p) (seen st)).

Lemma building_recorded_seen root st k f :
  building heap binds root st -> dict_get k (dependants st) = Some f -> In f (seen st).
Proof.
  intros Hb Hf. destruct (bg_first _ _ _ _ Hb k f Hf) as (l1 & l2 & -> & _).
  apply in_app_iff. right. now left.
Qed.

Lemma ended_root_seen root o st :
  ended heap binds root o st -> o <> OutOfFuel -> In root (seen st).
Proof.
  assert (Hpop : forall st dep q', building heap binds root st -> q st = dep :: q' ->
                   In root (set_add dep (seen st))).
  { intros st0 dep q' Hb Hq. apply In_set_add.
    destruct (bg_root _ _ _ _ Hb) as [H|(_ & H & _)].
    - right. eapply building_recorded_seen; eauto.
    - left. rewrite Hq in H. now injection H as ->. }
  intros He Ho.
  destruct He as [st Hb Hq|st dep q' e Hb Hq _ _|st dep q' other path Hb Hq _ _ _|
                  st Hb|st dep q' Hb Hq _ _|st dep q' other Hb Hq _ _ _];
    simpl; try (eapply Hpop; eassumption); [|congruence].
  destruct (bg_root _ _ _ _ Hb) as [H|(_ & H & _)]; [|rewrite Hq in H; discriminate].
  eapply building_recorded_seen; eauto.
Qed.

Lemma finished_complete root st :
  building heap binds root st -> q st = [] -> traversal_complete st.
Proof.
  intros Hb Hq. split.
  - intros f Hf. destruct (expanded_get root st f Hb Hf) as (params & Hp).
    destruct (bg_params _ _ _ _ Hb _ _ Hp) as [-> _]. exact Hp.
  - intros f p Hf Hp. destruct (expanded_get root st f Hb Hf) as (params & Hg).
    destruct (bg_params _ _ _ _ Hb _ _ Hg) as [-> _].
    destruct (bg_frontier _ _ _ _ Hb _ _ _ Hg Hp) as [H|H]; [exact H|].
    rewrite Hq in H. destruct H.
Qed.

(** On a finite graph, with fuel for it, the loop ends, and leaves what
    [traversed_from] says. *)
Lemma solve_graph_traversal U fuel root :
  closed_universe heap binds U -> In (bind_root heap binds root) U ->
  enough_fuel heap U <= fuel ->
  exists o st,
    solve_graph heap binds fuel root = (o, st) /\ o <> OutOfFuel /\
    ended heap binds (bind_root heap binds root) o st /\
    traversed_from (bind_root heap binds root) st /\
    incl (seen st) U.
Proof.
  intros HU Hroot Hfuel.
  assert (Hterm : fst (solve_graph heap binds fuel root) <> OutOfFuel).
  { unfold solve_graph. apply (build_graph_terminates heap binds U HU).
    - intros x [<-|[]]. exact Hroot.
    - simpl. unfold enough_fuel in Hfuel. unfold weight. simpl. lia. }
  destruct (solve_graph heap binds fuel root) as [o st] eqn:Hg. simpl in Hterm.
  assert (He := solve_graph_ended _ _ _ _ Hg).
  assert (Hreach : forall d, In d (seen st) -> reaches (bind_root heap binds root) d).
  { intros d Hd. unfold solve_graph in Hg.
    apply (build_graph_reaches _ fuel _ _ _ (building_initial heap binds _)) with (d := d) in Hg;
      [exact Hg | | now right].
    simpl. intros x [[<-|[]]|[]]. apply rt_refl. }
  exists o, st. split; [reflexivity|]. split; [exact Hterm|]. split; [exact He|]. split.
  - split; [eapply ended_root_seen; eauto|]. split; [exact Hreach|].
    intros d Hd. destruct (ended_discovering _ _ _ He) as [_ _ Hf Hs].
    destruct (Hs d Hd) as (f & Hfd). exists f. split; [exact Hfd|].
    destruct (Hf _ f Hfd) as (Hk & l1 & l2 & -> & _).
    split; [apply in_app_iff; right; now left | exact Hk].
  - intros d Hd. eapply closed_universe_reaches; eauto.
Qed.



(** *** The two sorts and the task table *)

Lemma solve_topsort_ok root st order :
  building heap binds root st -> solve_topsort heap st = inr order ->
  NoDup order /\ (forall k, In k order <-> sorted_key st k) /\
  (forall k1 k2, depends st k1 k2 -> TopologicalSorterFacts.before k2 k1 order) /\
  (forall k, ~ clos_trans nat (depends st) k k).
Proof.
  intros Hb H. unfold solve_topsort in H. fold (key_sorter st) in H.
  destruct (TopologicalSorterFacts.static_order_sorted (key_sorter st) order
              (TopologicalSorterFacts.of_graph_wf _) H) as (Hac & Hnd & Hin & Hbefore).
  split; [exact Hnd|]. split; [|split].
  - intros k. rewrite Hin. apply (key_sorter_keys root st k Hb).
  - intros k1 k2 Hd. apply Hbefore. now apply (key_sorter_edge root st k2 k1 Hb).
  - intros k Hk. apply (Hac k). revert Hk. apply clos_trans_converse.
    intros x y Hxy. now apply (key_sorter_edge root st y x Hb).
Qed.

Lemma solve_topsort_cycle root st e :
  building heap binds root st -> solve_topsort heap st = inl e ->
  exists x l, e = CycleError (l ++ [x]) /\ clos_trans nat (depends st) x x.
Proof.
  intros Hb H. unfold solve_topsort in H. fold (key_sorter st) in H.
  destruct (TopologicalSorterFacts.static_order_cycle (key_sorter st) e
              (TopologicalSorterFacts.of_graph_wf _) H) as (x & l & -> & Hx).
  exists x, l. split; [reflexivity|]. revert Hx. apply clos_trans_converse.
  intros a b Hab. now apply (key_sorter_edge root st a b Hb).
Qed.

Lemma solve_topsort_acyclic root st :
  building heap binds root st -> (forall k, ~ clos_trans nat (depends st) k k) ->
  exists order, solve_topsort heap st = inr order.
Proof.
  intros Hb Hac. destruct (solve_topsort heap st) as [e|order] eqn:E; [|eauto].
  destruct (solve_topsort_cycle root st e Hb E) as (x & _ & _ & Hx). destruct (Hac x Hx).
Qed.

Lemma topsorted_keys_lookup (D : list (CacheKey * Dependant)) l :
  (forall k d, dict_get k D = Some d -> cache_key (heap d) = k) ->
  topsorted_keys heap (map (fun k => dict_get k D) l) = filter (fun k => dict_mem k D) l.
Proof.
  intros HD. induction l as [|k l IH]; simpl; [reflexivity|]. unfold dict_mem.
  destruct (dict_get k D) as [d|] eqn:E; simpl; rewrite IH; [|reflexivity].
  now rewrite (HD k d E).
Qed.

Lemma lookups_found (D : list (CacheKey * Dependant)) l :
  Forall (fun item => item <> None) (map (fun k => dict_get k D) l) ->
  filter (fun k => dict_mem k D) l = l.
Proof.
  induction l as [|k l IH]; simpl; [reflexivity|]. intros H.
  inversion H as [|? ? Hk Hl]; subst. unfold dict_mem.
  destruct (dict_get k D); [|congruence]. f_equal. now apply IH.
Qed.

Lemma solve_tasks_tasked root st order tasks ts :
  building heap binds root st -> NoDup order ->
  (forall k, ~ clos_trans nat (depends st) k k) ->
  solve_tasks heap st order = inr (tasks, ts) ->
  tasked heap (computable_param_graph heap (param_graph st)) tasks ts (List.length tasks) /\
  keys tasks = order.
Proof.
  intros Hb Hnd Hac H. unfold solve_tasks, build_tasks in H.
  assert (Hself : no_self heap (computable_param_graph heap (param_graph st))).
  { intros dep params p Hd Hp E. rewrite computable_get in Hd.
    destruct (has_call heap dep) eqn:Hc; [|discriminate].
    destruct (dict_get dep (param_graph st)) as [params0|] eqn:Hpg; [|discriminate].
    injection Hd as <-. apply filter_In in Hp. destruct Hp as [Hp Hpc].
    apply (Hac (cache_key (heap dep))). apply t_step. exists dep, params0, p. auto 10. }
  assert (Hk := topsorted_keys_lookup (dependants st) order (bg_key _ _ _ _ Hb)).
  assert (Hnd' : NoDup (keys (@nil (CacheKey * Task.t)) ++
                        topsorted_keys heap (map (fun k => dict_get k (dependants st)) order))).
  { simpl. rewrite Hk. now apply NoDup_filter. }
  destruct (build_tasks_loop_tasked heap _ Hself _ _ _ _ _ _
              (tasked_empty heap (computable_param_graph heap (param_graph st))) Hnd' H)
    as (H1 & _ & H3 & H4).
  split; [exact H1|]. rewrite H3. simpl. rewrite Hk. now apply lookups_found.
Qed.

Lemma compile_inv st root cache :
  compile heap st root = Return cache ->
  exists order tasks ts ids prepared T,
    solve_topsort heap st = inr order /\
    solve_tasks heap st order = inr (tasks, ts) /\
    TopologicalSorter.static_order ts = inr ids /\
    TopologicalSorter.prepare ts = inr prepared /\
    dict_get (cache_key (heap root)) tasks = Some T /\
    cache = {| root_task := T; topological_sorter := prepared;
               static_order := tasks_with_ids tasks ids;
               empty_results := repeat None (List.length tasks) |}.
Proof.
  unfold compile. destruct (solve_topsort heap st) as [e|order] eqn:E1.
  { destruct e; try discriminate. destruct (rev cycle); discriminate. }
  destruct (solve_tasks heap st order) as [e|[tasks ts]] eqn:E2; [discriminate|].
  destruct (TopologicalSorter.static_order ts) as [e|ids] eqn:E3; [discriminate|].
  destruct (TopologicalSorter.prepare ts) as [e|prepared] eqn:E4; [discriminate|].
  destruct (dict_get (cache_key (heap root)) tasks) as [T|] eqn:ET; [|discriminate].
  intros [= <-]. exists order, tasks, ts, ids, prepared, T. repeat split; auto.
Qed.

Lemma solve_inv fuel root scopes plan :
  solve heap binds fuel root scopes = Return plan ->
  exists st cache,
    solve_graph heap binds fuel root = (Finished, st) /\
    compile heap st (bind_root heap binds root) = Return cache /\
    validate_scopes heap scopes (dep_dag st) (parents st) = None /\
    plan = {| solved_dependency := bind_root heap binds root; dag := param_graph st;
              container_cache := cache |}.
Proof.
  unfold solve, solve_graph.
  destruct (build_graph heap binds fuel (initial (bind_root heap binds root))) as [[| | |] st];
    try discriminate.
  destruct (compile heap st (bind_root heap binds root)) as [cache| |] eqn:Ec; try discriminate.
  destruct (validate_scopes heap scopes (dep_dag st) (parents st)) eqn:Ev; [discriminate|].
  intros [= <-]. exists st, cache. repeat split; auto.
Qed.

Lemma NoDup_tasks_with_ids tasks ids : NoDup ids -> NoDup (tasks_with_ids tasks ids).
Proof.
  induction ids as [|i ids IH]; simpl; intros H; [constructor|].
  inversion H as [|? ? Hn Hnd]; subst.
  destruct (task_with_id tasks i) as [T|] eqn:E; [|auto].
  constructor; [|auto]. intros Hin. apply tasks_with_ids_In in Hin.
  destruct Hin as (j & Hj & Hf). apply task_with_id_some in E. apply task_with_id_some in Hf.
  destruct E as [_ E], Hf as [_ Hf]. congruence.
Qed.

(** The order of the tasks, from the order of their identifiers. *)
Lemma tasks_before dag tasks ts n ids kD D kT T :
  tasked heap dag tasks ts n ->
  dict_get kD tasks = Some D -> dict_get kT tasks = Some T ->
  TopologicalSorterFacts.before (Task.task_id D) (Task.task_id T) ids ->
  exists l1 l2, tasks_with_ids tasks ids = l1 ++ T :: l2 /\ In D l1.
Proof.
  intros Ht HD HT (o1 & o2 & -> & Hin).
  exists (tasks_with_ids tasks o1), (tasks_with_ids tasks o2). split.
  - rewrite tasks_with_ids_app. simpl.
    now rewrite (task_with_id_found heap dag tasks ts n kT T Ht HT).
  - apply tasks_with_ids_In. exists (Task.task_id D). split; [exact Hin|].
    now apply (task_with_id_found heap dag tasks ts n kD D Ht HD).
Qed.

Lemma predecessor_tasks_all tasks params preds p :
  predecessor_tasks heap tasks params = inr preds -> In p params ->
  exists D, task_of heap tasks p = Some D /\ In D preds.
Proof.
  intros H Hp. assert (Hs := predecessor_tasks_spec heap _ _ _ H).
  assert (Hin : In (task_of heap tasks p) (map Some preds)).
  { rewrite Hs. now apply in_map. }
  apply in_map_iff in Hin. destruct Hin as (D & HD & Hin). eauto.
Qed.

Lemma values_dict_get {V} (d : list (nat * V)) v :
  NoDup (keys d) -> In v (map snd d) -> exists k, dict_get k d = Some v.
Proof.
  intros Hnd Hin. apply in_map_iff in Hin. destruct Hin as ([k v'] & Hv & Hin).
  simpl in Hv. subst v'. exists k. now apply In_dict_get.
Qed.

(** C1: in the static order of the solved plan every task occurs once, and
    the tasks a task holds as positional or keyword parameters, like the
    task of every dependency of its node that has a call, occur strictly
    before it. *)
Theorem static_order_topological fuel root scopes plan :
  solve heap binds fuel root scopes = Return plan ->
  NoDup (static_order (container_cache plan)) /\
  In (root_task (container_cache plan)) (static_order (container_cache plan)) /\
  (forall T D, In T (static_order (container_cache plan)) ->
     In D (Task.positional_parameters T) \/ In D (map snd (Task.keyword_parameters T)) ->
     exists l1 l2, static_order (container_cache plan) = l1 ++ T :: l2 /\ In D l1) /\
  (forall T p, In T (static_order (container_cache plan)) ->
     In p (post_bind heap binds (Task.dependant T)) ->
     has_call heap (dependency p) = true ->
     exists D l1 l2, static_order (container_cache plan) = l1 ++ T :: l2 /\ In D l1 /\
                     Task.cache_key D = cache_key (heap (dependency p))).
Proof.
  intros Hsolve. destruct (solve_inv _ _ _ _ Hsolve) as (st & cache & Hg & Hc & _ & ->).
  apply solve_graph_ended in Hg. inversion Hg as [st' Hb Hq| | | | |]; subst. clear Hg.
  destruct (compile_inv _ _ _ Hc) as (order & tasks & ts & ids & prepared & Troot &
                                      Hsort & Htasks & Hids & _ & Hroot & ->).
  simpl. clear Hc Hsolve.
  destruct (solve_topsort_ok _ _ _ Hb Hsort) as (Hnd & _ & _ & Hac).
  destruct (solve_tasks_tasked _ _ _ _ _ Hb Hnd Hac Htasks) as (Ht & _).
  destruct (TopologicalSorterFacts.static_order_sorted ts ids (t_wf _ _ _ _ _ Ht) Hids)
    as (_ & Hndids & Hinids & Hbefore).
  assert (Hfind : forall T, In T (tasks_with_ids tasks ids) ->
                    exists k, dict_get k tasks = Some T).
  { intros T HT. apply tasks_with_ids_In in HT. destruct HT as (i & _ & Hi).
    apply task_with_id_some in Hi. destruct Hi as [Hi _].
    apply values_dict_get; [apply (t_nodup _ _ _ _ _ Ht) | exact Hi]. }
  split; [now apply NoDup_tasks_with_ids|]. split; [|split].
  - apply tasks_with_ids_In. exists (Task.task_id Troot). split.
    + apply Hinids. apply (t_nodes _ _ _ _ _ Ht). eapply tasked_id_bound; eauto.
    + eapply task_with_id_found; eauto.
  - intros T D HT HD. destruct (Hfind T HT) as (kT & HkT).
    destruct (t_task _ _ _ _ _ Ht kT T HkT)
      as (_ & _ & _ & _ & _ & params & preds & Hdag & Hcol & Hpre & Hedge).
    destruct (collect_parameters_from_table heap _ _ _ _ _ _ Hcol D HD)
      as [[]|[[]|(p & Hp & HpD)]].
    assert (HDp : In D preds) by (eapply predecessor_tasks_In; eauto).
    eapply tasks_before; eauto.
  - intros T p HT Hp Hcall. destruct (Hfind T HT) as (kT & HkT).
    destruct (t_task _ _ _ _ _ Ht kT T HkT)
      as (_ & _ & _ & _ & _ & params & preds & Hdag & Hcol & Hpre & Hedge).
    rewrite computable_get in Hdag.
    destruct (has_call heap (Task.dependant T)); [|discriminate].
    destruct (dict_get (Task.dependant T) (param_graph st)) as [params0|] eqn:Hpg; [|discriminate].
    injection Hdag as <-. destruct (bg_params _ _ _ _ Hb _ _ Hpg) as [-> _].
    assert (Hin : In p (filter (fun p => has_call heap (dependency p))
                               (post_bind heap binds (Task.dependant T)))).
    { apply filter_In. auto. }
    destruct (predecessor_tasks_all _ _ _ _ Hpre Hin) as (D & HD & HDp).
    destruct (tasks_before _ _ _ _ ids _ D kT T Ht HD HkT) as (l1 & l2 & H1 & H2); auto.
    exists D, l1, l2. repeat split; auto.
    destruct (t_task _ _ _ _ _ Ht _ D HD) as (HDk & _). exact HDk.
Qed.

(** *** When the tasks can be built *)

Lemma tasked_static_order dag tasks ts n :
  tasked heap dag tasks ts n ->
  exists ids prepared,
    TopologicalSorter.static_order ts = inr ids /\ TopologicalSorter.prepare ts = inr prepared.
Proof.
  intros Ht.
  assert (Hac : TopologicalSorterFacts.acyclic ts).
  { assert (Hlt : forall a b, clos_trans nat (TopologicalSorterFacts.edge ts) a b -> a < b).
    { intros a b H. induction H as [a b H|a b c _ IH1 _ IH2].
      - apply (t_edges _ _ _ _ _ Ht a b H).
      - lia. }
    intros x Hx. apply Hlt in Hx. lia. }
  destruct (TopologicalSorterFacts.static_order_acyclic ts (t_wf _ _ _ _ _ Ht) Hac) as (ids & Hids).
  exists ids. assert (Hids' := Hids). unfold TopologicalSorter.static_order in Hids'.
  destruct (TopologicalSorter.prepare ts) as [e|prepared]; [discriminate|].
  exists prepared. split; [exact Hids | reflexivity].
Qed.

Lemma collect_parameters_raise tasks params : forall pos0 kw0 e,
  collect_parameters heap tasks params pos0 kw0 = inl e -> e = KeyError.
Proof.
  induction params as [|p params IH]; intros pos0 kw0 e; simpl; [discriminate|].
  destruct (parameter p) as [prm|]; [|apply IH].
  destruct (dict_get (cache_key (heap (dependency p))) tasks); [|now intros [= <-]].
  destruct (kind prm); apply IH.
Qed.

Lemma predecessor_tasks_raise tasks params e :
  predecessor_tasks heap tasks params = inl e -> e = KeyError.
Proof.
  induction params as [|p params IH]; simpl; [discriminate|].
  destruct (dict_get (cache_key (heap (dependency p))) tasks); [|now intros [= <-]].
  destruct (predecessor_tasks heap tasks params); [|discriminate].
  intros [= <-]. now apply IH.
Qed.

Lemma build_tasks_loop_raise dag :
  (forall dep params, dict_get dep dag = Some params -> has_call heap dep = true) ->
  forall topsorted ts tasks n e,
  build_tasks_loop heap dag topsorted ts tasks n = inl e -> e = KeyError.
Proof.
  intros Hdag. induction topsorted as [|[dep|] topsorted IH]; intros ts tasks n e; simpl.
  - discriminate.
  - destruct (dict_get dep dag) as [params|] eqn:Hd; [|now intros [= <-]].
    destruct (collect_parameters heap tasks params [] []) as [e'|[pos kw]] eqn:Hcol.
    { intros [= <-]. eapply collect_parameters_raise; eauto. }
    assert (Hc := Hdag dep params Hd). unfold has_call in Hc.
    destruct (call (heap dep)) as [c|]; [|discriminate].
    match goal with |- context [predecessor_tasks heap ?t params] =>
      destruct (predecessor_tasks heap t params) as [e'|preds] eqn:Hpre end.
    { intros [= <-]. eapply predecessor_tasks_raise; eauto. }
    apply IH.
  - now intros [= <-].
Qed.

Lemma collect_parameters_total tasks params : forall pos0 kw0,
  (forall p, In p params -> dict_get (cache_key (heap (dependency p))) tasks <> None) ->
  exists r, collect_parameters heap tasks params pos0 kw0 = inr r.
Proof.
  induction params as [|p params IH]; intros pos0 kw0 H; simpl; [eauto|].
  assert (H' : forall p', In p' params ->
            dict_get (cache_key (heap (dependency p'))) tasks <> None).
  { intros p' Hp'. apply H. now right. }
  destruct (parameter p) as [prm|]; [|now apply IH].
  specialize (H p (or_introl eq_refl)).
  destruct (dict_get (cache_key (heap (dependency p))) tasks); [|congruence].
  destruct (kind prm); now apply IH.
Qed.

Lemma predecessor_tasks_total tasks params :
  (forall p, In p params -> dict_get (cache_key (heap (dependency p))) tasks <> None) ->
  exists r, predecessor_tasks heap tasks params = inr r.
Proof.
  induction params as [|p params IH]; intros H; simpl; [eauto|].
  assert (Hp := H p (or_introl eq_refl)).
  destruct (dict_get (cache_key (heap (dependency p))) tasks); [|congruence].
  destruct IH as (r & ->); [intros p' Hp'; apply H; now right | eauto].
Qed.

(** [buildable dag avail topsorted]: each item of [topsorted] is a node of
    [dag] with a call whose parameters are bound to nodes with keys in
    [avail] or keys of earlier items. *)
Fixpoint buildable (dag : list (Dependant * list DependencyParameter))
    (avail : list CacheKey) (topsorted : list (option Dependant)) : Prop :=
  match topsorted with
  | [] => True
  | None :: _ => False
  | Some dep :: rest =>
      (exists params c, dict_get dep dag = Some params /\ call (heap dep) = Some c /\
         forall p, In p params -> In (cache_key (heap (dependency p))) avail) /\
      buildable dag (avail ++ [cache_key (heap dep)]) rest
  end.

Lemma build_tasks_loop_ok dag : forall topsorted avail ts tasks n,
  (forall k, In k avail -> dict_get k tasks <> None) ->
  buildable dag avail topsorted ->
  exists r, build_tasks_loop heap dag topsorted ts tasks n = inr r.
Proof.
  induction topsorted as [|[dep|] topsorted IH]; intros avail ts tasks n Hav Hb; simpl.
  - eauto.
  - destruct Hb as [(params & c & Hd & Hc & Hp) Hrest]. rewrite Hd.
    destruct (collect_parameters_total tasks params [] []) as ([pos kw] & ->).
    { intros p Hin. apply Hav. now apply Hp. }
    rewrite Hc.
    match goal with |- context [predecessor_tasks heap ?t params] =>
      destruct (predecessor_tasks_total t params) as (preds & ->) end.
    { intros p Hin. destruct (Nat.eq_dec (cache_key (heap dep)) (cache_key (heap (dependency p))))
        as [<-|Hne].
      - rewrite dict_get_set_eq. discriminate.
      - rewrite dict_get_set_ne by auto. apply Hav. now apply Hp. }
    apply (IH (avail ++ [cache_key (heap dep)])); [|exact Hrest].
    intros k Hk. apply in_app_iff in Hk. destruct Hk as [Hk|[<-|[]]].
    + destruct (Nat.eq_dec (cache_key (heap dep)) k) as [<-|Hne].
      * rewrite dict_get_set_eq. discriminate.
      * rewrite dict_get_set_ne by auto. now apply Hav.
    + rewrite dict_get_set_eq. discriminate.
  - destruct Hb.
Qed.

(** Nodes that share a cache key agree on whether they have a call. *)
Definition call_by_key (st : State) : Prop :=
  forall d1 d2, In d1 (seen st) -> In d2 (seen st) ->
    cache_key (heap d1) = cache_key (heap d2) -> has_call heap d1 = has_call heap d2.

(** The cache keys of the discovered nodes that have a call. *)
Definition computable_key (st : State) (k : CacheKey) : Prop :=
  exists d, In d (seen st) /\ has_call heap d = true /\ cache_key (heap d) = k.

Lemma recorded_seen root st k f :
  building heap binds root st -> dict_get k (dependants st) = Some f -> In f (seen st).
Proof.
  intros Hb Hf. destruct (bg_first _ _ _ _ Hb k f Hf) as (l1 & l2 & -> & _).
  apply in_app_iff. right. now left.
Qed.

Lemma sorted_key_computable root st k :
  building heap binds root st -> q st = [] -> sorted_key st k -> computable_key st k.
Proof.
  intros Hb Hq (d & params & Hd & Hc & Hk).
  destruct Hk as [->|(p & Hp & Hpc & ->)].
  - exists d. repeat split; auto.
    destruct (dv_graph _ (building_discovering root st Hb) d params Hd) as (Hdd & _).
    eapply recorded_seen; eauto.
  - exists (dependency p). repeat split; auto.
    destruct (bg_frontier _ _ _ _ Hb d params p Hd Hp) as [H|H]; [exact H|].
    rewrite Hq in H. destruct H.
Qed.

Lemma recorded_expanded root st k f :
  building heap binds root st -> dict_get k (dependants st) = Some f ->
  exists params, dict_get f (param_graph st) = Some params.
Proof.
  intros Hb Hf. apply (expanded_get root st f Hb). unfold expanded.
  eapply dict_get_values; eauto.
Qed.

Lemma computable_key_sorted root st k :
  building heap binds root st -> call_by_key st -> computable_key st k -> sorted_key st k.
Proof.
  intros Hb Hwf (d & Hd & Hc & <-).
  destruct (bg_seen _ _ _ _ Hb d Hd) as (f & Hf & _).
  destruct (recorded_expanded root st _ f Hb Hf) as (params & Hp).
  exists f, params. split; [exact Hp|]. split.
  - rewrite <- Hc. apply Hwf; auto.
    + eapply recorded_seen; eauto.
    + apply (bg_key _ _ _ _ Hb _ f Hf).
  - left. symmetry. apply (bg_key _ _ _ _ Hb _ f Hf).
Qed.

Lemma buildable_suffix root st order :
  building heap binds root st -> q st = [] -> call_by_key st ->
  solve_topsort heap st = inr order ->
  forall l2 l1, order = l1 ++ l2 ->
  buildable (computable_param_graph heap (param_graph st)) l1
            (map (fun k => dict_get k (dependants st)) l2).
Proof.
  intros Hb Hq Hwf Hsort.
  destruct (solve_topsort_ok root st order Hb Hsort) as (Hnd & Hin & Hbefore & _).
  induction l2 as [|k l2 IH]; intros l1 Horder; simpl; [exact I|].
  assert (Hk : In k order) by (rewrite Horder; apply in_app_iff; right; now left).
  apply Hin in Hk. destruct (sorted_key_computable root st k Hb Hq Hk) as (d & Hd & Hc & Hkd).
  destruct (bg_seen _ _ _ _ Hb d Hd) as (f & Hf & _). rewrite Hkd in Hf. rewrite Hf.
  assert (Hkf : cache_key (heap f) = k) by apply (bg_key _ _ _ _ Hb _ f Hf).
  assert (Hcf : has_call heap f = true).
  { rewrite <- Hc. apply Hwf; auto; [eapply recorded_seen; eauto | congruence]. }
  destruct (recorded_expanded root st k f Hb Hf) as (params & Hp).
  split.
  - exists (filter (fun p => has_call heap (dependency p)) params).
    unfold has_call in Hcf. destruct (call (heap f)) as [c|] eqn:Ec; [|discriminate].
    exists c. split; [|split; [reflexivity|]].
    + rewrite computable_get. unfold has_call at 1. rewrite Ec, Hp. reflexivity.
    + intros p Hpin. apply filter_In in Hpin. destruct Hpin as [Hpin Hpc].
      assert (Hdep : depends st k (cache_key (heap (dependency p)))).
      { exists f, params, p. unfold has_call at 1. rewrite Ec. auto 10. }
      destruct (Hbefore _ _ Hdep) as (o1 & o2 & Ho & Hino).
      rewrite Horder in Ho, Hnd.
      now rewrite (NoDup_split_unique _ _ _ _ _ Hnd Ho).
  - rewrite Hkf. apply IH. rewrite Horder, <- app_assoc. reflexivity.
Qed.

Lemma solve_tasks_ok root st order :
  building heap binds root st -> q st = [] -> call_by_key st ->
  solve_topsort heap st = inr order ->
  exists tasks ts, solve_tasks heap st order = inr (tasks, ts).
Proof.
  intros Hb Hq Hwf Hsort. unfold solve_tasks, build_tasks.
  destruct (build_tasks_loop_ok (computable_param_graph heap (param_graph st))
              (map (fun k => dict_get k (dependants st)) order) []
              TopologicalSorter.empty [] 0) as ([tasks ts] & H).
  - intros k [].
  - eapply buildable_suffix; eauto.
  - eauto.
Qed.

Lemma solve_tasks_raise st order e :
  solve_tasks heap st order = inl e -> e = KeyError.
Proof.
  unfold solve_tasks, build_tasks. apply build_tasks_loop_raise.
  intros dep params H. rewrite computable_get in H.
  destruct (has_call heap dep); [reflexivity | discriminate].
Qed.

(** The dependency relation between the cache keys of the nodes of [U]. *)
Definition key_depends (U : list Dependant) (k1 k2 : CacheKey) : Prop :=
  exists d p, In d U /\ In p (post_bind heap binds d) /\
              cache_key (heap d) = k1 /\ cache_key (heap (dependency p)) = k2.

(** The nodes of [U] that share a cache key agree on having a call. *)
Definition keyed_calls (U : list Dependant) : Prop :=
  forall d1 d2, In d1 U -> In d2 U ->
    cache_key (heap d1) = cache_key (heap d2) -> has_call heap d1 = has_call heap d2.

Lemma bound_to_key_depends U : closed_universe heap binds U ->
  forall x y, clos_trans Dependant bound_to x y -> In x U ->
  In y U /\ clos_trans CacheKey (key_depends U) (cache_key (heap x)) (cache_key (heap y)).
Proof.
  intros HU x y Hxy. induction Hxy as [x y (p & Hp & <-)|x y z _ IH1 _ IH2]; intros Hx.
  - split; [eapply HU; eauto|]. apply t_step. exists x, p. auto.
  - destruct (IH1 Hx) as [Hy H1]. destruct (IH2 Hy) as [Hz H2].
    split; [exact Hz|]. eapply t_trans; eauto.
Qed.

Lemma depends_key_depends root st U :
  building heap binds root st -> incl (seen st) U ->
  forall k1 k2, clos_trans nat (depends st) k1 k2 -> clos_trans CacheKey (key_depends U) k1 k2.
Proof.
  intros Hb Hincl k1 k2 H. induction H as [k1 k2 (d & params & p & Hd & _ & Hp & _ & <- & <-)|
                                           k1 k2 k3 _ IH1 _ IH2].
  - apply t_step. exists d, p.
    destruct (dv_graph _ (building_discovering _ st Hb) _ _ Hd) as (Hrec & -> & _).
    split; [|auto]. apply Hincl. eapply building_recorded_seen; eauto.
  - eapply t_trans; eauto.
Qed.

(** A state in which graph building stopped without an answer holds a node
    that depends on itself. *)
Lemma hangs_cycle root st :
  ended heap binds root Hangs st ->
  exists x, In x (seen st) /\ clos_trans Dependant bound_to x x.
Proof.
  intros He. inversion He as [| | | |st0 dep q' Hb Hq Hnone Hget|
                              st0 dep q' other Hb Hq Hother Hne Hpath]; subst; simpl.
  - destruct (get_params_from_raise heap binds dep (parents st0) _ _ Hget)
      as (_ & _ & _ & prm & _ & _ & _ & He').
    destruct (get_path dep (parents st0)) eqn:Hpath; [discriminate|].
    destruct (get_path_None_cycle root st0 dep Hb Hpath) as (x & Hx & Hc).
    exists x. split; [apply In_set_add; now right | exact Hc].
  - destruct (get_path_None_cycle root st0 dep Hb Hpath) as (x & Hx & Hc).
    exists x. split; [apply In_set_add; now right | exact Hc].
Qed.

(** C2: on a finite graph without a cycle between cache keys, in which the
    nodes that share a cache key agree on having a call, [solve] ends; the
    nodes it pops are reached from the root.  When graph building raises
    no error, whatever an expanded node depends on has been popped, the
    sort of the keys succeeds and the task table is built: it holds one
    task for each cache key of a popped node with a call and no other
    task, and the task of a key is built from a node with that key. *)
Theorem one_task_per_cache_key U fuel root scopes :
  closed_universe heap binds U -> In (bind_root heap binds root) U ->
  enough_fuel heap U <= fuel ->
  (forall k, ~ clos_trans CacheKey (key_depends U) k k) ->
  keyed_calls U ->
  solve heap binds fuel root scopes <> Diverge /\
  exists o st,
    solve_graph heap binds fuel root = (o, st) /\ o <> OutOfFuel /\ o <> Hangs /\
    traversed_from (bind_root heap binds root) st /\
    (o = Finished ->
       traversal_complete st /\
       exists order tasks ts,
         solve_topsort heap st = inr order /\
         solve_tasks heap st order = inr (tasks, ts) /\
         NoDup (keys tasks) /\
         (forall k, In k (keys tasks) <-> computable_key st k) /\
         (forall k T, dict_get k tasks = Some T ->
            Task.cache_key T = k /\ cache_key (heap (Task.dependant T)) = k /\
            call (heap (Task.dependant T)) = Some (Task.call T))).
Proof.
  intros HU Hroot Hfuel Hacyclic Hcalls.
  destruct (solve_graph_traversal U fuel root HU Hroot Hfuel)
    as (o & st & Hg & Hterm & He & Htr & Hincl).
  assert (Hhang : o <> Hangs).
  { intros ->. destruct (hangs_cycle _ st He) as (x & Hx & Hc).
    destruct (bound_to_key_depends U HU x x Hc (Hincl x Hx)) as [_ Hk].
    exact (Hacyclic _ Hk). }
  split.
  - unfold solve. assert (Hg' := Hg). unfold solve_graph in Hg'. rewrite Hg'.
    destruct o; [|discriminate|congruence|congruence].
    unfold compile. destruct (solve_topsort heap st) as [e|order].
    { destruct e; try discriminate. destruct (rev cycle); discriminate. }
    destruct (solve_tasks heap st order) as [e|[tasks ts]]; [discriminate|].
    destruct (TopologicalSorter.static_order ts); [discriminate|].
    destruct (TopologicalSorter.prepare ts); [discriminate|].
    destruct (dict_get (cache_key (heap (bind_root heap binds root))) tasks); [|discriminate].
    destruct (validate_scopes heap scopes (dep_dag st) (parents st)); discriminate.
  - exists o, st. split; [exact Hg|]. split; [exact Hterm|]. split; [exact Hhang|].
    split; [exact Htr|].
    intros ->. inversion He as [st' Hb Hq| | | | |]; subst. clear He.
    split; [eapply finished_complete; eauto|].
    assert (Hwf : call_by_key st).
    { intros d1 d2 H1 H2. apply Hcalls; now apply Hincl. }
    assert (Hac : forall k, ~ clos_trans nat (depends st) k k).
    { intros k Hk. apply (Hacyclic k). eapply depends_key_depends; eauto. }
    destruct (solve_topsort_acyclic _ _ Hb Hac) as (order & Hsort).
    destruct (solve_tasks_ok _ _ order Hb Hq Hwf Hsort) as (tasks & ts & Htasks).
    exists order, tasks, ts. split; [exact Hsort|]. split; [exact Htasks|].
    destruct (solve_topsort_ok _ _ _ Hb Hsort) as (Hnd & Hin & _ & _).
    destruct (solve_tasks_tasked _ _ _ _ _ Hb Hnd Hac Htasks) as (Ht & Hkeys).
    split; [apply (t_nodup _ _ _ _ _ Ht)|]. split.
    + intros k. rewrite Hkeys, Hin. split.
      * now apply (sorted_key_computable (bind_root heap binds root)).
      * now apply (computable_key_sorted (bind_root heap binds root)).
    + intros k T HT.
      destruct (t_task _ _ _ _ _ Ht k T HT) as (H1 & H2 & H3 & _). auto.
Qed.

(** *** The errors raised after graph building *)

(** The dependency [p] of [d] lives in a scope declared after, that is
    inside, the scope of [d]. *)
Definition scope_violation (scopes : list Scope) (d p : Dependant) : Prop :=
  exists i j, index_of (scope (heap d)) scopes = Some i /\
              index_of (scope (heap p)) scopes = Some j /\ i < j.

Lemma validate_edges_None scopes dep deps :
  validate_edges heap scopes dep deps = None <->
  forall p, In p deps -> ~ scope_violation scopes dep p.
Proof.
  unfold scope_violation. induction deps as [|p deps IH]; simpl.
  - split; [intros _ p [] | reflexivity].
  - destruct (index_of (scope (heap dep)) scopes) as [i|] eqn:Ei.
    + destruct (index_of (scope (heap p)) scopes) as [j|] eqn:Ej.
      * destruct (Nat.ltb_spec i j) as [Hlt|Hge].
        -- split; [discriminate|]. intros H'. exfalso. apply (H' p (or_introl eq_refl)).
           exists i, j. auto.
        -- rewrite IH. split.
           ++ intros H' p' [<-|Hp']; [|now apply H'].
              intros (i' & j' & Hi' & Hj' & Hlt).
              rewrite Ej in Hj'. injection Hi' as <-. injection Hj' as <-. lia.
           ++ intros H' p' Hp'. apply H'. now right.
      * rewrite IH. split.
        -- intros H' p' [<-|Hp']; [|now apply H'].
           intros (i' & j' & _ & Hj' & _). congruence.
        -- intros H' p' Hp'. apply H'. now right.
    + rewrite IH. split.
      * intros H' p' _ (i' & j' & Hi' & _). discriminate.
      * intros H' p' Hp'. apply H'. now right.
Qed.

Lemma validate_edges_Some scopes dep deps e :
  validate_edges heap scopes dep deps = Some e ->
  exists p, In p deps /\ scope_violation scopes dep p /\
            e = ScopeViolationError dep p (scope (heap dep)) (scope (heap p)).
Proof.
  unfold scope_violation. induction deps as [|p deps IH]; simpl; [discriminate|].
  destruct (index_of (scope (heap dep)) scopes) as [i|] eqn:Ei.
  - destruct (index_of (scope (heap p)) scopes) as [j|] eqn:Ej.
    + destruct (Nat.ltb_spec i j) as [Hlt|Hge].
      * intros [= <-]. exists p. split; [now left|]. split; [|reflexivity]. exists i, j. auto.
      * intros H'. destruct (IH H') as (p' & Hp' & Hv & He). exists p'. auto.
    + intros H'. destruct (IH H') as (p' & Hp' & Hv & He). exists p'. auto.
  - intros H'. destruct (IH H') as (p' & Hp' & Hv & He). exists p'. auto.
Qed.

Lemma validate_scopes_None scopes dag parents :
  validate_scopes heap scopes dag parents = None <->
  forall d deps p, In (d, deps) dag -> In p deps -> ~ scope_violation scopes d p.
Proof.
  induction dag as [|[d deps] dag IH]; simpl.
  - split; [intros _ d deps p [] | reflexivity].
  - destruct (validate_edges heap scopes d deps) as [e|] eqn:Ev.
    + split; [discriminate|]. intros H. exfalso.
      destruct (validate_edges_Some _ _ _ _ Ev) as (p & Hp & Hv & _).
      apply (H d deps p); auto.
    + rewrite IH. split.
      * intros H d' deps' p [[= <- <-]|Hin] Hp; [|eapply H; eauto].
        eapply validate_edges_None; eauto.
      * intros H d' deps' p Hin Hp. eapply H; eauto.
Qed.

Lemma validate_scopes_Some scopes dag parents e :
  validate_scopes heap scopes dag parents = Some e ->
  exists d deps p, In (d, deps) dag /\ In p deps /\ scope_violation scopes d p /\
    e = ScopeViolationError d p (scope (heap d)) (scope (heap p)).
Proof.
  induction dag as [|[d deps] dag IH]; simpl; [discriminate|].
  destruct (validate_edges heap scopes d deps) as [e'|] eqn:Ev.
  - intros [= <-]. destruct (validate_edges_Some _ _ _ _ Ev) as (p & Hp & Hv & He).
    exists d, deps, p. auto.
  - intros H. destruct (IH H) as (d' & deps' & p & Hin & Hp & Hv & He).
    exists d', deps', p. auto.
Qed.

Lemma dep_dag_bound_to root st d deps p :
  building heap binds root st -> In (d, deps) (dep_dag st) -> In p deps -> bound_to d p.
Proof.
  intros Hb Hin Hp.
  assert (Hnd : NoDup (keys (dep_dag st))).
  { rewrite (bg_dag_keys _ _ _ _ Hb). eapply pg_nodup; eauto. }
  apply In_dict_get in Hin; auto. rewrite (bg_dag _ _ _ _ Hb) in Hin.
  destruct (dict_get d (param_graph st)) as [params|] eqn:Hpg; [|discriminate].
  injection Hin as <-. destruct (bg_params _ _ _ _ Hb d params Hpg) as [-> _].
  apply in_map_iff in Hp. destruct Hp as (x & <- & Hx). exists x. auto.
Qed.

(** The result of [compile]: a cache, a cycle, or a failed lookup. *)
Lemma compile_cases root st :
  building heap binds root st -> q st = [] ->
  (exists cache, compile heap st root = Return cache) \/
  (exists dep, compile heap st root = Raise (DependencyCycleError dep) /\
               clos_trans nat (depends st) dep dep /\
               exists e, solve_topsort heap st = inl e) \/
  (compile heap st root = Raise KeyError /\ exists order, solve_topsort heap st = inr order).
Proof.
  intros Hb Hq. unfold compile.
  destruct (solve_topsort heap st) as [e|order] eqn:Hsort.
  - right. left. destruct (solve_topsort_cycle _ _ _ Hb Hsort) as (x & l & -> & Hx).
    rewrite rev_app_distr. simpl. eauto.
  - destruct (solve_topsort_ok _ _ _ Hb Hsort) as (Hnd & _ & _ & Hac).
    destruct (solve_tasks heap st order) as [e|[tasks ts]] eqn:Htasks.
    + right. right. rewrite (solve_tasks_raise _ _ _ Htasks). eauto.
    + destruct (solve_tasks_tasked _ _ _ _ _ Hb Hnd Hac Htasks) as (Ht & _).
      destruct (tasked_static_order _ _ _ _ Ht) as (ids & prepared & -> & ->).
      destruct (dict_get (cache_key (heap root)) tasks); [left | right; right]; eauto.
Qed.


(** C10: a root without a call never yields a plan; when graph building
    finishes and the sort finds no cycle, [solve] stops with [KeyError]; and
    the lookup of the root task in a table that was built succeeds exactly
    when the root has a call. *)
Theorem root_without_call fuel root scopes :
  (call (heap (bind_root heap binds root)) = None ->
   (forall plan, solve heap binds fuel root scopes <> Return plan) /\
   (forall st order, solve_graph heap binds fuel root = (Finished, st) ->
      solve_topsort heap st = inr order ->
      solve heap binds fuel root scopes = Raise KeyError)) /\
  (forall st order tasks ts,
     solve_graph heap binds fuel root = (Finished, st) ->
     solve_topsort heap st = inr order ->
     solve_tasks heap st order = inr (tasks, ts) ->
     (dict_get (cache_key (heap (bind_root heap binds root))) tasks <> None <->
      call (heap (bind_root heap binds root)) <> None)).
Proof.
  assert (Hlookup : forall st order tasks ts,
     solve_graph heap binds fuel root = (Finished, st) ->
     solve_topsort heap st = inr order ->
     solve_tasks heap st order = inr (tasks, ts) ->
     (dict_get (cache_key (heap (bind_root heap binds root))) tasks <> None <->
      call (heap (bind_root heap binds root)) <> None)).
  { intros st order tasks ts Hg Hsort Htasks.
    assert (He := solve_graph_ended _ _ _ _ Hg).
    inversion He as [st' Hb Hq| | | | |]; subst. clear He.
    destruct (solve_topsort_ok _ _ _ Hb Hsort) as (Hnd & Hin & _ & Hac).
    destruct (solve_tasks_tasked _ _ _ _ _ Hb Hnd Hac Htasks) as (Ht & Hkeys).
    assert (Hroot : dict_get (cache_key (heap (bind_root heap binds root))) (dependants st)
                    = Some (bind_root heap binds root)).
    { destruct (bg_root _ _ _ _ Hb) as [H|(_ & H & _)]; [exact H|].
      rewrite Hq in H. discriminate. }
    split.
    - intros Hsome.
      destruct (dict_get (cache_key (heap (bind_root heap binds root))) tasks) as [T|] eqn:ET;
        [|congruence].
      destruct (t_task _ _ _ _ _ Ht _ T ET)
        as (_ & HkT & HcT & _ & _ & params & _ & Hdag & _).
      rewrite computable_get in Hdag.
      destruct (has_call heap (Task.dependant T)); [|discriminate].
      destruct (dict_get (Task.dependant T) (param_graph st)) as [params0|] eqn:Hpg;
        [|discriminate].
      destruct (dv_graph _ (building_discovering _ st Hb) _ _ Hpg) as (Hd & _).
      rewrite HkT, Hroot in Hd. injection Hd as Hd. rewrite Hd. congruence.
    - intros Hcall.
      assert (Hk : In (cache_key (heap (bind_root heap binds root))) (keys tasks)).
      { rewrite Hkeys. apply Hin.
        destruct (recorded_expanded _ st _ _ Hb Hroot) as (params & Hp).
        exists (bind_root heap binds root), params. split; [exact Hp|]. split; [|now left].
        unfold has_call. destruct (call (heap (bind_root heap binds root))); congruence. }
      apply In_keys_dict_get in Hk. destruct Hk as (T & ->). discriminate. }
  split; [|exact Hlookup].
  intros Hnone. split.
  - intros plan Hplan. destruct (solve_inv _ _ _ _ Hplan) as (st & cache & Hg & Hc & _).
    destruct (compile_inv _ _ _ Hc) as (order & tasks & ts & _ & _ & T & Hsort & Htasks & _ & _ & HT & _).
    apply (proj1 (Hlookup st order tasks ts Hg Hsort Htasks)); [congruence | exact Hnone].
  - intros st order Hg Hsort. assert (He := solve_graph_ended _ _ _ _ Hg).
    inversion He as [st' Hb Hq| | | | |]; subst. clear He.
    unfold solve. assert (Hg' := Hg). unfold solve_graph in Hg'. rewrite Hg'.
    destruct (compile_cases (bind_root heap binds root) st Hb Hq)
      as [(cache & Hc)|[(dep & Hc & _ & e & Hsort')|(Hc & _)]].
    + exfalso. destruct (compile_inv _ _ _ Hc)
        as (order' & tasks & ts & _ & _ & T & Hsort' & Htasks & _ & _ & HT & _).
      apply (proj1 (Hlookup st order' tasks ts Hg Hsort' Htasks)); [congruence | exact Hnone].
    + congruence.
    + now rewrite Hc.
Qed.

(** C8: scope validation is the last step of [solve]: a plan is returned
    only if no dependency of a node lives in a scope declared inside the
    scope of the node, and when the steps before it succeed, an edge that
    breaks this makes [solve] raise a scope error naming the two nodes of
    such an edge and their scopes. *)
Theorem scope_violation_raises fuel root scopes :
  (forall plan, solve heap binds fuel root scopes = Return plan ->
     forall d params p, dict_get d (dag plan) = Some params -> In p params ->
       ~ scope_violation scopes d (dependency p)) /\
  (forall st cache d p,
     solve_graph heap binds fuel root = (Finished, st) ->
     compile heap st (bind_root heap binds root) = Return cache ->
     In d (expanded st) -> bound_to d p -> scope_violation scopes d p ->
     exists d' p',
       solve heap binds fuel root scopes =
         Raise (ScopeViolationError d' p' (scope (heap d')) (scope (heap p'))) /\
       In d' (expanded st) /\ bound_to d' p' /\ scope_violation scopes d' p').
Proof.
  split.
  - intros plan Hplan d params p Hd Hp.
    destruct (solve_inv _ _ _ _ Hplan) as (st & cache & Hg & _ & Hv & ->). simpl in Hd.
    assert (He := solve_graph_ended _ _ _ _ Hg).
    inversion He as [st' Hb Hq| | | | |]; subst. clear He.
    apply (proj1 (validate_scopes_None _ _ _) Hv d (map dependency params)).
    + apply dict_get_In. rewrite (bg_dag _ _ _ _ Hb), Hd. reflexivity.
    + now apply in_map.
  - intros st cache d p Hg Hc Hd (x & Hx & <-) Hviol.
    assert (He := solve_graph_ended _ _ _ _ Hg).
    inversion He as [st' Hb Hq| | | | |]; subst. clear He.
    unfold solve. unfold solve_graph in Hg. rewrite Hg, Hc.
    destruct (validate_scopes heap scopes (dep_dag st) (parents st)) as [e|] eqn:Hv.
    + destruct (validate_scopes_Some _ _ _ _ Hv) as (d' & deps & p' & Hin & Hp' & Hviol' & ->).
      exists d', p'. split; [reflexivity|]. split; [|split; auto].
      * rewrite <- (bg_graph_keys _ _ _ _ Hb), <- (bg_dag_keys _ _ _ _ Hb).
        apply (in_map fst) in Hin. exact Hin.
      * eapply dep_dag_bound_to; eauto.
    + exfalso. destruct (expanded_get _ st d Hb Hd) as (params & Hpg).
      destruct (bg_params _ _ _ _ Hb d params Hpg) as [-> _].
      apply (proj1 (validate_scopes_None _ _ _) Hv d
               (map dependency (post_bind heap binds d)) (dependency x)); auto.
      * apply dict_get_In. rewrite (bg_dag _ _ _ _ Hb), Hpg. reflexivity.
      * now apply in_map.
Qed.

(** *** Bind hooks *)

Lemma bind_param_app hooks1 hooks2 p :
  bind_param (hooks1 ++ hooks2) p = bind_param hooks2 (bind_param hooks1 p).
Proof.
  revert p. induction hooks1 as [|h hooks1 IH]; intros p; simpl; [reflexivity|].
  destruct (h (parameter p) (dependency p)); apply IH.
Qed.

Lemma bind_root_app hooks1 hooks2 d :
  bind_root heap (hooks1 ++ hooks2) d = bind_root heap hooks2 (bind_root heap hooks1 d).
Proof.
  revert d. induction hooks1 as [|h hooks1 IH]; intros d; simpl; [reflexivity|].
  destruct (h None d) as [m|]; [destruct (truthy (heap m))|]; apply IH.
Qed.

(** C5: every hook is consulted, in the order of registration, on what the
    hooks before it made of the dependency; a replacement does not end the
    substitution, the hooks after it are applied to it, so the last
    replacement stands.  For a parameter every replacement that is not
    [None] counts; for the root a replacement counts when it is true as a
    Python value, and is passed over otherwise.  The root and the
    parameters of the solved graph are the result. *)
Theorem binds_are_chained :
  (forall hooks1 hook hooks2 p,
     bind_param (hooks1 ++ hook :: hooks2) p =
     match hook (parameter p) (dependency (bind_param hooks1 p)) with
     | Some m => bind_param hooks2 {| dependency := m; parameter := parameter p |}
     | None => bind_param hooks2 (bind_param hooks1 p)
     end) /\
  (forall hooks1 hook hooks2 d,
     bind_root heap (hooks1 ++ hook :: hooks2) d =
     match hook None (bind_root heap hooks1 d) with
     | Some m => if truthy (heap m) then bind_root heap hooks2 m
                 else bind_root heap hooks2 (bind_root heap hooks1 d)
     | None => bind_root heap hooks2 (bind_root heap hooks1 d)
     end) /\
  (forall fuel root scopes plan,
     solve heap binds fuel root scopes = Return plan ->
     solved_dependency plan = bind_root heap binds root /\
     forall d params, dict_get d (dag plan) = Some params ->
       params = map (bind_param binds) (get_dependencies (heap d))).
Proof.
  split; [|split].
  - intros hooks1 hook hooks2 p. rewrite bind_param_app. simpl.
    rewrite bind_param_parameter. reflexivity.
  - intros hooks1 hook hooks2 d. rewrite bind_root_app. simpl.
    destruct (hook None (bind_root heap hooks1 d)) as [m|]; [|reflexivity].
    destruct (truthy (heap m)); reflexivity.
  - intros fuel root scopes plan Hplan.
    destruct (solve_inv _ _ _ _ Hplan) as (st & cache & Hg & _ & _ & ->). simpl.
    split; [reflexivity|]. intros d params Hd.
    assert (He := solve_graph_ended _ _ _ _ Hg).
    apply (dv_graph _ (ended_discovering _ _ _ He) d params Hd).
Qed.

(** *** The parameters of a task *)

(** C6: the task built for a node holds, as positional parameters and in
    the order of the edges, the tasks of the edges whose parameter is
    present and not keyword-only, and under each keyword-only parameter
    name the task of the last edge with that name, and nothing else; an
    edge without a parameter gives the task no parameter. *)
Theorem parameters_are_split fuel root st order tasks ts :
  solve_graph heap binds fuel root = (Finished, st) ->
  solve_topsort heap st = inr order ->
  solve_tasks heap st order = inr (tasks, ts) ->
  forall k T, dict_get k tasks = Some T ->
  exists params,
    dict_get (Task.dependant T) (computable_param_graph heap (param_graph st)) = Some params /\
    map Some (Task.positional_parameters T) =
      map (task_of heap tasks) (filter positional_edge params) /\
    (forall l1 p l2 n, params = l1 ++ p :: l2 -> keyword_edge p = Some n ->
       (forall p', In p' l2 -> keyword_edge p' <> Some n) ->
       kw_get n (Task.keyword_parameters T) = task_of heap tasks p) /\
    (forall n, (forall p, In p params -> keyword_edge p <> Some n) ->
       kw_get n (Task.keyword_parameters T) = None).
Proof.
  intros Hg Hsort Htasks k T HT.
  assert (He := solve_graph_ended _ _ _ _ Hg).
  inversion He as [st' Hb Hq| | | | |]; subst. clear He.
  destruct (solve_topsort_ok _ _ _ Hb Hsort) as (Hnd & _ & _ & Hac).
  destruct (solve_tasks_tasked _ _ _ _ _ Hb Hnd Hac Htasks) as (Ht & _).
  destruct (t_task _ _ _ _ _ Ht k T HT)
    as (_ & _ & _ & _ & _ & params & preds & Hdag & Hcol & _).
  exists params. split; [exact Hdag|].
  destruct (collect_parameters_keyword heap _ _ _ _ _ _ Hcol) as [Hk1 Hk2].
  split; [|split].
  - apply (collect_parameters_positional heap _ _ _ _ _ _ Hcol).
  - exact Hk2.
  - intros n Hn. now rewrite (Hk1 n Hn).
Qed.

End Solved.

(** * The cache rules *)

Module CacheRules.
Import test_caching_rules.

Ltac by_keys :=
  repeat first
    [ rewrite Nat.eqb_refl
    | rewrite (proj2 (Nat.eqb_neq _ _)) by (assumption || (apply not_eq_sym; assumption))
    | progress cbn
    | progress unfold compile, solve_topsort, solve_tasks, computable_param_graph,
        key_graph, has_call, build_tasks, task_with_id, dict_mem, set_add, set_in,
        TopologicalSorter.static_order, TopologicalSorter.get_nodeinfo,
        TopologicalSorter.add_successor, TopologicalSorter.add,
        TopologicalSorter.of_graph, TopologicalSorter.more_predecessors,
        TopologicalSorter.push_successor, TopologicalSorter.prepare,
        TopologicalSorter.find_cycle, TopologicalSorter.successors_of,
        TopologicalSorter.counter_of, TopologicalSorter.get_ready,
        TopologicalSorter.mark, TopologicalSorter.set_counter,
        TopologicalSorter.is_active, TopologicalSorter.release,
        TopologicalSorter.done1, TopologicalSorter.done, TopologicalSorter.empty,
        Engine.execute_sync, Engine.execute_task, Engine.get_result,
        Engine.enter_scope, Engine.exit_scope, bind, run, invoke ].

(** C9: the root of [test_cache_rules_multiple_deps] uses the counter [dep]
    for both of its parameters and is executed twice, each time in an
    execution scope of its own inside one instance of ["scope"].  When both
    uses are cached in ["scope"] under one key, both executions return
    [{0}]; when the first use is not cached and the second is, under keys
    of their own, the first execution returns [{0, 1}] and the second
    [{2, 1}]. *)
Theorem cache_rules_multiple_deps (root_key dep_key fresh_key : CacheKey) :
  root_key <> dep_key -> root_key <> fresh_key -> dep_key <> fresh_key ->
  test_cache_rules_multiple_deps true true (Some "scope"%string) root_key dep_key dep_key
    = inr (VSet [0], VSet [0]) /\
  test_cache_rules_multiple_deps false true (Some "scope"%string) root_key fresh_key dep_key
    = inr (VSet [0; 1], VSet [2; 1]).
Proof.
  intros H1 H2 H3.
  split; unfold test_cache_rules_multiple_deps, solve; by_keys; reflexivity.
Qed.

Lemma cache_rules_multiple_deps_example :
  (10 <> 11 /\ 10 <> 12 /\ 11 <> 12) /\
  test_cache_rules_multiple_deps true true (Some "scope"%string) 10 11 11
    = inr (VSet [0], VSet [0]) /\
  test_cache_rules_multiple_deps false true (Some "scope"%string) 10 12 11
    = inr (VSet [0; 1], VSet [2; 1]).
Proof.
  split; [lia|]. apply (cache_rules_multiple_deps 10 11 12); lia.
Defined.

End CacheRules.

(** * Concrete graphs *)

Definition required (n : string) (k : ParameterKind) (d : Dependant) : DependencyParameter :=
  {| dependency := d; parameter := Some {| name := n; kind := k; default := None |} |}.

Definition node (c : option Call) (s : Scope) (k : CacheKey)
                (deps : list DependencyParameter) : DependantBase :=
  {| call := c; scope := s; use_cache := true; cache_key := k; get_dependencies := deps;
     truthy := true |}.

(** The graph of [test_cache_rules_multiple_deps] with an uncached and a
    cached use of [dep]. *)
Definition two_uses : Heap :=
  test_caching_rules.heap false true (Some "scope"%string) 10 12 11.

Lemma static_order_topological_example :
  exists plan,
    solve two_uses [] 4 0 test_caching_rules.scopes = Return plan /\
    NoDup (static_order (container_cache plan)) /\
    In (root_task (container_cache plan)) (static_order (container_cache plan)) /\
    (forall T D, In T (static_order (container_cache plan)) ->
       In D (Task.positional_parameters T) \/ In D (map snd (Task.keyword_parameters T)) ->
       exists l1 l2, static_order (container_cache plan) = l1 ++ T :: l2 /\ In D l1) /\
    (forall T p, In T (static_order (container_cache plan)) ->
       In p (post_bind two_uses [] (Task.dependant T)) ->
       has_call two_uses (dependency p) = true ->
       exists D l1 l2, static_order (container_cache plan) = l1 ++ T :: l2 /\ In D l1 /\
                       Task.cache_key D = cache_key (two_uses (dependency p))).
Proof.
  eexists. split; [vm_compute; reflexivity|].
  apply (static_order_topological two_uses [] 4 0 test_caching_rules.scopes).
  vm_compute. reflexivity.
Defined.

Lemma ranked_acyclic {A : Type} (R : relation A) (rank : A -> nat) :
  (forall a b, R a b -> rank b < rank a) -> forall a, ~ clos_trans A R a a.
Proof.
  intros H a Ha.
  assert (Hlt : forall x y, clos_trans A R x y -> rank y < rank x).
  { intros x y Hxy. induction Hxy as [x y Hxy|x y z _ IH1 _ IH2]; [auto | lia]. }
  apply Hlt in Ha. lia.
Qed.

Lemma two_uses_closed : closed_universe two_uses [] [0; 1; 2].
Proof.
  intros d Hd p Hp. simpl in Hd.
  destruct Hd as [<-|[<-|[<-|[]]]]; simpl in Hp;
    repeat (destruct Hp as [<-|Hp]; [simpl; tauto|]); destruct Hp.
Qed.

Lemma two_uses_acyclic k : ~ clos_trans CacheKey (key_depends two_uses [] [0; 1; 2]) k k.
Proof.
  apply (ranked_acyclic _ (fun k => if k =? 10 then 1 else 0)).
  intros k1 k2 (d & p & Hd & Hp & <- & <-). simpl in Hd.
  destruct Hd as [<-|[<-|[<-|[]]]]; simpl in Hp;
    repeat (destruct Hp as [<-|Hp]; [simpl; lia|]); destruct Hp.
Qed.

Lemma two_uses_keyed_calls : keyed_calls two_uses [0; 1; 2].
Proof.
  intros d1 d2 H1 H2 _. simpl in H1, H2.
  destruct H1 as [<-|[<-|[<-|[]]]], H2 as [<-|[<-|[<-|[]]]]; reflexivity.
Qed.

Lemma one_task_per_cache_key_example :
  (closed_universe two_uses [] [0; 1; 2] /\ In (bind_root two_uses [] 0) [0; 1; 2] /\
   enough_fuel two_uses [0; 1; 2] <= 4 /\
   (forall k, ~ clos_trans CacheKey (key_depends two_uses [] [0; 1; 2]) k k) /\
   keyed_calls two_uses [0; 1; 2]) /\
  (fst (solve_graph two_uses [] 4 0) = Finished /\
   seen (snd (solve_graph two_uses [] 4 0)) = [0; 2; 1] /\
   dependants (snd (solve_graph two_uses [] 4 0)) = [(10, 0); (11, 2); (12, 1)]) /\
  solve two_uses [] 4 0 test_caching_rules.scopes <> Diverge /\
  exists o st,
    solve_graph two_uses [] 4 0 = (o, st) /\ o <> OutOfFuel /\ o <> Hangs /\
    traversed_from two_uses [] (bind_root two_uses [] 0) st /\
    (o = Finished ->
       traversal_complete two_uses [] st /\
       exists order tasks ts,
         solve_topsort two_uses st = inr order /\
         solve_tasks two_uses st order = inr (tasks, ts) /\
         NoDup (keys tasks) /\
         (forall k, In k (keys tasks) <-> computable_key two_uses st k) /\
         (forall k T, dict_get k tasks = Some T ->
            Task.cache_key T = k /\ cache_key (two_uses (Task.dependant T)) = k /\
            call (two_uses (Task.dependant T)) = Some (Task.call T))).
Proof.
  assert (Hroot : In (bind_root two_uses [] 0) [0; 1; 2]) by (simpl; tauto).
  assert (Hfuel : enough_fuel two_uses [0; 1; 2] <= 4) by (vm_compute; lia).
  split; [|split].
  - split; [exact two_uses_closed|]. split; [exact Hroot|]. split; [exact Hfuel|].
    split; [exact two_uses_acyclic | exact two_uses_keyed_calls].
  - vm_compute. auto.
  - exact (one_task_per_cache_key two_uses [] [0; 1; 2] 4 0 test_caching_rules.scopes
             two_uses_closed Hroot Hfuel two_uses_acyclic two_uses_keyed_calls).
Defined.

(** A root with a call and two markers: the first, [1], is bound to the
    node [3], which has a call and the cache key 5; the second, [2], has no
    call and the cache key 5, and is popped first. *)
Definition shared_key : Heap := fun d =>
  match d with
  | 0 => node (Some 0) None 0 [{| dependency := 1; parameter := None |};
                               {| dependency := 2; parameter := None |}]
  | 1 => node None None 7 [required "y" POSITIONAL_OR_KEYWORD 3]
  | 2 => node None None 5 []
  | _ => node (Some 3) None 5 []
  end.

(** A root bound to the node [1], which is bound to the node [2]: no node
    depends on itself, and the two nodes below the root share the cache key
    5. *)
Definition key_chain : Heap := fun d =>
  match d with
  | 0 => node (Some 0) None 0 [required "a" POSITIONAL_OR_KEYWORD 1]
  | 1 => node (Some 1) None 5 [required "b" POSITIONAL_OR_KEYWORD 2]
  | _ => node (Some 1) None 5 []
  end.

Lemma shared_key_without_task :
  ((forall k, ~ clos_trans CacheKey (key_depends shared_key [] [0; 1; 2; 3]) k k) /\
   bound_to shared_key [] 0 1 /\ bound_to shared_key [] 1 3 /\
   call (shared_key 3) = Some 3 /\ cache_key (shared_key 3) = 5 /\
   exists plan,
     solve shared_key [] 6 0 [None] = Return plan /\
     seen (snd (solve_graph shared_key [] 6 0)) = [0; 2; 1; 3] /\
     map Task.cache_key (static_order (container_cache plan)) = [0]) /\
  ((forall d, ~ clos_trans Dependant (bound_to key_chain []) d d) /\
   solve key_chain [] 6 0 [None] = Raise (DependencyCycleError 5)).
Proof.
  split; [|split].
  2: { apply (ranked_acyclic _ (fun d => match d with 0 => 2 | 1 => 1 | _ => 0 end)).
       intros a b (p & Hp & <-). destruct a as [|[|a]]; simpl in Hp;
         repeat (destruct Hp as [<-|Hp]; [simpl; lia|]); destruct Hp. }
  2: { vm_compute. reflexivity. }
  split; [|split; [|split; [|split; [|split]]]].
  - apply (ranked_acyclic _ (fun k => match k with 0 => 2 | 7 => 1 | _ => 0 end)).
    intros k1 k2 (d & p & Hd & Hp & <- & <-). simpl in Hd.
    destruct Hd as [<-|[<-|[<-|[<-|[]]]]]; simpl in Hp;
      repeat (destruct Hp as [<-|Hp]; [simpl; lia|]); destruct Hp.
  - exists {| dependency := 1; parameter := None |}. split; [simpl; tauto | reflexivity].
  - exists (required "y" POSITIONAL_OR_KEYWORD 3). split; [simpl; tauto | reflexivity].
  - reflexivity.
  - reflexivity.
  - eexists. split; [vm_compute; reflexivity|]. split; reflexivity.
Defined.








(** Two nodes with a call that depend on each other. *)
Definition cyclic : Heap := fun d =>
  match d with
  | 0 => node (Some 0) None 0 [required "x" POSITIONAL_OR_KEYWORD 1]
  | _ => node (Some 1) None 1 [required "y" POSITIONAL_OR_KEYWORD 0]
  end.


(** A root with a positional parameter, a keyword-only parameter and a
    dependency that is bound to no parameter. *)
Definition mixed : Heap := fun d =>
  match d with
  | 0 => node (Some 0) None 0 [required "a" POSITIONAL_OR_KEYWORD 1;
                               required "b" KEYWORD_ONLY 2;
                               {| dependency := 3; parameter := None |}]
  | S n => node (Some (S n)) None (S n) []
  end.

Lemma parameters_are_split_example :
  exists st order tasks ts,
    solve_graph mixed [] 5 0 = (Finished, st) /\
    solve_topsort mixed st = inr order /\
    solve_tasks mixed st order = inr (tasks, ts) /\
    forall k T, dict_get k tasks = Some T ->
    exists params,
      dict_get (Task.dependant T) (computable_param_graph mixed (param_graph st))
        = Some params /\
      map Some (Task.positional_parameters T) =
        map (task_of mixed tasks) (filter positional_edge params) /\
      (forall l1 p l2 n, params = l1 ++ p :: l2 -> keyword_edge p = Some n ->
         (forall p', In p' l2 -> keyword_edge p' <> Some n) ->
         kw_get n (Task.keyword_parameters T) = task_of mixed tasks p) /\
      (forall n, (forall p, In p params -> keyword_edge p <> Some n) ->
         kw_get n (Task.keyword_parameters T) = None).
Proof.
  do 4 eexists. split; [vm_compute; reflexivity|].
  split; [vm_compute; reflexivity|]. split; [vm_compute; reflexivity|].
  eapply (parameters_are_split mixed [] 5 0); vm_compute; reflexivity.
Defined.




(** A node, [2], bound to the node [1] it was reached from: the parent map
    has a cycle, and the path of the [WiringError] of node [4] is never
    computed. *)
Definition parent_cycle : Heap := fun d =>
  match d with
  | 0 => node (Some 0) None 0 [required "a" POSITIONAL_OR_KEYWORD 1]
  | 1 => node (Some 1) None 1 [required "b" POSITIONAL_OR_KEYWORD 2]
  | 2 => node (Some 2) None 2 [required "c" POSITIONAL_OR_KEYWORD 1;
                               required "d" POSITIONAL_OR_KEYWORD 4]
  | 4 => node (Some 4) None 4 [required "z" POSITIONAL_OR_KEYWORD 5]
  | _ => node None None 5 []
  end.

Example parent_cycle_hangs :
  parents (snd (solve_graph parent_cycle [] 8 0)) = [(1, 2); (2, 1); (4, 2)] /\
  get_path 4 (parents (snd (solve_graph parent_cycle [] 8 0))) = None /\
  fst (solve_graph parent_cycle [] 8 0) = Hangs /\
  solve parent_cycle [] 8 0 [None] = Diverge.
Proof. vm_compute. auto. Qed.






(** The rule of the design document for several hooks, in its words: the
    hooks are tried in order and the first replacement wins. *)
Fixpoint first_match_wins (hooks : list BindHook) (param : option inspect_Parameter)
                          (dep : Dependant) : Dependant :=
  match hooks with
  | [] => dep
  | hook :: rest =>
      match hook param dep with
      | Some replacement => replacement
      | None => first_match_wins rest param dep
      end
  end.

(** The hook that replaces [old] by [new]. *)
Definition rebind (old new : Dependant) : BindHook :=
  fun _ d => if d =? old then Some new else None.

Lemma later_hook_rebinds :
  first_match_wins [rebind 1 2; rebind 2 3] None 1 = 2 /\
  bind_root mixed [rebind 1 2; rebind 2 3] 1 = 3 /\
  dependency (bind_param [rebind 1 2; rebind 2 3]
                         {| dependency := 1; parameter := None |}) = 3.
Proof.
  repeat split; reflexivity.
Defined.

Lemma absent_parameter_dropped :
  exists plan,
    solve mixed [] 5 0 [None] = Return plan /\
    dict_get 0 (dag plan) =
      Some [required "a" POSITIONAL_OR_KEYWORD 1; required "b" KEYWORD_ONLY 2;
            {| dependency := 3; parameter := None |}] /\
    map Task.dependant (static_order (container_cache plan)) = [1; 2; 3; 0] /\
    map Task.dependant (Task.positional_parameters (root_task (container_cache plan))) = [1] /\
    map (fun kv => (fst kv, Task.dependant (snd kv)))
        (Task.keyword_parameters (root_task (container_cache plan))) = [("b"%string, 2)].
Proof.
  eexists. split; [vm_compute; reflexivity|]. repeat split; reflexivity.
Defined.

(** A root without a call in the outer scope whose dependency lives in the
    execution scope. *)
Definition outer_marker : Heap := fun d =>
  match d with
  | 0 => node None (Some "outer"%string) 0 [{| dependency := 1; parameter := None |}]
  | _ => node (Some 1) None 1 []
  end.

Lemma scope_violation_behind_key_error :
  bound_to outer_marker [] 0 1 /\
  scope_violation outer_marker [Some "outer"%string; None] 0 1 /\
  solve outer_marker [] 4 0 [Some "outer"%string; None] = Raise KeyError.
Proof.
  split; [|split; [|vm_compute; reflexivity]].
  - exists {| dependency := 1; parameter := None |}. split; [simpl; tauto|reflexivity].
  - exists 0, 1. split; [reflexivity|]. split; [reflexivity | lia].
Defined.

(** A root without a call whose parameter no dependency provides. *)
Definition unwired_marker : Heap := fun d =>
  match d with
  | 0 => node None None 0 [required "x" POSITIONAL_OR_KEYWORD 1]
  | _ => node None None 1 []
  end.

Lemma marker_root_wiring_error :
  call (unwired_marker (bind_root unwired_marker [] 0)) = None /\
  solve unwired_marker [] 4 0 [None] = Raise (WiringError "x" None [0]).
Proof.
  split; [reflexivity | vm_compute; reflexivity].
Defined.

(** * The solved plan *)

Section Plans.

Variable heap : Heap.
Variable binds : list BindHook.

(** What a returned plan was made of. *)
Lemma solved_parts fuel root scopes plan :
  solve heap binds fuel root scopes = Return plan ->
  exists st order tasks ts ids prepared Troot,
    building heap binds (bind_root heap binds root) st /\ q st = [] /\
    solve_graph heap binds fuel root = (Finished, st) /\
    solve_topsort heap st = inr order /\
    solve_tasks heap st order = inr (tasks, ts) /\
    tasked heap (computable_param_graph heap (param_graph st)) tasks ts (List.length tasks) /\
    keys tasks = order /\
    TopologicalSorter.static_order ts = inr ids /\
    TopologicalSorter.prepare ts = inr prepared /\
    dict_get (cache_key (heap (bind_root heap binds root))) tasks = Some Troot /\
    validate_scopes heap scopes (dep_dag st) (parents st) = None /\
    plan = {| solved_dependency := bind_root heap binds root;
              dag := param_graph st;
              container_cache :=
                {| root_task := Troot;
                   topological_sorter := prepared;
                   static_order := tasks_with_ids tasks ids;
                   empty_results := repeat None (List.length tasks) |} |}.
Proof.
  intros Hsolve.
  destruct (solve_inv heap binds _ _ _ _ Hsolve) as (st & cache & Hg & Hc & Hv & ->).
  assert (He := solve_graph_ended heap binds _ _ _ _ Hg).
  inversion He as [st' Hb Hq| | | | |]; subst. clear He.
  destruct (compile_inv heap _ _ _ Hc) as (order & tasks & ts & ids & prepared & Troot &
                                           Hsort & Htasks & Hids & Hprep & Hroot & ->).
  destruct (solve_topsort_ok heap binds _ _ _ Hb Hsort) as (Hnd & _ & _ & Hac).
  destruct (solve_tasks_tasked heap binds _ _ _ _ _ Hb Hnd Hac Htasks) as (Ht & Hkeys).
  exists st, order, tasks, ts, ids, prepared, Troot. repeat (split; [assumption|]).
  reflexivity.
Qed.

(** Two expanded nodes with one cache key are one node. *)
Lemma expanded_by_key root st d1 d2 :
  building heap binds root st -> In d1 (expanded st) -> In d2 (expanded st) ->
  cache_key (heap d1) = cache_key (heap d2) -> d1 = d2.
Proof.
  intros Hb H1 H2 Hk.
  destruct (values_dict_get _ _ (bg_nodup _ _ _ _ Hb) H1) as (k1 & Hk1).
  destruct (values_dict_get _ _ (bg_nodup _ _ _ _ Hb) H2) as (k2 & Hk2).
  assert (E1 := bg_key _ _ _ _ Hb _ _ Hk1). assert (E2 := bg_key _ _ _ _ Hb _ _ Hk2).
  assert (k1 = k2) by congruence. subst k2. congruence.
Qed.

(** X1: the graph of a returned plan holds the root, holds one node for each
    cache key, and holds for every dependency of its nodes a node with the
    cache key and the scope of that dependency. *)
Theorem solved_dag_deduplicated fuel root scopes plan :
  solve heap binds fuel root scopes = Return plan ->
  In (solved_dependency plan) (keys (dag plan)) /\
  (forall d1 d2, In d1 (keys (dag plan)) -> In d2 (keys (dag plan)) ->
     cache_key (heap d1) = cache_key (heap d2) -> d1 = d2) /\
  (forall d params p, dict_get d (dag plan) = Some params -> In p params ->
     exists f, In f (keys (dag plan)) /\
               cache_key (heap f) = cache_key (heap (dependency p)) /\
               scope (heap f) = scope (heap (dependency p))).
Proof.
  intros Hsolve.
  destruct (solved_parts _ _ _ _ Hsolve)
    as (st & order & tasks & ts & ids & prepared & Troot & Hb & Hq & _ & _ & _ & _ & _ &
        _ & _ & _ & _ & ->).
  simpl. rewrite (bg_graph_keys _ _ _ _ Hb). split; [|split].
  - destruct (bg_root _ _ _ _ Hb) as [H|(_ & H & _)]; [|rewrite Hq in H; discriminate].
    eapply dict_get_values; eauto.
  - intros d1 d2 H1 H2. eapply expanded_by_key; eauto.
  - intros d params p Hd Hp.
    destruct (bg_frontier _ _ _ _ Hb _ _ _ Hd Hp) as [Hs|Hs]; [|rewrite Hq in Hs; destruct Hs].
    destruct (bg_seen _ _ _ _ Hb _ Hs) as (f & Hf & Hscope).
    exists f. split; [eapply dict_get_values; eauto|]. split; [|exact Hscope].
    apply (bg_key _ _ _ _ Hb _ _ Hf).
Qed.

(** The static order lists the tasks of the table. *)
Lemma static_order_table dag tasks ts ids T :
  tasked heap dag tasks ts (List.length tasks) ->
  TopologicalSorter.static_order ts = inr ids ->
  (In T (tasks_with_ids tasks ids) <-> exists k, dict_get k tasks = Some T).
Proof.
  intros Ht Hids.
  destruct (TopologicalSorterFacts.static_order_sorted ts ids (t_wf _ _ _ _ _ Ht) Hids)
    as (_ & _ & Hinids & _).
  split.
  - intros HT. apply tasks_with_ids_In in HT. destruct HT as (i & _ & Hi).
    apply task_with_id_some in Hi. destruct Hi as [Hi _].
    apply values_dict_get; [apply (t_nodup _ _ _ _ _ Ht) | exact Hi].
  - intros (k & Hk). apply tasks_with_ids_In. exists (Task.task_id T). split.
    + apply Hinids. apply (t_nodes _ _ _ _ _ Ht). eapply tasked_id_bound; eauto.
    + eapply task_with_id_found; eauto.
Qed.

Lemma tasks_with_ids_task_ids tasks ids :
  (forall i, In i ids -> task_with_id tasks i <> None) ->
  map Task.task_id (tasks_with_ids tasks ids) = ids.
Proof.
  induction ids as [|i ids IH]; intros Hall; simpl; [reflexivity|].
  destruct (task_with_id tasks i) as [T|] eqn:E.
  - simpl. apply task_with_id_some in E. destruct E as [_ ->].
    f_equal. apply IH. intros j Hj. apply Hall. now right.
  - exfalso. apply (Hall i); [now left | exact E].
Qed.

Lemma static_order_task_ids dag tasks ts ids :
  tasked heap dag tasks ts (List.length tasks) ->
  TopologicalSorter.static_order ts = inr ids ->
  map Task.task_id (tasks_with_ids tasks ids) = ids /\ NoDup ids /\
  (forall i, In i ids <-> i < List.length tasks).
Proof.
  intros Ht Hids.
  destruct (TopologicalSorterFacts.static_order_sorted ts ids (t_wf _ _ _ _ _ Ht) Hids)
    as (_ & Hnd & Hinids & _).
  assert (Hin : forall i, In i ids <-> i < List.length tasks).
  { intros i. rewrite Hinids. apply (t_nodes _ _ _ _ _ Ht). }
  split; [|split; assumption].
  apply tasks_with_ids_task_ids. intros i Hi. apply Hin in Hi.
  assert (Hs : In i (task_ids tasks)).
  { rewrite (t_ids _ _ _ _ _ Ht). apply in_seq. lia. }
  unfold task_ids in Hs. apply in_map_iff in Hs. destruct Hs as ([k T] & <- & Hs).
  apply (In_dict_get _ _ _ (t_nodup _ _ _ _ _ Ht)) in Hs. simpl.
  rewrite (task_with_id_found _ _ _ _ _ _ _ Ht Hs). discriminate.
Qed.

(** X2: the results buffer of a returned plan has one empty slot for each
    task of the static order, and the tasks index it by [task_id]: the ids
    are below the length of the buffer and no two tasks share one. *)
Theorem one_result_slot_per_task fuel root scopes plan :
  solve heap binds fuel root scopes = Return plan ->
  List.length (empty_results (container_cache plan))
    = List.length (static_order (container_cache plan)) /\
  (forall slot, In slot (empty_results (container_cache plan)) -> slot = None) /\
  NoDup (map Task.task_id (static_order (container_cache plan))) /\
  (forall T, In T (static_order (container_cache plan)) ->
     Task.task_id T < List.length (empty_results (container_cache plan))).
Proof.
  intros Hsolve.
  destruct (solved_parts _ _ _ _ Hsolve)
    as (st & order & tasks & ts & ids & prepared & Troot & Hb & Hq & _ & _ & _ & Ht & _ &
        Hids & _ & _ & _ & ->).
  simpl. destruct (static_order_task_ids _ _ _ _ Ht Hids) as (Hmap & Hnd & Hin).
  rewrite repeat_length. split; [|split; [|split]].
  - rewrite <- (length_map Task.task_id), Hmap.
    assert (Hlen : List.length (seq 0 (List.length tasks)) = List.length tasks)
      by apply length_seq.
    apply Nat.le_antisymm.
    + rewrite <- Hlen. apply NoDup_incl_length.
      * apply seq_NoDup.
      * intros i Hi. apply Hin. apply in_seq in Hi. lia.
    + rewrite <- Hlen. apply NoDup_incl_length; [exact Hnd|].
      intros i Hi. apply in_seq. apply Hin in Hi. lia.
  - intros slot Hslot. now apply repeat_spec in Hslot.
  - rewrite Hmap. exact Hnd.
  - intros T HT. apply Hin. rewrite <- Hmap. now apply in_map.
Qed.

(** The node behind a task of the table. *)
Lemma table_task_node root st tasks ts k T :
  building heap binds root st ->
  tasked heap (computable_param_graph heap (param_graph st)) tasks ts (List.length tasks) ->
  dict_get k tasks = Some T ->
  In (Task.dependant T) (expanded st) /\
  call (heap (Task.dependant T)) = Some (Task.call T) /\
  Task.scope T = scope (heap (Task.dependant T)) /\
  Task.use_cache T = use_cache (heap (Task.dependant T)) /\
  Task.cache_key T = cache_key (heap (Task.dependant T)) /\
  Task.cache_key T = k.
Proof.
  intros Hb Ht HT.
  destruct (t_task _ _ _ _ _ Ht k T HT)
    as (H1 & H2 & H3 & H4 & H5 & params & _ & Hdag & _).
  repeat split; try assumption; try congruence.
  rewrite computable_get in Hdag.
  destruct (has_call heap (Task.dependant T)); [|discriminate].
  destruct (dict_get (Task.dependant T) (param_graph st)) as [params0|] eqn:Hpg;
    [|discriminate].
  rewrite <- (bg_graph_keys _ _ _ _ Hb). eapply dict_get_Some_keys; eauto.
Qed.

Lemma root_expanded root st :
  building heap binds root st -> q st = [] -> In root (expanded st).
Proof.
  intros Hb Hq.
  destruct (bg_root _ _ _ _ Hb) as [H|(_ & H & _)]; [|rewrite Hq in H; discriminate].
  eapply dict_get_values; eauto.
Qed.

(** X3: the root task of a returned plan is the task of the root, and every
    task of the static order carries the call, the scope, the cache flag
    and the cache key of the node it was built for, a node of the solved
    graph.  No two tasks share a cache key, and every node of the graph
    that has a call has its task. *)
Theorem tasks_mirror_nodes fuel root scopes plan :
  solve heap binds fuel root scopes = Return plan ->
  Task.dependant (root_task (container_cache plan)) = solved_dependency plan /\
  (forall T, In T (static_order (container_cache plan)) ->
     In (Task.dependant T) (keys (dag plan)) /\
     call (heap (Task.dependant T)) = Some (Task.call T) /\
     Task.scope T = scope (heap (Task.dependant T)) /\
     Task.use_cache T = use_cache (heap (Task.dependant T)) /\
     Task.cache_key T = cache_key (heap (Task.dependant T))) /\
  (forall T1 T2, In T1 (static_order (container_cache plan)) ->
     In T2 (static_order (container_cache plan)) ->
     Task.cache_key T1 = Task.cache_key T2 -> T1 = T2) /\
  (forall d, In d (keys (dag plan)) -> call (heap d) <> None ->
     exists T, In T (static_order (container_cache plan)) /\ Task.dependant T = d).
Proof.
  intros Hsolve.
  destruct (solved_parts _ _ _ _ Hsolve)
    as (st & order & tasks & ts & ids & prepared & Troot & Hb & Hq & _ & Hsort & _ & Ht &
        Hkeys & Hids & _ & Hroot & _ & ->).
  simpl.
  assert (Hnode := fun k T => table_task_node _ st tasks ts k T Hb Ht).
  assert (Hrootin := root_expanded _ st Hb Hq).
  rewrite (bg_graph_keys _ _ _ _ Hb). split; [|split; [|split]].
  - destruct (Hnode _ _ Hroot) as (Hin & _ & _ & _ & Hk1 & Hk2).
    apply (expanded_by_key _ st _ _ Hb Hin Hrootin). congruence.
  - intros T HT. apply (static_order_table _ _ _ _ _ Ht Hids) in HT.
    destruct HT as (k & Hk). destruct (Hnode _ _ Hk) as (H1 & H2 & H3 & H4 & H5 & _).
    auto.
  - intros T1 T2 H1 H2 Hk.
    apply (static_order_table _ _ _ _ _ Ht Hids) in H1, H2.
    destruct H1 as (k1 & Hk1). destruct H2 as (k2 & Hk2).
    destruct (Hnode _ _ Hk1) as (_ & _ & _ & _ & _ & E1).
    destruct (Hnode _ _ Hk2) as (_ & _ & _ & _ & _ & E2).
    assert (k1 = k2) by congruence. subst k2. congruence.
  - intros d Hd Hcall.
    destruct (expanded_get heap binds _ st d Hb Hd) as (params & Hp).
    assert (Hs : In (cache_key (heap d)) order).
    { apply (proj1 (proj2 (solve_topsort_ok heap binds _ _ _ Hb Hsort))).
      exists d, params. split; [exact Hp|]. split; [|now left].
      unfold has_call. destruct (call (heap d)); congruence. }
    rewrite <- Hkeys in Hs. apply In_keys_dict_get in Hs. destruct Hs as (T & HT).
    exists T. split; [apply (static_order_table _ _ _ _ _ Ht Hids); eauto|].
    destruct (Hnode _ _ HT) as (Hin & _ & _ & _ & Hk1 & Hk2).
    apply (expanded_by_key _ st _ _ Hb Hin Hd). congruence.
Qed.

(** X4: an exception of [solve] is a [WiringError], a [SolvingError], a
    [DependencyCycleError], a [KeyError] or the scope error of
    [validate_scopes]: the [CycleError] of the sorters, the assertion of
    [build_tasks] and the [StopIteration] of an empty cycle never leave
    it. *)
Theorem solve_raises_documented_errors fuel root scopes e :
  solve heap binds fuel root scopes = Raise e ->
  (exists n c path, e = WiringError n c path) \/
  (exists c s1 s2 path, e = SolvingError c s1 s2 path) \/
  (exists dep, e = DependencyCycleError dep) \/
  e = KeyError \/
  (exists d p s1 s2, e = ScopeViolationError d p s1 s2).
Proof.
  unfold solve. destruct (build_graph heap binds fuel (initial (bind_root heap binds root)))
    as [o st] eqn:Hg.
  assert (He := solve_graph_ended heap binds _ _ _ _ Hg).
  destruct He as [st Hb Hq|st dep q' e' Hb Hq Hnone Hget|
                  st dep q' other path Hb Hq Hother Hne Hpath|st Hb|
                  st dep q' Hb Hq Hnone Hget|st dep q' other Hb Hq Hother Hne Hpath].
  - destruct (compile_cases heap binds (bind_root heap binds root) st Hb Hq)
      as [(cache & Hc)|[(dep & Hc & _)|(Hc & _)]]; rewrite Hc.
    + destruct (validate_scopes heap scopes (dep_dag st) (parents st)) as [e'|] eqn:Hv;
        [|discriminate].
      intros [= <-]. destruct (validate_scopes_Some heap _ _ _ _ Hv)
        as (d & deps & p & _ & _ & _ & ->).
      right. right. right. right. eauto.
    + intros [= <-]. right. right. left. eauto.
    + intros [= <-]. auto.
  - intros [= <-].
    destruct (get_params_from_raise heap binds dep (parents st) _ _ Hget)
      as (_ & _ & _ & prm & _ & _ & _ & He).
    destruct (get_path dep (parents st)); [|discriminate]. injection He as ->.
    left. eauto.
  - intros [= <-]. right. left. eauto.
  - discriminate.
  - discriminate.
  - discriminate.
Qed.

(** The plan of a graph whose root has a call and whose keys do not depend
    on themselves. *)
Lemma compile_returns root st :
  building heap binds root st -> q st = [] -> call_by_key heap st ->
  (forall k, ~ clos_trans nat (depends heap st) k k) ->
  call (heap root) <> None ->
  exists cache, compile heap st root = Return cache.
Proof.
  intros Hb Hq Hck Hac Hcall.
  destruct (solve_topsort_acyclic heap binds _ _ Hb Hac) as (order & Hsort).
  destruct (solve_tasks_ok heap binds _ _ _ Hb Hq Hck Hsort) as (tasks & ts & Htasks).
  destruct (solve_topsort_ok heap binds _ _ _ Hb Hsort) as (Hnd & Hin & _ & _).
  destruct (solve_tasks_tasked heap binds _ _ _ _ _ Hb Hnd Hac Htasks) as (Ht & Hkeys).
  destruct (tasked_static_order heap _ _ _ _ Ht) as (ids & prepared & Hids & Hprep).
  assert (Hk : In (cache_key (heap root)) (keys tasks)).
  { rewrite Hkeys. apply Hin.
    destruct (expanded_get heap binds _ st root Hb (root_expanded _ _ Hb Hq)) as (params & Hp).
    exists root, params. split; [exact Hp|]. split; [|now left].
    unfold has_call. destruct (call (heap root)); congruence. }
  apply In_keys_dict_get in Hk. destruct Hk as (T & HT).
  unfold compile. rewrite Hsort, Htasks, Hids, Hprep, HT. eauto.
Qed.

Lemma compile_root_call root st cache :
  building heap binds root st -> q st = [] ->
  compile heap st root = Return cache -> call (heap root) <> None.
Proof.
  intros Hb Hq Hc.
  destruct (compile_inv heap _ _ _ Hc) as (order & tasks & ts & ids & prepared & T &
                                           Hsort & Htasks & _ & _ & HT & _).
  destruct (solve_topsort_ok heap binds _ _ _ Hb Hsort) as (Hnd & _ & _ & Hac).
  destruct (solve_tasks_tasked heap binds _ _ _ _ _ Hb Hnd Hac Htasks) as (Ht & _).
  destruct (table_task_node _ st tasks ts _ T Hb Ht HT) as (Hin & Hcall & _ & _ & Hk1 & Hk2).
  assert (E : Task.dependant T = root).
  { apply (expanded_by_key _ st _ _ Hb Hin (root_expanded _ _ Hb Hq)). congruence. }
  rewrite <- E, Hcall. discriminate.
Qed.

Lemma validated_edges root st scopes :
  building heap binds root st ->
  (validate_scopes heap scopes (dep_dag st) (parents st) = None <->
   forall d p, In d (expanded st) -> bound_to heap binds d p ->
     ~ scope_violation heap scopes d p).
Proof.
  intros Hb. rewrite validate_scopes_None. split.
  - intros H d p Hd (x & Hx & <-).
    destruct (expanded_get heap binds _ st d Hb Hd) as (params & Hp).
    destruct (bg_params _ _ _ _ Hb _ _ Hp) as [-> _].
    apply (H d (map dependency (post_bind heap binds d))).
    + apply dict_get_In. rewrite (bg_dag _ _ _ _ Hb), Hp. reflexivity.
    + now apply in_map.
  - intros H d deps p Hd Hp. apply H.
    + rewrite <- (bg_graph_keys _ _ _ _ Hb), <- (bg_dag_keys _ _ _ _ Hb).
      apply in_map_iff. exists (d, deps). auto.
    + eapply dep_dag_bound_to; eauto.
Qed.

(** X5: when graph building has finished, nodes that share a cache key
    agree on having a call and the scope of every popped node is in the
    declared ordering, [solve] returns a plan exactly when the root has a
    call, no cache key depends on itself and no node of the graph has a
    dependency in a scope declared inside its own. *)
Theorem plan_returned_iff fuel root scopes st :
  solve_graph heap binds fuel root = (Finished, st) -> call_by_key heap st ->
  (forall d, In d (seen st) -> index_of (scope (heap d)) scopes <> None) ->
  ((exists plan, solve heap binds fuel root scopes = Return plan) <->
   call (heap (bind_root heap binds root)) <> None /\
   (forall k, ~ clos_trans nat (depends heap st) k k) /\
   (forall d p, In d (expanded st) -> bound_to heap binds d p ->
      ~ scope_violation heap scopes d p)).
Proof.
  intros Hg Hck _. assert (He := solve_graph_ended heap binds _ _ _ _ Hg).
  inversion He as [st' Hb Hq| | | | |]; subst. clear He.
  unfold solve. unfold solve_graph in Hg. rewrite Hg. split.
  - intros (plan & Hplan).
    destruct (compile heap st (bind_root heap binds root)) as [cache| |] eqn:Hc;
      try discriminate.
    destruct (validate_scopes heap scopes (dep_dag st) (parents st)) eqn:Hv;
      [discriminate|].
    split; [eapply compile_root_call; eauto|]. split.
    + destruct (compile_inv heap _ _ _ Hc) as (order & _ & _ & _ & _ & _ & Hsort & _).
      apply (solve_topsort_ok heap binds _ _ _ Hb Hsort).
    + apply (validated_edges _ st scopes Hb). exact Hv.
  - intros (Hcall & Hac & Hscopes).
    destruct (compile_returns _ st Hb Hq Hck Hac Hcall) as (cache & ->).
    apply (validated_edges _ st scopes Hb) in Hscopes. rewrite Hscopes. eauto.
Qed.

(** X6: when graph building has finished and nodes that share a cache key
    agree on having a call, [solve] ends in [KeyError] exactly when the
    root has no call and no cache key depends on itself. *)
Theorem key_error_iff fuel root scopes st :
  solve_graph heap binds fuel root = (Finished, st) -> call_by_key heap st ->
  (solve heap binds fuel root scopes = Raise KeyError <->
   call (heap (bind_root heap binds root)) = None /\
   forall k, ~ clos_trans nat (depends heap st) k k).
Proof.
  intros Hg Hck. assert (He := solve_graph_ended heap binds _ _ _ _ Hg).
  inversion He as [st' Hb Hq| | | | |]; subst. clear He.
  unfold solve. unfold solve_graph in Hg. rewrite Hg.
  destruct (compile_cases heap binds (bind_root heap binds root) st Hb Hq)
    as [(cache & Hc)|[(dep & Hc & Hcyc & _)|(Hc & order & Hsort)]]; rewrite Hc.
  - split.
    + destruct (validate_scopes heap scopes (dep_dag st) (parents st)) eqn:Hv;
        [|discriminate].
      destruct (validate_scopes_Some heap _ _ _ _ Hv) as (d & deps & p & _ & _ & _ & ->).
      discriminate.
    + intros (Hnone & _). exfalso. apply (compile_root_call _ st cache Hb Hq Hc Hnone).
  - split; [discriminate|]. intros (_ & Hac). destruct (Hac dep Hcyc).
  - split; [|reflexivity]. intros _.
    assert (Hac := proj2 (proj2 (proj2 (solve_topsort_ok heap binds _ _ _ Hb Hsort)))).
    split; [|exact Hac].
    destruct (call (heap (bind_root heap binds root))) as [c|] eqn:Hcall; [|reflexivity].
    exfalso. destruct (compile_returns _ st Hb Hq Hck Hac) as (cache & Hret).
    + congruence.
    + congruence.
Qed.

Lemma bind_root_declined hooks d :
  (forall hook, In hook hooks -> hook None d = None) -> bind_root heap hooks d = d.
Proof.
  induction hooks as [|hook hooks IH]; intros H; simpl; [reflexivity|].
  rewrite (H hook) by now left. apply IH. intros h Hh. apply H. now right.
Qed.

Lemma bind_param_declined hooks p :
  (forall hook, In hook hooks -> hook (parameter p) (dependency p) = None) ->
  bind_param hooks p = p.
Proof.
  induction hooks as [|hook hooks IH]; intros H; simpl; [reflexivity|].
  rewrite (H hook) by now left. apply IH. intros h Hh. apply H. now right.
Qed.

Lemma get_params_from_declined dep parents params :
  (forall hook prm d, In hook binds -> hook prm d = None) ->
  get_params_from heap binds dep parents params = get_params_from heap [] dep parents params.
Proof.
  intros H. induction params as [|p params IH]; simpl; [reflexivity|].
  rewrite bind_param_declined by (intros; now apply H). now rewrite IH.
Qed.

Lemma build_graph_declined fuel :
  (forall hook prm d, In hook binds -> hook prm d = None) ->
  forall st, build_graph heap binds fuel st = build_graph heap [] fuel st.
Proof.
  intros H. induction fuel as [|fuel IH]; intros st; simpl; [reflexivity|].
  destruct (q st) as [|dep q']; [reflexivity|].
  destruct (dict_get (cache_key (heap dep)) (dependants st)) as [other|].
  - destruct (Scope_eqb (scope (heap other)) (scope (heap dep))); [apply IH | reflexivity].
  - unfold get_params. rewrite (get_params_from_declined _ _ _ H).
    destruct (get_params_from heap [] dep (parents st) (get_dependencies (heap dep)));
      [reflexivity | apply IH].
Qed.

(** X7: hooks that replace nothing change nothing: [solve] with such hooks
    gives what it gives without any hook. *)
Theorem declining_hooks_change_nothing fuel root scopes :
  (forall hook prm d, In hook binds -> hook prm d = None) ->
  solve heap binds fuel root scopes = solve heap [] fuel root scopes.
Proof.
  intros H. unfold solve. simpl.
  rewrite bind_root_declined by (intros; now apply H).
  rewrite (build_graph_declined _ H). reflexivity.
Qed.

(** The table grows by one entry for each node, in the order of the
    nodes. *)
Lemma build_tasks_loop_appends dag : forall nodes ts tasks n tasks' ts',
  NoDup (keys tasks ++ map (fun d => cache_key (heap d)) nodes) ->
  build_tasks_loop heap dag (map Some nodes) ts tasks n = inr (tasks', ts') ->
  exists new, tasks' = tasks ++ new /\
    keys new = map (fun d => cache_key (heap d)) nodes /\
    map (fun e => Task.dependant (snd e)) new = nodes /\
    map (fun e => Task.task_id (snd e)) new = seq n (List.length nodes).
Proof.
  induction nodes as [|dep nodes IH]; intros ts tasks n tasks' ts' Hnd Hrun; simpl in Hrun.
  - injection Hrun as <- <-. exists []. rewrite app_nil_r. auto.
  - destruct (dict_get dep dag) as [params|]; [|discriminate].
    destruct (collect_parameters heap tasks params [] []) as [e|[positional keyword]];
      [discriminate|].
    destruct (call (heap dep)) as [c|]; [|discriminate].
    match type of Hrun with
    | context [dict_set _ ?t tasks] => set (task := t) in *
    end.
    assert (Hfresh : dict_get (cache_key (heap dep)) tasks = None).
    { apply dict_get_None. intros Hin. simpl in Hnd. apply NoDup_remove_2 in Hnd.
      apply Hnd. apply in_or_app. now left. }
    rewrite (dict_set_fresh _ _ task Hfresh) in Hrun.
    match type of Hrun with
    | context [predecessor_tasks heap ?t params] =>
        destruct (predecessor_tasks heap t params) as [e|preds]; [discriminate|]
    end.
    apply IH in Hrun.
    + destruct Hrun as (new & -> & Hk & Hd & Hi).
      exists ((cache_key (heap dep), task) :: new). rewrite <- app_assoc. simpl.
      split; [reflexivity|]. unfold keys in *. simpl. rewrite Hk, Hd, Hi. auto.
    + unfold keys in *. rewrite map_app, <- app_assoc. exact Hnd.
Qed.

(** X8: [build_tasks] makes one task for each node it is given, in the
    order given: the table lists the cache keys of the nodes in that order,
    each task is the task of its node, and its [task_id] is the position of
    the node. *)
Theorem build_tasks_in_order dag nodes tasks ts :
  NoDup (map (fun d => cache_key (heap d)) nodes) ->
  build_tasks heap dag (map Some nodes) TopologicalSorter.empty = inr (tasks, ts) ->
  keys tasks = map (fun d => cache_key (heap d)) nodes /\
  map (fun e => Task.dependant (snd e)) tasks = nodes /\
  map (fun e => Task.task_id (snd e)) tasks = seq 0 (List.length nodes).
Proof.
  intros Hnd Hrun. unfold build_tasks in Hrun.
  apply build_tasks_loop_appends in Hrun; [|exact Hnd].
  destruct Hrun as (new & -> & H). exact H.
Qed.


(** X12: the sorter kept in a returned plan is prepared and untouched: no
    task has been passed out or finished, every node it holds ready is the
    [task_id] of a task of the plan, and a task that is ready has no
    dependency with a call, so it waits for no other task. *)
Theorem prepared_sorter_ready fuel root scopes plan :
  solve heap binds fuel root scopes = Return plan ->
  TopologicalSorter.npassedout (topological_sorter (container_cache plan)) = 0 /\
  TopologicalSorter.nfinished (topological_sorter (container_cache plan)) = 0 /\
  NoDup (TopologicalSorter.ready_nodes (topological_sorter (container_cache plan))) /\
  (forall i, In i (TopologicalSorter.ready_nodes (topological_sorter (container_cache plan))) ->
     exists T, In T (static_order (container_cache plan)) /\ Task.task_id T = i) /\
  (forall T, In T (static_order (container_cache plan)) ->
     In (Task.task_id T)
        (TopologicalSorter.ready_nodes (topological_sorter (container_cache plan))) ->
     Task.positional_parameters T = [] /\ Task.keyword_parameters T = [] /\
     forall p, In p (post_bind heap binds (Task.dependant T)) ->
       call (heap (dependency p)) = None).
Proof.
  intros Hsolve.
  destruct (solved_parts _ _ _ _ Hsolve)
    as (st & order & tasks & ts & ids & prepared & Troot & Hb & Hq & _ & _ & _ & Ht & _ &
        Hids & Hprep & _ & _ & ->).
  simpl.
  destruct (TopologicalSorterFacts.prepare_sorting ts prepared (t_wf _ _ _ _ _ Ht) Hprep)
    as (_ & Hsorting).
  assert (Hready := fun n => TopologicalSorterFacts.sorting_ready ts [] prepared n Hsorting).
  assert (Hnoedge : forall i, In i (TopologicalSorter.ready_nodes prepared) ->
                      forall x, ~ TopologicalSorterFacts.edge ts x i).
  { intros i Hi x Hx. apply Hready in Hi. destruct Hi as (_ & _ & Hp).
    apply (TopologicalSorterFacts.pending_zero ts [] i x
             (TopologicalSorterFacts.wf_nodup _ (t_wf _ _ _ _ _ Ht)) Hp Hx). }
  destruct (static_order_task_ids _ _ _ _ Ht Hids) as (Hmap & _ & Hin).
  unfold TopologicalSorter.prepare in Hprep.
  destruct (TopologicalSorter.find_cycle ts); [discriminate|].
  injection Hprep as <-. simpl in *.
  split; [reflexivity|]. split; [reflexivity|]. split; [|split].
  - apply NoDup_map_filter. apply (TopologicalSorterFacts.wf_nodup _ (t_wf _ _ _ _ _ Ht)).
  - intros i Hi. apply Hready in Hi. destruct Hi as (Hi & _).
    apply (t_nodes _ _ _ _ _ Ht) in Hi. apply Hin in Hi. rewrite <- Hmap in Hi.
    apply in_map_iff in Hi. destruct Hi as (T & HT & HTin). eauto.
  - intros T HT Hi. apply (static_order_table _ _ _ _ _ Ht Hids) in HT.
    destruct HT as (k & Hk).
    destruct (t_task _ _ _ _ _ Ht k T Hk)
      as (_ & _ & _ & _ & _ & params & preds & Hdag & Hcol & Hpre & Hedge).
    assert (Hparams : params = []).
    { destruct params as [|p params]; [reflexivity|]. exfalso.
      destruct (predecessor_tasks_all heap _ _ _ p Hpre (or_introl eq_refl)) as (D & _ & HD).
      apply (Hnoedge _ Hi (Task.task_id D)). now apply Hedge. }
    subst params. simpl in Hcol. injection Hcol as <- <-.
    split; [reflexivity|]. split; [reflexivity|].
    intros p Hp. rewrite computable_get in Hdag.
    destruct (has_call heap (Task.dependant T)); [|discriminate].
    destruct (dict_get (Task.dependant T) (param_graph st)) as [params0|] eqn:Hpg;
      [|discriminate].
    destruct (bg_params _ _ _ _ Hb _ _ Hpg) as [-> _]. simpl in Hdag.
    injection Hdag as Hdag.
    destruct (call (heap (dependency p))) as [c|] eqn:Hcall; [|reflexivity].
    exfalso. assert (Hf : In p (filter (fun p => has_call heap (dependency p))
                                 (post_bind heap binds (Task.dependant T)))).
    { apply filter_In. split; [exact Hp|]. unfold has_call. now rewrite Hcall. }
    rewrite Hdag in Hf. destruct Hf.
Qed.

End Plans.

(** * The other cache rules of the tests *)

Module CacheRuleCases.
Import test_caching_rules.

(** [v1 == v2] on the values of the tests; sets are equal when they have the
    same members. *)
Definition Value_eqb (a b : Value) : bool :=
  match a, b with
  | VInt x, VInt y => x =? y
  | VSet s, VSet s' => forallb (fun x => set_in x s') s && forallb (fun x => set_in x s) s'
  | _, _ => false
  end.

Section between_dep.

Variable dep_use_cache : bool.
Variable dep_scope : Scope.
Variable dep_key : CacheKey.

(** Object 0 is [Dependant(dep, scope=scope, use_cache=use_cache)]. *)
Definition single : Heap := fun _ =>
  {| call := Some dep; scope := dep_scope; use_cache := dep_use_cache;
     cache_key := dep_key; get_dependencies := []; truthy := true |}.

(** Lines 34-52; the result is [was_cached]. *)
Definition test_cache_rules_between_dep : Failure + bool :=
  match solve single [] 2 0 scopes with
  | Return solved =>
      bind (run (Engine.enter_scope scopes (Some "scope"%string) [])) (fun outer =>
      bind (run (Engine.enter_scope scopes None outer)) (fun inner =>
      bind (run (Engine.execute_sync invoke solved inner 0)) (fun '(v1, inner, gen) =>
      bind (run (Engine.exit_scope inner)) (fun outer =>
      bind (run (Engine.enter_scope scopes None outer)) (fun inner =>
      bind (run (Engine.execute_sync invoke solved inner gen)) (fun '(v2, _, _) =>
      inr (Value_eqb v1 v2)))))))
  | r => inl (SolveFailure r)
  end.

End between_dep.

(** X10: the three cases of [test_cache_rules_between_dep]: a dependency
    cached in ["scope"] gives one value to two executions inside one
    instance of that scope; cached in the execution scope, or not cached,
    it gives them different values. *)
Theorem cache_rules_between_dep (dep_key : CacheKey) :
  test_cache_rules_between_dep true (Some "scope"%string) dep_key = inr true /\
  test_cache_rules_between_dep true None dep_key = inr false /\
  test_cache_rules_between_dep false (Some "scope"%string) dep_key = inr false.
Proof.
  repeat split; unfold test_cache_rules_between_dep, solve; CacheRules.by_keys; reflexivity.
Qed.

(** X11: the other six cases of [test_cache_rules_multiple_deps].  A use
    that is not cached has a key of its own; a use that is cached in
    ["scope"] keeps its value over the two executions, a use cached in the
    execution scope keeps it within one execution only. *)
Theorem cache_rules_other_cases (root_key dep_key own1 own2 : CacheKey) :
  root_key <> dep_key -> root_key <> own1 -> root_key <> own2 ->
  dep_key <> own1 -> dep_key <> own2 -> own1 <> own2 ->
  test_cache_rules_multiple_deps true false (Some "scope"%string) root_key dep_key own2
    = inr (VSet [0; 1], VSet [0; 2]) /\
  test_cache_rules_multiple_deps false false (Some "scope"%string) root_key own1 own2
    = inr (VSet [0; 1], VSet [2; 3]) /\
  test_cache_rules_multiple_deps true true None root_key dep_key dep_key
    = inr (VSet [0], VSet [1]) /\
  test_cache_rules_multiple_deps false true None root_key own1 dep_key
    = inr (VSet [0; 1], VSet [2; 3]) /\
  test_cache_rules_multiple_deps true false None root_key dep_key own2
    = inr (VSet [0; 1], VSet [2; 3]) /\
  test_cache_rules_multiple_deps false false None root_key own1 own2
    = inr (VSet [0; 1], VSet [2; 3]).
Proof.
  intros H1 H2 H3 H4 H5 H6.
  repeat split; unfold test_cache_rules_multiple_deps, solve; CacheRules.by_keys; reflexivity.
Qed.

End CacheRuleCases.

(** * Concrete plans *)

Lemma solved_dag_deduplicated_example :
  exists plan,
    solve two_uses [] 4 0 test_caching_rules.scopes = Return plan /\
    In (solved_dependency plan) (keys (dag plan)) /\
    (forall d1 d2, In d1 (keys (dag plan)) -> In d2 (keys (dag plan)) ->
       cache_key (two_uses d1) = cache_key (two_uses d2) -> d1 = d2) /\
    (forall d params p, dict_get d (dag plan) = Some params -> In p params ->
       exists f, In f (keys (dag plan)) /\
                 cache_key (two_uses f) = cache_key (two_uses (dependency p)) /\
                 scope (two_uses f) = scope (two_uses (dependency p))).
Proof.
  eexists. split; [vm_compute; reflexivity|].
  apply (solved_dag_deduplicated two_uses [] 4 0 test_caching_rules.scopes).
  vm_compute. reflexivity.
Defined.

Lemma one_result_slot_per_task_example :
  exists plan,
    solve mixed [] 5 0 [None] = Return plan /\
    List.length (empty_results (container_cache plan))
      = List.length (static_order (container_cache plan)) /\
    (forall slot, In slot (empty_results (container_cache plan)) -> slot = None) /\
    NoDup (map Task.task_id (static_order (container_cache plan))) /\
    (forall T, In T (static_order (container_cache plan)) ->
       Task.task_id T < List.length (empty_results (container_cache plan))).
Proof.
  eexists. split; [vm_compute; reflexivity|].
  apply (one_result_slot_per_task mixed [] 5 0 [None]). vm_compute. reflexivity.
Defined.

Lemma tasks_mirror_nodes_example :
  exists plan,
    solve mixed [] 5 0 [None] = Return plan /\
    Task.dependant (root_task (container_cache plan)) = solved_dependency plan /\
    (forall T, In T (static_order (container_cache plan)) ->
       In (Task.dependant T) (keys (dag plan)) /\
       call (mixed (Task.dependant T)) = Some (Task.call T) /\
       Task.scope T = scope (mixed (Task.dependant T)) /\
       Task.use_cache T = use_cache (mixed (Task.dependant T)) /\
       Task.cache_key T = cache_key (mixed (Task.dependant T))) /\
    (forall T1 T2, In T1 (static_order (container_cache plan)) ->
       In T2 (static_order (container_cache plan)) ->
       Task.cache_key T1 = Task.cache_key T2 -> T1 = T2) /\
    (forall d, In d (keys (dag plan)) -> call (mixed d) <> None ->
       exists T, In T (static_order (container_cache plan)) /\ Task.dependant T = d).
Proof.
  eexists. split; [vm_compute; reflexivity|].
  apply (tasks_mirror_nodes mixed [] 5 0 [None]). vm_compute. reflexivity.
Defined.

Lemma solve_raises_documented_errors_example :
  exists e,
    solve cyclic [] 4 0 [None] = Raise e /\
    ((exists n c path, e = WiringError n c path) \/
     (exists c s1 s2 path, e = SolvingError c s1 s2 path) \/
     (exists dep, e = DependencyCycleError dep) \/
     e = KeyError \/
     (exists d p s1 s2, e = ScopeViolationError d p s1 s2)).
Proof.
  eexists. split; [vm_compute; reflexivity|].
  apply (solve_raises_documented_errors cyclic [] 4 0 [None]). vm_compute. reflexivity.
Defined.

Lemma plan_returned_iff_example :
  exists st,
    solve_graph mixed [] 5 0 = (Finished, st) /\ call_by_key mixed st /\
    (forall d, In d (seen st) -> index_of (scope (mixed d)) [None] <> None) /\
    ((exists plan, solve mixed [] 5 0 [None] = Return plan) <->
     call (mixed (bind_root mixed [] 0)) <> None /\
     (forall k, ~ clos_trans nat (depends mixed st) k k) /\
     (forall d p, In d (expanded st) -> bound_to mixed [] d p ->
        ~ scope_violation mixed [None] d p)).
Proof.
  eexists. split; [vm_compute; reflexivity|].
  assert (Hck : call_by_key mixed
            {| dependants := [(0, 0); (3, 3); (2, 2); (1, 1)];
               dep_dag := [(0, [1; 2; 3]); (3, []); (2, []); (1, [])];
               param_graph :=
                 [(0, [required "a" POSITIONAL_OR_KEYWORD 1; required "b" KEYWORD_ONLY 2;
                       {| dependency := 3; parameter := None |}]);
                  (3, []); (2, []); (1, [])];
               parents := [(1, 0); (2, 0); (3, 0)];
               q := [];
               seen := [0; 3; 2; 1] |}).
  { intros d1 d2 _ _ _. unfold has_call. destruct d1, d2; reflexivity. }
  assert (Hscopes : forall d, In d [0; 3; 2; 1] -> index_of (scope (mixed d)) [None] <> None).
  { intros d _. destruct d; discriminate. }
  split; [exact Hck|]. split; [exact Hscopes|].
  apply (plan_returned_iff mixed [] 5 0 [None]);
    [vm_compute; reflexivity | exact Hck | exact Hscopes].
Defined.

Lemma key_error_iff_example :
  exists st,
    solve_graph outer_marker [] 4 0 = (Finished, st) /\ call_by_key outer_marker st /\
    (solve outer_marker [] 4 0 [None] = Raise KeyError <->
     call (outer_marker (bind_root outer_marker [] 0)) = None /\
     forall k, ~ clos_trans nat (depends outer_marker st) k k).
Proof.
  eexists. split; [vm_compute; reflexivity|].
  assert (Hck : call_by_key outer_marker
            {| dependants := [(0, 0); (1, 1)];
               dep_dag := [(0, [1]); (1, [])];
               param_graph := [(0, [{| dependency := 1; parameter := None |}]); (1, [])];
               parents := [(1, 0)];
               q := [];
               seen := [0; 1] |}).
  { intros d1 d2 H1 H2 Hk. unfold has_call.
    destruct d1, d2; try reflexivity; simpl in Hk; discriminate. }
  split; [exact Hck|].
  apply (key_error_iff outer_marker [] 4 0 [None]); [vm_compute; reflexivity | exact Hck].
Defined.

(** A hook that replaces nothing. *)
Definition decline : BindHook := fun _ _ => None.

Lemma declining_hooks_change_nothing_example :
  (forall hook prm d, In hook [decline] -> hook prm d = None) /\
  solve mixed [decline] 5 0 [None] = solve mixed [] 5 0 [None].
Proof.
  assert (H : forall hook prm d, In hook [decline] -> hook prm d = None).
  { intros hook prm d [<-|[]]. reflexivity. }
  split; [exact H|]. apply (declining_hooks_change_nothing mixed [decline] 5 0 [None] H).
Defined.

Lemma build_tasks_in_order_example :
  exists tasks ts,
    NoDup (map (fun d => cache_key (mixed d)) [2; 1]) /\
    build_tasks mixed [(1, []); (2, [])] (map Some [2; 1]) TopologicalSorter.empty
      = inr (tasks, ts) /\
    keys tasks = map (fun d => cache_key (mixed d)) [2; 1] /\
    map (fun e => Task.dependant (snd e)) tasks = [2; 1] /\
    map (fun e => Task.task_id (snd e)) tasks = seq 0 (List.length [2; 1]).
Proof.
  assert (Hnd : NoDup (map (fun d => cache_key (mixed d)) [2; 1])).
  { simpl. repeat constructor; simpl; intuition discriminate. }
  do 2 eexists. split; [exact Hnd|]. split; [vm_compute; reflexivity|].
  eapply (build_tasks_in_order mixed [(1, []); (2, [])] [2; 1]); [exact Hnd|].
  vm_compute. reflexivity.
Defined.

Lemma prepared_sorter_ready_example :
  exists plan,
    solve mixed [] 5 0 [None] = Return plan /\
    TopologicalSorter.npassedout (topological_sorter (container_cache plan)) = 0 /\
    TopologicalSorter.nfinished (topological_sorter (container_cache plan)) = 0 /\
    NoDup (TopologicalSorter.ready_nodes (topological_sorter (container_cache plan))) /\
    (forall i, In i (TopologicalSorter.ready_nodes (topological_sorter (container_cache plan))) ->
       exists T, In T (static_order (container_cache plan)) /\ Task.task_id T = i) /\
    (forall T, In T (static_order (container_cache plan)) ->
       In (Task.task_id T)
          (TopologicalSorter.ready_nodes (topological_sorter (container_cache plan))) ->
       Task.positional_parameters T = [] /\ Task.keyword_parameters T = [] /\
       forall p, In p (post_bind mixed [] (Task.dependant T)) ->
         call (mixed (dependency p)) = None).
Proof.
  eexists. split; [vm_compute; reflexivity|].
  apply (prepared_sorter_ready mixed [] 5 0 [None]). vm_compute. reflexivity.
Defined.

Lemma cache_rules_other_cases_example :
  (10 <> 11 /\ 10 <> 12 /\ 10 <> 13 /\ 11 <> 12 /\ 11 <> 13 /\ 12 <> 13) /\
  test_caching_rules.test_cache_rules_multiple_deps true false (Some "scope"%string) 10 11 13
    = inr (VSet [0; 1], VSet [0; 2]) /\
  test_caching_rules.test_cache_rules_multiple_deps false false (Some "scope"%string) 10 12 13
    = inr (VSet [0; 1], VSet [2; 3]) /\
  test_caching_rules.test_cache_rules_multiple_deps true true None 10 11 11
    = inr (VSet [0], VSet [1]) /\
  test_caching_rules.test_cache_rules_multiple_deps false true None 10 12 11
    = inr (VSet [0; 1], VSet [2; 3]) /\
  test_caching_rules.test_cache_rules_multiple_deps true false None 10 11 13
    = inr (VSet [0; 1], VSet [2; 3]) /\
  test_caching_rules.test_cache_rules_multiple_deps false false None 10 12 13
    = inr (VSet [0; 1], VSet [2; 3]).
Proof.
  split; [lia|]. apply (CacheRuleCases.cache_rules_other_cases 10 11 12 13); lia.
Defined.
